(** * Sidekick scanner: a shallow embedding of [internal/scanner/scanner.go]

    Go strings are byte sequences; they are modelled as [list ascii]
    (one [ascii] per byte).  Go [int] values that come from the model
    (line numbers) are [Z].  The file system, the model client and the
    JSON codec are collaborators of the scanner and appear as explicit
    arguments of the functions that call them. *)

From Stdlib Require Import Ascii String DecimalString.
From Stdlib Require Import List ZArith Lia Bool Arith.
From Stdlib Require Import Permutation Sorted.
Import ListNotations.

Local Open Scope bool_scope.
Local Open Scope list_scope.

(** ** Bytes and byte strings *)

Definition gostring := list ascii.

Definition lit (s : string) : gostring := list_ascii_of_string s.

Definition byte_of (n : nat) : ascii := ascii_of_nat n.

Definition NL : ascii := byte_of 10.
Definition TAB : ascii := byte_of 9.
Definition BSLASH : ascii := byte_of 92.
Definition QUOTE : ascii := byte_of 34.
Definition SPACE : ascii := byte_of 32.
Definition LETTER_n : ascii := byte_of 110.
Definition LETTER_t : ascii := byte_of 116.

(** [utf8.RuneSelf]: bytes at or above 0x80 are not ASCII. *)
Definition isHigh (c : ascii) : bool := 128 <=? nat_of_ascii c.

Fixpoint bytes_eqb (a b : gostring) : bool :=
  match a, b with
  | [], [] => true
  | x :: a', y :: b' => Ascii.eqb x y && bytes_eqb a' b'
  | _, _ => false
  end.

(** ** The parts of Go's [strings] package the scanner calls *)

Module Strings.

(** [dropPrefix p s] is [Some rest] when [s = p ++ rest]. *)
Fixpoint dropPrefix (p s : gostring) : option gostring :=
  match p with
  | [] => Some s
  | x :: p' =>
      match s with
      | [] => None
      | y :: s' => if Ascii.eqb x y then dropPrefix p' s' else None
      end
  end.

Definition HasPrefix (s p : gostring) : bool :=
  match dropPrefix p s with Some _ => true | None => false end.

Definition TrimPrefix (s p : gostring) : gostring :=
  match dropPrefix p s with Some r => r | None => s end.

Definition HasSuffix (s p : gostring) : bool := HasPrefix (rev s) (rev p).

Definition TrimSuffix (s p : gostring) : gostring :=
  match dropPrefix (rev p) (rev s) with Some r => rev r | None => s end.

(** [strings.Contains]: [sub] occurs somewhere in [s]. *)
Fixpoint Contains (s sub : gostring) : bool :=
  HasPrefix s sub ||
  match s with
  | [] => false
  | _ :: s' => Contains s' sub
  end.

(** The UTF-8 encodings of the code points for which [unicode.IsSpace]
    holds: the six ASCII ones, U+0085, U+00A0, U+1680, U+2000..U+200A,
    U+2028, U+2029, U+202F, U+205F and U+3000.  [strings.TrimSpace]
    decodes runes from either end; a rune decoded there is white space
    exactly when the bytes at that end are one of these encodings
    (overlong or invalid encodings decode to U+FFFD, which is not white
    space). *)
Definition spaceRunes : list gostring :=
  map (map byte_of)
    [ [9]; [10]; [11]; [12]; [13]; [32];
      [194; 133]; [194; 160];
      [225; 154; 128];
      [226; 128; 128]; [226; 128; 129]; [226; 128; 130]; [226; 128; 131];
      [226; 128; 132]; [226; 128; 133]; [226; 128; 134]; [226; 128; 135];
      [226; 128; 136]; [226; 128; 137]; [226; 128; 138];
      [226; 128; 168]; [226; 128; 169]; [226; 128; 175];
      [226; 129; 159];
      [227; 128; 128] ].

(** Drop one leading rune of [runes] from [s], if [s] starts with one. *)
Fixpoint dropRune (runes : list gostring) (s : gostring) : option gostring :=
  match runes with
  | [] => None
  | r :: runes' =>
      match dropPrefix r s with
      | Some rest => Some rest
      | None => dropRune runes' s
      end
  end.

(** Drop leading runes of [runes] for as long as there is one; [fuel]
    bounds the number of runes dropped and [length s] always suffices. *)
Fixpoint trimRunes (runes : list gostring) (fuel : nat) (s : gostring) : gostring :=
  match fuel with
  | O => s
  | S fuel' =>
      match dropRune runes s with
      | Some rest => trimRunes runes fuel' rest
      | None => s
      end
  end.

Definition TrimLeftSpace (s : gostring) : gostring :=
  trimRunes spaceRunes (length s) s.

Definition TrimRightSpace (s : gostring) : gostring :=
  rev (trimRunes (map (@rev ascii) spaceRunes) (length s) (rev s)).

Definition TrimSpace (s : gostring) : gostring :=
  TrimRightSpace (TrimLeftSpace s).

(** [strings.Split(s, sep)] for a one-byte separator (the scanner only
    ever splits on the newline byte): always at least one field. *)
Fixpoint Split (s : gostring) (sep : ascii) : list gostring :=
  match s with
  | [] => [[]]
  | c :: s' =>
      if Ascii.eqb c sep then [] :: Split s' sep
      else match Split s' sep with
           | [] => [[c]]
           | f :: fs => (c :: f) :: fs
           end
  end.

Fixpoint Join (parts : list gostring) (sep : gostring) : gostring :=
  match parts with
  | [] => []
  | [p] => p
  | p :: ps => p ++ sep ++ Join ps sep
  end.

Fixpoint Repeat (s : gostring) (n : nat) : gostring :=
  match n with
  | O => []
  | S n' => s ++ Repeat s n'
  end.

(** [strings.ReplaceAll(s, old, [])] for a non-empty [old]: delete the
    non-overlapping occurrences of [old], scanning left to right. *)
Fixpoint removeAllFuel (fuel : nat) (s old : gostring) : gostring :=
  match fuel with
  | O => s
  | S fuel' =>
      match dropPrefix old s with
      | Some rest => removeAllFuel fuel' rest old
      | None =>
          match s with
          | [] => []
          | c :: s' => c :: removeAllFuel fuel' s' old
          end
      end
  end.

Definition RemoveAll (s old : gostring) : gostring :=
  removeAllFuel (S (length s)) s old.

Definition asciiUpper (c : ascii) : ascii :=
  let n := nat_of_ascii c in
  if (97 <=? n) && (n <=? 122) then ascii_of_nat (n - 32) else c.

Definition asciiLower (c : ascii) : ascii :=
  let n := nat_of_ascii c in
  if (65 <=? n) && (n <=? 90) then ascii_of_nat (n + 32) else c.

Definition isASCII (s : gostring) : bool := forallb (fun c => negb (isHigh c)) s.

(** [strings.EqualFold(s, t)] for a [t] made of the letters G, H and I
    only (the scanner compares with the literal HIGH): none of these
    letters has a case-folding partner outside ASCII, so the folded
    comparison is the byte-wise comparison up to ASCII case. *)
Definition EqualFold (s t : gostring) : bool :=
  bytes_eqb (map asciiUpper s) (map asciiUpper t).

End Strings.

(** [strings.ToUpper] and [strings.ToLower] take a fast path on
    ASCII-only strings and otherwise map every rune through the Unicode
    case tables; the tables are a parameter of the development. *)
Section CaseMapping.
Variable unicodeUpper unicodeLower : gostring -> gostring.

Definition ToUpper (s : gostring) : gostring :=
  if Strings.isASCII s then map Strings.asciiUpper s else unicodeUpper s.

Definition ToLower (s : gostring) : gostring :=
  if Strings.isASCII s then map Strings.asciiLower s else unicodeLower s.
End CaseMapping.

(** ** Response normaliser *)

Definition fence : gostring := lit "```".
Definition fenceJSON : gostring := lit "```json".

Definition stripMarkdownCodeFences (s : gostring) : gostring :=
  let s := Strings.TrimSpace s in
  let s := if Strings.HasPrefix s fenceJSON then Strings.TrimPrefix s fenceJSON
           else if Strings.HasPrefix s fence then Strings.TrimPrefix s fence
           else s in
  let s := Strings.TrimSuffix s fence in
  Strings.TrimSpace s.

(** The loop of [fixJSONStringEscaping], with its two flags as
    arguments; the output builder is the returned list. *)
Fixpoint fixJSONLoop (inString escaped : bool) (s : gostring) : gostring :=
  match s with
  | [] => []
  | ch :: rest =>
      if escaped then ch :: fixJSONLoop inString false rest
      else if Ascii.eqb ch BSLASH then ch :: fixJSONLoop inString true rest
      else if Ascii.eqb ch QUOTE then ch :: fixJSONLoop (negb inString) false rest
      else if inString && Ascii.eqb ch NL then
        BSLASH :: LETTER_n :: fixJSONLoop inString false rest
      else if inString && Ascii.eqb ch TAB then
        BSLASH :: LETTER_t :: fixJSONLoop inString false rest
      else ch :: fixJSONLoop inString false rest
  end.

Definition fixJSONStringEscaping (jsonStr : gostring) : gostring :=
  fixJSONLoop false false jsonStr.

(** The normaliser as the scan paths apply it: strip fences, then
    repair escapes. *)
Definition normalizeResponse (s : gostring) : gostring :=
  fixJSONStringEscaping (stripMarkdownCodeFences s).

(** ** Data model *)

Record SecurityIssue := {
  Severity : gostring;
  Title : gostring;
  Description : gostring;
  LineStart : Z;
  LineEnd : Z;
  Recommendation : gostring;
  Confidence : gostring;
  IssueID : gostring;
  SuggestedFix : gostring;
  FixAvailable : bool
}.

Record ScanResult := {
  FilePath : gostring;
  RawFindings : gostring;
  HasIssues : bool;
  Issues : list SecurityIssue
}.

Record triadStaticFinding := {
  sfFile : gostring;
  sfLine : Z;
  sfPattern : gostring;
  sfSeverity : gostring
}.

Record triadVulnerability := {
  tvType : gostring;
  tvFile : gostring;
  tvLine : Z;
  tvEvidence : gostring;
  tvRecommendation : gostring
}.

Record triadReport := {
  FinalSeverity : gostring;
  trConfidence : gostring;
  Vulnerabilities : list triadVulnerability;
  Summary : gostring
}.

(** The zero value of [triadReport] ([var lastReport triadReport]). *)
Definition zeroReport : triadReport :=
  {| FinalSeverity := []; trConfidence := []; Vulnerabilities := []; Summary := [] |}.

(** Errors the scanner returns, one constructor per [fmt.Errorf] site. *)
Inductive scanError :=
| ErrReadFile
| ErrContextAnalysis
| ErrSecurityScan
| ErrParseJSON (raw : gostring)
| ErrAnalysis
| ErrAttacker
| ErrDefender
| ErrAuditor
| ErrAuditorParse (raw : gostring)
| ErrNoFix
| ErrWriteFile
| ErrReadInput.

(** Outcome of a Go call: a value, a returned error, or a run-time
    panic (index or slice bounds out of range). *)
Inductive outcome (A : Type) :=
| Ok (a : A)
| Err (e : scanError)
| Panic.
Arguments Ok {A} a.
Arguments Err {A} e.
Arguments Panic {A}.

Definition bind {A B} (m : outcome A) (k : A -> outcome B) : outcome B :=
  match m with
  | Ok a => k a
  | Err e => Err e
  | Panic => Panic
  end.

Notation "x <- m ;; k" := (bind m (fun x => k))
  (at level 61, m at next level, right associativity).

Definition orErr {A} (o : option A) (e : scanError) : outcome A :=
  match o with Some a => Ok a | None => Err e end.

Definition orPanic {A} (o : option A) : outcome A :=
  match o with Some a => Ok a | None => Panic end.

Definition len {A} (l : list A) : Z := Z.of_nat (length l).

(** Go [int] is 64 bits wide on the supported platforms. *)
Definition wrap64 (z : Z) : Z := (z + 2 ^ 63) mod 2 ^ 64 - 2 ^ 63.

(** [l[lo:hi]], [l[lo:]] and [l[i]] with Go's bounds checks. *)
Definition slice {A} (l : list A) (lo hi : Z) : option (list A) :=
  if (0 <=? lo)%Z && (lo <=? hi)%Z && (hi <=? len l)%Z
  then Some (firstn (Z.to_nat hi - Z.to_nat lo) (skipn (Z.to_nat lo) l))
  else None.

Definition sliceFrom {A} (l : list A) (lo : Z) : option (list A) :=
  slice l lo (len l).

Definition sliceTo {A} (l : list A) (hi : Z) : option (list A) :=
  slice l 0 hi.

Definition index {A} (l : list A) (i : Z) : option A :=
  if (0 <=? i)%Z && (i <? len l)%Z then nth_error l (Z.to_nat i) else None.

(** ** Static pre-scanner *)

Section StaticAnalysis.
Variable unicodeUpper unicodeLower : gostring -> gostring.

Definition looksLikeSQLConcat (line : gostring) : bool :=
  let upper := ToUpper unicodeUpper line in
  if negb (Strings.Contains upper (lit "SELECT") || Strings.Contains upper (lit "INSERT")
           || Strings.Contains upper (lit "UPDATE") || Strings.Contains upper (lit "DELETE"))
  then false
  else Strings.Contains line (lit "+") || Strings.Contains line (lit "fmt.Sprintf").

Definition userHints : list gostring :=
  map lit ["r."; "req"; "request"; "user"; "input"; "param"; "query"; "form"]%string.

Definition looksLikeFmtSprintfUserInput (line : gostring) : bool :=
  if negb (Strings.Contains line (lit "fmt.Sprintf")) then false
  else existsb (fun hint => Strings.Contains (ToLower unicodeLower line) hint) userHints.

Definition mkFinding (file : gostring) (lineNum : Z) (pattern severity : string)
  : triadStaticFinding :=
  {| sfFile := file; sfLine := lineNum; sfPattern := lit pattern; sfSeverity := lit severity |}.

(** The findings one line contributes, in the order of the five tests. *)
Definition lineFindings (filePath : gostring) (lineNum : Z) (line : gostring)
  : list triadStaticFinding :=
  let trimmed := Strings.TrimSpace line in
  (if Strings.Contains trimmed (lit "exec.Command")
   then [mkFinding filePath lineNum "exec.Command" "High"] else [])
  ++ (if Strings.Contains trimmed (lit "tls.Config")
         && Strings.Contains trimmed (lit "InsecureSkipVerify")
         && Strings.Contains trimmed (lit "true")
      then [mkFinding filePath lineNum "tls.Config{InsecureSkipVerify: true}" "High"] else [])
  ++ (if looksLikeSQLConcat trimmed
      then [mkFinding filePath lineNum "SQL string concatenation" "High"] else [])
  ++ (if Strings.Contains trimmed (lit "http.ListenAndServe")
      then [mkFinding filePath lineNum "http.ListenAndServe" "Medium"] else [])
  ++ (if looksLikeFmtSprintfUserInput trimmed
      then [mkFinding filePath lineNum "fmt.Sprintf with user input" "Medium"] else []).

(** The inner loop: [i] is the index of the first line of [lines]. *)
Fixpoint scanLines (filePath : gostring) (i : Z) (lines : list gostring)
  : list triadStaticFinding :=
  match lines with
  | [] => []
  | line :: rest => lineFindings filePath (i + 1) line ++ scanLines filePath (i + 1) rest
  end.

(** [codeByFile] is the map as the [range] loop visits it: a list of
    (path, content) entries in iteration order. *)
Definition runTriadStaticAnalysis (codeByFile : list (gostring * gostring))
  : list triadStaticFinding :=
  flat_map (fun '(filePath, content) => scanLines filePath 0 (Strings.Split content NL))
           codeByFile.
End StaticAnalysis.

Definition truncateText (text : gostring) (maxLen : nat) : gostring :=
  if length text <=? maxLen then text else firstn maxLen text.

(** ** Collaborators of the scan orchestrator *)

(** One constructor per dynamic call of [client.Generate]: the worker
    job (index into [files]) or the triad round that issues it.  The
    client may answer the same prompt differently at different calls. *)
Inductive modelCall :=
| CallContext (job : nat)
| CallScan (job : nat)
| CallCustom (job : nat)
| CallAttacker (round : Z)
| CallDefender (round : Z)
| CallAuditor (round : Z).

(** The file system and the model server; [None] is a returned error. *)
Record World := {
  readFile : gostring -> option gostring;
  Generate : modelCall -> gostring -> option gostring
}.

(** Prompt templates and text renderers ([security.go], [custom.go],
    [addLineNumbers], [renderFindings], [buildTriadSharedContext]):
    total string functions whose text no property below depends on. *)
Record Prompts := {
  addLineNumbers : gostring -> gostring;
  getContextPrompt : gostring -> gostring -> gostring;
  getScanPrompt : gostring -> gostring -> gostring -> gostring;
  createCustomPrompt : gostring -> gostring -> gostring;
  getTriadAttackerPrompt : gostring -> gostring -> Z -> gostring;
  getTriadDefenderPrompt : gostring -> gostring -> gostring -> Z -> gostring;
  getTriadAuditorPrompt : gostring -> gostring -> gostring -> gostring -> Z -> gostring;
  buildTriadSharedContext :
    list (gostring * gostring) -> list triadStaticFinding -> gostring;
  renderFindings : list SecurityIssue -> gostring
}.

(** [encoding/json].  [decodeReport dst data] is
    [json.Unmarshal(data, &dst)]: the loop decodes every round into the
    same variable, so the previous value is the destination. *)
Record JSONCodec := {
  decodeFindings : gostring -> option (list SecurityIssue);
  decodeReport : triadReport -> gostring -> option triadReport;
  marshalReport : triadReport -> gostring
}.

(** ** Scan orchestrator *)

Section Scanner.
Variable W : World.
Variable P : Prompts.
Variable J : JSONCodec.
Variable unicodeUpper unicodeLower : gostring -> gostring.
Variable scanType : gostring.

Definition isSecurity : bool := bytes_eqb scanType (lit "security").
Definition isTriad : bool := bytes_eqb scanType (lit "triad").

Definition emptyResult (filePath : gostring) : ScanResult :=
  {| FilePath := filePath; RawFindings := []; HasIssues := false; Issues := [] |}.

(** [scanFileWithProgress] for worker job [job]; the progress
    messages only drive the spinner and are left out. *)
Definition scanFileWithProgress (job : nat) (filePath : gostring) : outcome ScanResult :=
  let result := emptyResult filePath in
  content <- orErr (readFile W filePath) ErrReadFile ;;
  if (len content =? 0)%Z then Ok result
  else if (100000 <? len content)%Z then Ok result
  else if isSecurity then
    let numberedContent := addLineNumbers P content in
    contextAnalysis <-
      orErr (Generate W (CallContext job) (getContextPrompt P filePath numberedContent))
            ErrContextAnalysis ;;
    let contextAnalysis := stripMarkdownCodeFences contextAnalysis in
    findings <-
      orErr (Generate W (CallScan job)
               (getScanPrompt P filePath numberedContent contextAnalysis))
            ErrSecurityScan ;;
    let findings := stripMarkdownCodeFences findings in
    let findings := fixJSONStringEscaping findings in
    match decodeFindings J findings with
    | None => Err (ErrParseJSON findings)
    | Some jsonFindings =>
        Ok {| FilePath := filePath;
              RawFindings := renderFindings P jsonFindings;
              HasIssues := (0 <? len jsonFindings)%Z;
              Issues := jsonFindings |}
    end
  else
    response <-
      orErr (Generate W (CallCustom job) (createCustomPrompt P filePath content))
            ErrAnalysis ;;
    Ok {| FilePath := filePath;
          RawFindings := response;
          HasIssues := negb (bytes_eqb (Strings.TrimSpace response) []);
          Issues := [] |}.

(** *** Triad mode *)

Record triadState := {
  lastReport : triadReport;
  summary : gostring
}.

(** One iteration of the round loop, up to the [break] test. *)
Definition triadRound (sharedContext : gostring) (st : triadState) (round : Z)
  : outcome triadState :=
  let attackerPrompt := getTriadAttackerPrompt P sharedContext (summary st) round in
  attackerResp <- orErr (Generate W (CallAttacker round) attackerPrompt) ErrAttacker ;;
  let defenderPrompt :=
    getTriadDefenderPrompt P sharedContext (summary st) attackerResp round in
  defenderResp <- orErr (Generate W (CallDefender round) defenderPrompt) ErrDefender ;;
  let auditorPrompt :=
    getTriadAuditorPrompt P sharedContext (summary st) attackerResp defenderResp round in
  auditorResp <- orErr (Generate W (CallAuditor round) auditorPrompt) ErrAuditor ;;
  let auditorResp := stripMarkdownCodeFences auditorResp in
  let auditorResp := fixJSONStringEscaping auditorResp in
  match decodeReport J (lastReport st) auditorResp with
  | None => Err (ErrAuditorParse auditorResp)
  | Some report =>
      let summary := Strings.TrimSpace (Summary report) in
      let summary :=
        if bytes_eqb summary [] then truncateText auditorResp 1200 else summary in
      Ok {| lastReport := report; summary := summary |}
  end.

Definition confidenceIsHigh (r : triadReport) : bool :=
  Strings.EqualFold (trConfidence r) (lit "HIGH").

(** [for round := 1; round <= 3; round++] from the value [round] on.
    The result carries the rounds whose auditor verdict was decoded,
    oldest first.  [fuel] bounds the iterations of the model only:
    [4 - round] iterations always reach the loop exit. *)
Fixpoint triadLoop (sharedContext : gostring) (fuel : nat) (round : Z) (st : triadState)
  : outcome (triadState * list Z) :=
  match fuel with
  | O => Ok (st, [])
  | S fuel' =>
      if (round <=? 3)%Z then
        st' <- triadRound sharedContext st round ;;
        if confidenceIsHigh (lastReport st') then Ok (st', [round])
        else
          rest <- triadLoop sharedContext fuel' (round + 1) st' ;;
          Ok (fst rest, round :: snd rest)
      else Ok (st, [])
  end.



(** [codeByFile[filePath] = content]: replace an existing entry or
    add a new one. *)
Fixpoint mapStore (m : list (gostring * gostring)) (k v : gostring)
  : list (gostring * gostring) :=
  match m with
  | [] => [(k, v)]
  | (k', v') :: m' =>
      if bytes_eqb k' k then (k, v) :: m' else (k', v') :: mapStore m' k v
  end.

Fixpoint readTriadFiles (files : list gostring) (codeByFile : list (gostring * gostring))
  : outcome (list (gostring * gostring)) :=
  match files with
  | [] => Ok codeByFile
  | filePath :: rest =>
      content <- orErr (readFile W filePath) ErrReadFile ;;
      if (len content =? 0)%Z || (100000 <? len content)%Z
      then readTriadFiles rest codeByFile
      else readTriadFiles rest (mapStore codeByFile filePath content)
  end.

Definition triadMulti : gostring := lit "triad:multi".

(** [scanTriadFiles], returning next to the result the rounds run
    and the report left in [lastReport]. *)
Definition scanTriadFilesTrace (files : list gostring)
  : outcome (ScanResult * list Z * triadReport) :=
  let result := emptyResult triadMulti in
  if (len files =? 0)%Z then Ok (result, [], zeroReport)
  else
    codeByFile <- readTriadFiles files [] ;;
    if (len codeByFile =? 0)%Z then Ok (result, [], zeroReport)
    else
      let staticFindings := runTriadStaticAnalysis unicodeUpper unicodeLower codeByFile in
      let sharedContext := buildTriadSharedContext P codeByFile staticFindings in
      r <- triadLoop sharedContext 3 1 {| lastReport := zeroReport; summary := [] |} ;;
      let report := lastReport (fst r) in
      Ok ({| FilePath := triadMulti;
             RawFindings := marshalReport J report;
             HasIssues := (0 <? len (Vulnerabilities report))%Z;
             Issues := [] |}, snd r, report).

Definition scanTriadFiles (files : list gostring) : outcome ScanResult :=
  r <- scanTriadFilesTrace files ;; Ok (fst (fst r)).

(** *** The worker pool *)

(** The results of the jobs [job], [job+1], ... for [files], in job
    order; a job that returns an error contributes nothing. *)
Fixpoint scanJobs (job : nat) (files : list gostring) : list ScanResult :=
  match files with
  | [] => []
  | file :: rest =>
      match scanFileWithProgress job file with
      | Ok result => result :: scanJobs (S job) rest
      | _ => scanJobs (S job) rest
      end
  end.

(** What [ScanFiles] can return.  In the pooled modes three workers
    append under a mutex, so the results come in completion order:
    any permutation of the successful jobs. *)
Inductive ScanFilesReturns (files : list gostring) : outcome (list ScanResult) -> Prop :=
| ReturnsTriad :
    isTriad = true ->
    ScanFilesReturns files (result <- scanTriadFiles files ;; Ok [result])
| ReturnsPool results :
    isTriad = false ->
    Permutation (scanJobs 0 files) results ->
    ScanFilesReturns files (Ok results).
End Scanner.

(** ** Fix applicator *)

Definition extractLines (lines : list gostring) (lineStart lineEnd : Z) : outcome gostring :=
  if (lineStart <? 1)%Z || (len lines <? lineStart)%Z then Ok []
  else
    let lineEnd :=
      if (lineEnd <? lineStart)%Z || (len lines <? lineEnd)%Z then len lines else lineEnd in
    extracted <- orPanic (slice lines (lineStart - 1) lineEnd) ;;
    Ok (Strings.Join extracted [NL]).

Definition isFenceLine (trimmed : gostring) : bool :=
  bytes_eqb trimmed fence
  || Strings.HasPrefix trimmed (lit "```go")
  || Strings.HasPrefix trimmed (lit "```python")
  || Strings.HasPrefix trimmed (lit "```java")
  || Strings.HasPrefix trimmed (lit "```javascript")
  || Strings.HasPrefix trimmed fence.

(** The line loop of [extractCodeFromResponse]: the lines kept after
    the CODE: marker. *)
Fixpoint collectCodeLines (inCodeSection : bool) (lines : list gostring) : list gostring :=
  match lines with
  | [] => []
  | line :: rest =>
      if Strings.HasPrefix (Strings.TrimSpace line) (lit "CODE:")
      then collectCodeLines true rest
      else if inCodeSection then
        if isFenceLine (Strings.TrimSpace line) then collectCodeLines inCodeSection rest
        else line :: collectCodeLines inCodeSection rest
      else collectCodeLines inCodeSection rest
  end.

Definition extractCodeFromResponse (response : gostring) : gostring :=
  let codeLines := collectCodeLines false (Strings.Split response NL) in
  if (len codeLines =? 0)%Z then
    let result := Strings.TrimSpace response in
    let result := Strings.RemoveAll result (lit "```go") in
    let result := Strings.RemoveAll result (lit "```python") in
    let result := Strings.RemoveAll result (lit "```java") in
    let result := Strings.RemoveAll result (lit "```javascript") in
    let result := Strings.RemoveAll result fence in
    Strings.TrimSpace result
  else Strings.TrimSpace (Strings.Join codeLines [NL]).

(** The clamping step of [applyFix] for a file of [n] lines. *)
Definition clampLines (lineStart lineEnd n : Z) : Z * Z :=
  let lineStart := if (lineStart <? 1)%Z then 1%Z else lineStart in
  let lineStart := if (n <? lineStart)%Z then n else lineStart in
  let lineEnd := if (lineEnd <? lineStart)%Z then lineStart else lineEnd in
  let lineEnd := if (n <? lineEnd)%Z then n else lineEnd in
  (lineStart, lineEnd).

(** Leading blanks and tabs of the first line of the issue. *)
Fixpoint leadingIndent (line : gostring) : gostring :=
  match line with
  | [] => []
  | ch :: rest =>
      if Ascii.eqb ch SPACE || Ascii.eqb ch TAB then ch :: leadingIndent rest else []
  end.

(** Indentation width of a fix line, a tab counting as four blanks. *)
Fixpoint indentWidth (fixLine : gostring) : Z :=
  match fixLine with
  | [] => 0
  | ch :: rest =>
      if Ascii.eqb ch SPACE then (1 + indentWidth rest)%Z
      else if Ascii.eqb ch TAB then (4 + indentWidth rest)%Z
      else 0%Z
  end.

Definition isBlank (fixLine : gostring) : bool := bytes_eqb (Strings.TrimSpace fixLine) [].

Definition minIndentStep (minFixIndent : Z) (fixLine : gostring) : Z :=
  if isBlank fixLine then minFixIndent
  else
    let indent := indentWidth fixLine in
    if (minFixIndent =? -1)%Z || (indent <? minFixIndent)%Z then indent else minFixIndent.

Definition minFixIndentOf (fixLines : list gostring) : Z :=
  let m := fold_left minIndentStep fixLines (-1)%Z in
  if (m =? -1)%Z then 0%Z else m.

Definition reindentLine (originalIndent : gostring) (minFixIndent : Z) (fixLine : gostring)
  : gostring :=
  let trimmed := Strings.TrimSpace fixLine in
  if bytes_eqb trimmed [] then []
  else
    let currentIndent := indentWidth fixLine in
    let relativeIndent := (currentIndent - minFixIndent)%Z in
    let newIndent :=
      if Strings.Contains originalIndent [TAB] then
        originalIndent
        ++ Strings.Repeat [TAB] (Z.to_nat (Z.quot relativeIndent 4))
        ++ Strings.Repeat [SPACE] (Z.to_nat (Z.rem relativeIndent 4))
      else originalIndent ++ Strings.Repeat [SPACE] (Z.to_nat relativeIndent) in
    newIndent ++ trimmed.

(** The file under review and its [.backup] copy; [fsWritable = false]
    makes [os.WriteFile] fail. *)
Record FileStore := {
  fsFile : option gostring;
  fsBackup : option gostring;
  fsWritable : bool
}.

Definition writeFile (fs : FileStore) (data : gostring) : outcome FileStore :=
  if fsWritable fs
  then Ok {| fsFile := Some data; fsBackup := fsBackup fs; fsWritable := true |}
  else Err ErrWriteFile.

Definition writeBackup (fs : FileStore) (data : gostring) : outcome FileStore :=
  if fsWritable fs
  then Ok {| fsFile := fsFile fs; fsBackup := Some data; fsWritable := true |}
  else Err ErrWriteFile.

(** The lines [applyFix] joins and writes, from the lines read. *)
Definition spliceFix (lines : list gostring) (issue : SecurityIssue)
  : outcome (list gostring) :=
  let '(lineStart, lineEnd) := clampLines (LineStart issue) (LineEnd issue) (len lines) in
  originalIndent <-
    (if (lineStart - 1 <? len lines)%Z then
       line <- orPanic (index lines (lineStart - 1)) ;;
       Ok (if (0 <? len line)%Z then leadingIndent line else [])
     else Ok []) ;;
  let fixLines := Strings.Split (Strings.TrimSuffix (SuggestedFix issue) [NL]) NL in
  let minFixIndent := minFixIndentOf fixLines in
  let fixLines := map (reindentLine originalIndent minFixIndent) fixLines in
  before <- orPanic (sliceTo lines (lineStart - 1)) ;;
  after <- (if (lineEnd <? len lines)%Z then orPanic (sliceFrom lines lineEnd) else Ok []) ;;
  Ok (before ++ fixLines ++ after).

Definition applyFix (fs : FileStore) (issue : SecurityIssue) : outcome FileStore :=
  if negb (FixAvailable issue) || bytes_eqb (SuggestedFix issue) [] then Err ErrNoFix
  else
    content <- orErr (fsFile fs) ErrReadFile ;;
    let lines := Strings.Split content NL in
    newLines <- spliceFix lines issue ;;
    writeFile fs (Strings.Join newLines [NL]).

(** ** Interactive reviewer *)

(** [sort.Slice(findings, less)] with
    [less i j = findings[i].LineStart > findings[j].LineStart]: an
    insertion sort (what [sort.Slice] runs on short slices).  The
    library sort is not stable; properties below that speak of the
    order are stated for every ordered permutation as well. *)
Definition lessFinding (a b : SecurityIssue) : bool := (LineStart b <? LineStart a)%Z.

Fixpoint insertFinding (x : SecurityIssue) (l : list SecurityIssue) : list SecurityIssue :=
  match l with
  | [] => [x]
  | y :: l' => if lessFinding y x then y :: insertFinding x l' else x :: y :: l'
  end.

Definition sortFindings (findings : list SecurityIssue) : list SecurityIssue :=
  fold_right insertFinding [] findings.

(** The key read from standard input, after trimming and lower-casing. *)
Inductive choice := KeyApply | KeyShow | KeyIgnore | KeyNext | KeyPrevious | KeyQuit | KeyOther.

Record reviewState := {
  rvFindings : list SecurityIssue;
  currentIdx : nat;
  appliedFixes : list nat;
  backupCreated : bool;
  rvContent : gostring;
  rvLines : list gostring
}.

Definition isApplied (st : reviewState) (idx : nat) : bool :=
  existsb (Nat.eqb idx) (appliedFixes st).

(** What one pass through the review loop does. *)
Inductive reviewStep :=
| Continue (st : reviewState) (fs : FileStore)
| Return (err : option scanError) (fs : FileStore)
| Crash.

(** The reviewer's local copy of the finding, as handed to [applyFix]:
    the fix text is reduced to its code and [LineEnd] is widened when
    the fix has more lines than the reported range. *)
Definition prepareIssue (issue : SecurityIssue) (lines : list gostring) : SecurityIssue :=
  let suggestedFix := extractCodeFromResponse (SuggestedFix issue) in
  let fixLineCount := len (Strings.Split (Strings.TrimSpace suggestedFix) NL) in
  let originalLineCount := wrap64 (wrap64 (LineEnd issue - LineStart issue) + 1) in
  let lineEnd :=
    if (originalLineCount <? fixLineCount)%Z then
      let lineEnd := wrap64 (wrap64 (LineStart issue + fixLineCount) - 1) in
      if (len lines <? lineEnd)%Z then len lines else lineEnd
    else LineEnd issue in
  {| Severity := Severity issue; Title := Title issue; Description := Description issue;
     LineStart := LineStart issue; LineEnd := lineEnd;
     Recommendation := Recommendation issue; Confidence := Confidence issue;
     IssueID := IssueID issue; SuggestedFix := suggestedFix;
     FixAvailable := FixAvailable issue |}.

Definition withIdx (st : reviewState) (idx : nat) : reviewState :=
  {| rvFindings := rvFindings st; currentIdx := idx; appliedFixes := appliedFixes st;
     backupCreated := backupCreated st; rvContent := rvContent st; rvLines := rvLines st |}.

Definition isLast (st : reviewState) : bool :=
  negb (Z.of_nat (currentIdx st) <? len (rvFindings st) - 1)%Z.

(** [case "a"]. *)
Definition applyChoice (st : reviewState) (fs : FileStore) (issue : SecurityIssue)
  : reviewStep :=
  if negb (FixAvailable issue) then Continue st fs
  else if isApplied st (currentIdx st) then Continue st fs
  else
    match (if backupCreated st then Ok fs else writeBackup fs (rvContent st)) with
    | Err _ => Continue st fs
    | Panic => Crash
    | Ok fs1 =>
        let st1 :=
          {| rvFindings := rvFindings st; currentIdx := currentIdx st;
             appliedFixes := appliedFixes st; backupCreated := true;
             rvContent := rvContent st; rvLines := rvLines st |} in
        let issue := prepareIssue issue (rvLines st) in
        match applyFix fs1 issue with
        | Err _ => Continue st1 fs1
        | Panic => Crash
        | Ok fs2 =>
            match fsFile fs2 with
            | None => Return (Some ErrReadFile) fs2
            | Some content =>
                let st2 :=
                  {| rvFindings := rvFindings st; currentIdx := currentIdx st;
                     appliedFixes := currentIdx st :: appliedFixes st;
                     backupCreated := true;
                     rvContent := content; rvLines := Strings.Split content NL |} in
                if isLast st2 then Return None fs2
                else Continue (withIdx st2 (S (currentIdx st))) fs2
            end
        end
    end.

(** One iteration of the [for] loop of [ReviewFindings] on the key
    [key]; what is only printed is left out. *)
Definition reviewLoopStep (key : choice) (st : reviewState) (fs : FileStore) : reviewStep :=
  match nth_error (rvFindings st) (currentIdx st) with
  | None => Crash
  | Some issue =>
      match key with
      | KeyApply => applyChoice st fs issue
      | KeyShow =>
          if negb (FixAvailable issue) then Continue st fs
          else
            match extractLines (rvLines st) (LineStart issue) (LineEnd issue) with
            | Ok _ => Continue st fs
            | _ => Crash
            end
      | KeyIgnore =>
          if isLast st then Return None fs else Continue (withIdx st (S (currentIdx st))) fs
      | KeyNext =>
          if isLast st then Continue st fs else Continue (withIdx st (S (currentIdx st))) fs
      | KeyPrevious =>
          if (0 <? currentIdx st)%nat then Continue (withIdx st (currentIdx st - 1)) fs
          else Continue st fs
      | KeyQuit => Return None fs
      | KeyOther => Continue st fs
      end
  end.

(** The loop on a script of keys; running out of input is the read
    error of [reader.ReadString]. *)
Fixpoint reviewLoop (keys : list choice) (st : reviewState) (fs : FileStore) : reviewStep :=
  match keys with
  | [] => Return (Some ErrReadInput) fs
  | key :: rest =>
      match reviewLoopStep key st fs with
      | Continue st' fs' => reviewLoop rest st' fs'
      | done => done
      end
  end.

Definition ReviewFindings (findings : list SecurityIssue) (keys : list choice) (fs : FileStore)
  : reviewStep :=
  if (len findings =? 0)%Z then Return None fs
  else
    let findings := sortFindings findings in
    match fsFile fs with
    | None => Return (Some ErrReadFile) fs
    | Some content =>
        reviewLoop keys
          {| rvFindings := findings; currentIdx := 0; appliedFixes := [];
             backupCreated := false; rvContent := content;
             rvLines := Strings.Split content NL |} fs
    end.

(** ** Helpers of the scanner not on the scan path *)

(** [fmt.Sprintf] with the verb [%d]. *)
Definition itoa (n : Z) : gostring := lit (NilZero.string_of_int (Z.to_int n)).

(** [strings.Count(s, sep)] for a one-byte [sep]. *)
Definition Count (s : gostring) (sep : ascii) : Z :=
  len (filter (Ascii.eqb sep) s).

Definition countLines (content : gostring) (pos : Z) : outcome Z :=
  let pos := if (len content <=? pos)%Z then (len content - 1)%Z else pos in
  before <- orPanic (sliceTo content pos) ;;
  Ok (Count before NL + 1)%Z.

Definition maxInt (a b : Z) : Z := if (b <? a)%Z then a else b.

Definition minInt (a b : Z) : Z := if (a <? b)%Z then a else b.

(** One row [showCodeContext] prints: the line number, the text and
    whether the row is highlighted as part of the finding. *)
Record contextRow := {
  rowNumber : Z;
  rowText : gostring;
  rowHighlighted : bool
}.

(** The loop [for i := start; i < end; i++] of [showCodeContext] with
    [count] iterations left. *)
Fixpoint contextRows (lines : list gostring) (lineStart lineEnd : Z) (count : nat) (i : Z)
  : outcome (list contextRow) :=
  match count with
  | O => Ok []
  | S count' =>
      let lineNum := (i + 1)%Z in
      line <- orPanic (index lines i) ;;
      rest <- contextRows lines lineStart lineEnd count' (i + 1)%Z ;;
      Ok ({| rowNumber := lineNum; rowText := line;
             rowHighlighted := (lineStart <=? lineNum)%Z && (lineNum <=? lineEnd)%Z |}
          :: rest)
  end.

Definition showCodeContext (lines : list gostring) (lineStart lineEnd : Z)
  : outcome (list contextRow) :=
  let contextBefore := 2%Z in
  let contextAfter := 2%Z in
  let start := maxInt 0 (wrap64 (wrap64 (lineStart - 1) - contextBefore)) in
  let stop := minInt (len lines) (wrap64 (lineEnd + contextAfter)) in
  contextRows lines lineStart lineEnd (Z.to_nat (stop - start)) start.

(** [addLineNumbers]: every line behind its number, printed with
    [%4d], a bar and a blank. *)
Definition padLeft (width : nat) (s : gostring) : gostring :=
  Strings.Repeat [SPACE] (width - length s) ++ s.

Definition numberedLine (i : Z) (line : gostring) : gostring :=
  padLeft 4 (itoa (i + 1)) ++ lit " | " ++ line ++ [NL].

Fixpoint numberLinesFrom (i : Z) (lines : list gostring) : gostring :=
  match lines with
  | [] => []
  | line :: rest => numberedLine i line ++ numberLinesFrom (i + 1) rest
  end.

Definition addLineNumbersText (content : gostring) : gostring :=
  numberLinesFrom 0 (Strings.Split content NL).

(** *** Rendering findings as text *)

Definition severityOrder : list gostring :=
  map lit ["CRITICAL"; "HIGH"; "MEDIUM"; "LOW"]%string.

(** The four coloured circles, as their UTF-8 bytes; an unknown key
    of the map gives the empty string. *)
Definition severityEmoji (sev : gostring) : gostring :=
  if bytes_eqb sev (lit "CRITICAL") then map byte_of [240; 159; 148; 180]
  else if bytes_eqb sev (lit "HIGH") then map byte_of [240; 159; 159; 160]
  else if bytes_eqb sev (lit "MEDIUM") then map byte_of [240; 159; 159; 161]
  else if bytes_eqb sev (lit "LOW") then map byte_of [240; 159; 159; 162]
  else [].

(** [bySeverity[sev]]: the issues of that severity, in list order. *)
Definition bySeverity (issues : list SecurityIssue) (sev : gostring) : list SecurityIssue :=
  filter (fun issue => bytes_eqb (Severity issue) sev) issues.

Definition renderIssue (sev : gostring) (issue : SecurityIssue) : gostring :=
  let lineInfo :=
    if negb (LineEnd issue =? LineStart issue)%Z
    then lit "Lines: " ++ itoa (LineStart issue) ++ lit "-" ++ itoa (LineEnd issue)
    else lit "Line: " ++ itoa (LineStart issue) in
  severityEmoji sev ++ lit " " ++ sev ++ lit ": " ++ Title issue ++ [NL]
  ++ lit "   " ++ lineInfo
  ++ (if negb (bytes_eqb (Confidence issue) [])
      then lit " | Confidence: " ++ Confidence issue else [])
  ++ (if negb (bytes_eqb (IssueID issue) []) then lit " | " ++ IssueID issue else [])
  ++ [NL; NL]
  ++ lit "   Description:" ++ [NL] ++ lit "   " ++ Description issue ++ [NL; NL]
  ++ lit "   Recommendation:" ++ [NL] ++ lit "   " ++ Recommendation issue ++ [NL; NL]
  ++ lit "-----------------------------------" ++ [NL; NL].

Definition renderHeader : gostring :=
  lit "===================================" ++ [NL]
  ++ lit "Security Analysis Report" ++ [NL]
  ++ lit "===================================" ++ [NL; NL].

Definition renderSummaryLine (issues : list SecurityIssue) (sev : gostring) : gostring :=
  let items := bySeverity issues sev in
  if (0 <? len items)%Z
  then lit "  " ++ severityEmoji sev ++ lit " " ++ sev ++ lit ": " ++ itoa (len items) ++ [NL]
  else [].

Definition noIssuesText : gostring := lit "No security issues found.".

Definition renderFindingsText (issues : list SecurityIssue) : gostring :=
  if (len issues =? 0)%Z then noIssuesText
  else
    renderHeader
    ++ flat_map (fun sev => flat_map (renderIssue sev) (bySeverity issues sev)) severityOrder
    ++ lit "Summary:" ++ [NL]
    ++ flat_map (renderSummaryLine issues) severityOrder.

(** *** The custom prompt header ([custom.go]) *)

(** [strings.SplitN(s, sep, 2)] for a one-byte separator. *)
Fixpoint SplitN2 (s : gostring) (sep : ascii) : list gostring :=
  match s with
  | [] => [[]]
  | c :: s' =>
      if Ascii.eqb c sep then [[]; s']
      else match SplitN2 s' sep with
           | [] => [[c]]
           | f :: fs => (c :: f) :: fs
           end
  end.

Section CustomPrompt.
Variable unicodeUpper unicodeLower : gostring -> gostring.

Definition isKnownMode (mode : gostring) : bool :=
  bytes_eqb mode (lit "ask") || bytes_eqb mode (lit "edit") || bytes_eqb mode (lit "plan").

Definition parseCustomPrompt (raw : gostring) : outcome (gostring * gostring) :=
  let trimmed := Strings.TrimSpace raw in
  if bytes_eqb trimmed [] then Ok (lit "ask", [])
  else
    let lines := SplitN2 trimmed NL in
    first <- orPanic (index lines 0) ;;
    let head := Strings.TrimSpace first in
    if Strings.HasPrefix (ToUpper unicodeUpper head) (lit "MODE:") then
      rest <- orPanic (sliceFrom head (len (lit "MODE:"))) ;;
      let mode := ToLower unicodeLower (Strings.TrimSpace rest) in
      body <- (if (1 <? len lines)%Z
               then second <- orPanic (index lines 1) ;; Ok (Strings.TrimSpace second)
               else Ok []) ;;
      if isKnownMode mode then Ok (mode, body) else Ok (lit "ask", body)
    else Ok (lit "ask", trimmed).
End CustomPrompt.

(** *** Wrapping of descriptions *)

Definition flushField (cur : gostring) : list gostring :=
  match cur with
  | [] => []
  | _ => [cur]
  end.

(** [strings.Fields]: the maximal runs of bytes between white-space
    runes.  A white-space rune can only start at its first byte (the
    first bytes of the encodings are ASCII or lead bytes, never
    continuation bytes), so the scan goes byte by byte and skips a
    whole encoding where one starts.  [cur] is the field being read;
    [fuel] bounds the number of steps and [length s] always suffices. *)
Fixpoint fieldsFrom (fuel : nat) (cur s : gostring) : list gostring :=
  match fuel, s with
  | S fuel', c :: s' =>
      match Strings.dropRune Strings.spaceRunes s with
      | Some rest => flushField cur ++ fieldsFrom fuel' [] rest
      | None => fieldsFrom fuel' (cur ++ [c]) s'
      end
  | _, _ => flushField cur
  end.

Definition Fields (s : gostring) : list gostring := fieldsFrom (length s) [] s.

(** One iteration of the loop of [wrapText] over the builder and
    [lineLen]. *)
Definition wrapStep (width : Z) (st : gostring * Z) (word : gostring) : gostring * Z :=
  let '(result, lineLen) := st in
  let wordLen := len word in
  let '(result, lineLen) :=
    if (width <? wrap64 (wrap64 (lineLen + wordLen) + 1))%Z && (0 <? lineLen)%Z
    then (result ++ [NL], 0%Z)
    else (result, lineLen) in
  let '(result, lineLen) :=
    if (0 <? lineLen)%Z
    then (result ++ [SPACE], wrap64 (lineLen + 1))
    else (result, lineLen) in
  (result ++ word, wrap64 (lineLen + wordLen)).

Definition wrapWords (words : list gostring) (width : Z) : gostring :=
  fst (fold_left (wrapStep width) words ([], 0%Z)).

Definition wrapText (text : gostring) (width : Z) : gostring :=
  let words := Fields text in
  if (len words =? 0)%Z then text else wrapWords words width.

(** * Vocabulary of the statements *)

Definition revRunes : list gostring := map (@rev ascii) Strings.spaceRunes.

(** No white-space rune at either end. *)
Definition Trimmed (s : gostring) : Prop :=
  Strings.dropRune Strings.spaceRunes s = None /\
  Strings.dropRune revRunes (rev s) = None.

(** What the loop writes for one byte, and the flags it leaves. *)
Definition fixChunk (inString escaped : bool) (ch : ascii) : gostring :=
  if escaped then [ch]
  else if Ascii.eqb ch BSLASH then [ch]
  else if Ascii.eqb ch QUOTE then [ch]
  else if inString && Ascii.eqb ch NL then [BSLASH; LETTER_n]
  else if inString && Ascii.eqb ch TAB then [BSLASH; LETTER_t]
  else [ch].

Definition fixFlags (inString escaped : bool) (ch : ascii) : bool * bool :=
  if escaped then (inString, false)
  else if Ascii.eqb ch BSLASH then (inString, true)
  else if Ascii.eqb ch QUOTE then (negb inString, false)
  else (inString, false).

Fixpoint fixFlagsAfter (inString escaped : bool) (s : gostring) : bool * bool :=
  match s with
  | [] => (inString, escaped)
  | ch :: rest =>
      let '(i, e) := fixFlags inString escaped ch in fixFlagsAfter i e rest
  end.

(** The shape shared by all white-space encodings: the first byte is
    not a backslash, the last is neither of the letters the repair
    writes, and all other bytes are outside ASCII. *)
Definition runeShape (r : gostring) : bool :=
  match r with
  | [] => false
  | w :: r' => negb (Ascii.eqb w BSLASH) && forallb isHigh r'
  end
  && match rev r with
     | [] => false
     | w :: r' =>
         negb (Ascii.eqb w LETTER_n) && negb (Ascii.eqb w LETTER_t) && forallb isHigh r'
     end.

Definition sampleIssue (lineStart lineEnd : Z) (fixText : gostring) : SecurityIssue :=
  {| Severity := lit "HIGH"; Title := lit "t"; Description := lit "d";
     LineStart := lineStart; LineEnd := lineEnd; Recommendation := lit "r";
     Confidence := []; IssueID := []; SuggestedFix := fixText; FixAvailable := true |}.


(** The file store a pass of the loop leaves when it goes on or
    returns without an error. *)
Definition resultStore (step : reviewStep) : option FileStore :=
  match step with
  | Continue _ fs => Some fs
  | Return None fs => Some fs
  | _ => None
  end.

Definition numberedLines : list gostring :=
  map lit ["L01"; "L02"; "L03"; "L04"; "L05"; "L06"; "L07"; "L08"; "L09"; "L10";
           "L11"; "L12"; "L13"; "L14"; "L15"; "L16"; "L17"; "L18"; "L19"; "L20"]%string.

Definition twentyLines : gostring := Strings.Join numberedLines [NL].

Definition threeLineFix : gostring := lit "F1" ++ [NL] ++ lit "F2" ++ [NL] ++ lit "F3".

Definition twentyLineStore : FileStore :=
  {| fsFile := Some twentyLines; fsBackup := None; fsWritable := true |}.

Definition reviewStart : reviewState :=
  {| rvFindings := [sampleIssue 10 10 threeLineFix]; currentIdx := 0; appliedFixes := [];
     backupCreated := false; rvContent := twentyLines;
     rvLines := Strings.Split twentyLines NL |}.

Definition execLine : gostring :=
  lit "exec.Command(" ++ [QUOTE] ++ lit "sh" ++ [QUOTE] ++ lit "," ++ [QUOTE] ++ lit "-c"
  ++ [QUOTE] ++ lit ",userInput)".

Definition tenLineFile : gostring :=
  Strings.Join
    [lit "package main"; lit "import os"; []; lit "func run(userInput string) {";
     execLine; lit "}"; []; lit "func main() {"; lit "  run(os.Args[1])"; lit "}"]
    [NL].

Definition demoPrompts : Prompts :=
  {| addLineNumbers := fun content => content;
     getContextPrompt := fun filename content => lit "context:" ++ filename;
     getScanPrompt := fun filename content context => lit "scan:" ++ filename;
     createCustomPrompt := fun filename content => lit "custom:" ++ filename;
     getTriadAttackerPrompt := fun sharedContext summary round => lit "attacker";
     getTriadDefenderPrompt := fun sharedContext summary attackerResp round => lit "defender";
     getTriadAuditorPrompt :=
       fun sharedContext summary attackerResp defenderResp round => lit "auditor";
     buildTriadSharedContext := fun codeByFile findings => lit "CODE:";
     renderFindings := fun issues => lit "report" |}.

(** A codec that reads the verdict text as the confidence and keeps
    the other fields of the destination. *)
Definition demoCodec : JSONCodec :=
  {| decodeFindings :=
       fun data => if bytes_eqb data (lit "{}") then Some []
                   else Some [sampleIssue 1 1 data];
     decodeReport :=
       fun dst data =>
         Some {| FinalSeverity := FinalSeverity dst; trConfidence := data;
                 Vulnerabilities := Vulnerabilities dst; Summary := Summary dst |};
     marshalReport := fun report => trConfidence report |}.

(** Two files, one of them empty; the auditor is sure in round 2. *)
Definition demoWorld : World :=
  {| readFile :=
       fun path =>
         if bytes_eqb path (lit "empty.go") then Some []
         else if bytes_eqb path (lit "main.go") then Some (lit "package main")
         else None;
     Generate :=
       fun call prompt =>
         match call with
         | CallAuditor round => if (round =? 2)%Z then Some (lit "High") else Some (lit "LOW")
         | CallScan _ => Some (lit "{}")
         | _ => Some (lit "ok")
         end |}.

Definition noTable (s : gostring) : gostring := s.

Definition customAnswer : ScanResult :=
  {| FilePath := lit "main.go"; RawFindings := lit "ok"; HasIssues := true; Issues := [] |}.

(** A raw newline or tab at a place where the repair loop is inside a
    string and not behind a backslash. *)
Fixpoint rawControlInString (inString escaped : bool) (s : gostring) : bool :=
  match s with
  | [] => false
  | ch :: rest =>
      if escaped then rawControlInString inString false rest
      else if Ascii.eqb ch BSLASH then rawControlInString inString true rest
      else if Ascii.eqb ch QUOTE then rawControlInString (negb inString) false rest
      else if inString && (Ascii.eqb ch NL || Ascii.eqb ch TAB) then true
      else rawControlInString inString false rest
  end.

(** The six ASCII white-space bytes. *)
Definition isAsciiSpace (c : ascii) : bool :=
  existsb (Ascii.eqb c) (map byte_of [9; 10; 11; 12; 13; 32]).

(** Every byte of a rune after the first lies outside ASCII. *)
Definition tailHigh (r : gostring) : bool :=
  match r with
  | [] => false
  | _ :: r' => forallb isHigh r'
  end.

(** The substrings without which no test of the pre-scanner fires. *)
Definition staticMarkers : list gostring :=
  map lit ["exec.Command"; "tls.Config"; "+"; "fmt.Sprintf"; "http.ListenAndServe"]%string.

Definition staticPatterns : list gostring :=
  map lit ["exec.Command"; "tls.Config{InsecureSkipVerify: true}";
           "SQL string concatenation"; "http.ListenAndServe";
           "fmt.Sprintf with user input"]%string.

(** What the apply key does once the backup is in place: the rest of
    [case "a"] from the call of [extractCodeFromResponse] on. *)
Definition fixStep (st : reviewState) (issue : SecurityIssue) (fs1 : FileStore) : reviewStep :=
  match applyFix fs1 (prepareIssue issue (rvLines st)) with
  | Err _ =>
      Continue {| rvFindings := rvFindings st; currentIdx := currentIdx st;
                  appliedFixes := appliedFixes st; backupCreated := true;
                  rvContent := rvContent st; rvLines := rvLines st |} fs1
  | Panic => Crash
  | Ok fs2 =>
      match fsFile fs2 with
      | None => Return (Some ErrReadFile) fs2
      | Some content =>
          let st2 :=
            {| rvFindings := rvFindings st; currentIdx := currentIdx st;
               appliedFixes := currentIdx st :: appliedFixes st;
               backupCreated := true;
               rvContent := content; rvLines := Strings.Split content NL |} in
          if isLast st2 then Return None fs2
          else Continue (withIdx st2 (S (currentIdx st))) fs2
      end
  end.

(** The severities [renderFindings] prints. *)
Definition isKnownSeverity (issue : SecurityIssue) : bool :=
  existsb (bytes_eqb (Severity issue)) severityOrder.

(** No white-space rune starts anywhere in [w] when [ctx] follows it. *)
Fixpoint spaceFreeBefore (w ctx : gostring) : Prop :=
  match w with
  | [] => True
  | _ :: w' => Strings.dropRune Strings.spaceRunes (w ++ ctx) = None /\ spaceFreeBefore w' ctx
  end.

(** Bytes a list of words needs when each is followed by one separator. *)
Definition wordsWeight (words : list gostring) : Z :=
  fold_right (fun w acc => (len w + 1 + acc)%Z) 0%Z words.

(** What the loop of [wrapText] writes for [first] on a line that
    already holds [n] bytes. *)
Definition continueLine (n : Z) (first : list gostring) : gostring :=
  match first with
  | [] => []
  | _ => if (0 <? n)%Z then SPACE :: Strings.Join first [SPACE] else Strings.Join first [SPACE]
  end.

(** The first word of [next] does not fit behind [line]. *)
Definition breakNeeded (width : Z) (line next : list gostring) : Prop :=
  match next with
  | [] => True
  | w :: _ => (width < len (Strings.Join line [SPACE]) + len w + 1)%Z
  end.

(** Words written one after another, each behind its separator. *)
Definition spaced (seps words : list gostring) : gostring :=
  concat (map (fun p => fst p ++ snd p) (combine seps words)).

(** * Properties *)

(** ** Facts about the string primitives *)

Lemma bytes_eqb_eq (a b : gostring) : bytes_eqb a b = true <-> a = b.
Proof.
  revert b; induction a as [|x a IH]; intros [|y b]; simpl; split;
    try congruence; try reflexivity.
  - rewrite andb_true_iff, Ascii.eqb_eq, IH. intros [-> ->]; reflexivity.
  - intros [= -> ->]. rewrite Ascii.eqb_refl. simpl. apply IH; reflexivity.
Qed.

Lemma dropPrefix_Some (p s r : gostring) :
  Strings.dropPrefix p s = Some r <-> s = p ++ r.
Proof.
  revert s; induction p as [|x p IH]; intros s; simpl.
  - split; [intros [= ->]; reflexivity | intros ->; reflexivity].
  - destruct s as [|y s]; [split; discriminate|].
    destruct (Ascii.eqb_spec x y) as [->|Hne].
    + rewrite IH. split; [intros ->; reflexivity | intros [= ->]; reflexivity].
    + split; [discriminate | intros [= -> _]; contradiction].
Qed.

Lemma dropPrefix_app (p r : gostring) : Strings.dropPrefix p (p ++ r) = Some r.
Proof. apply dropPrefix_Some; reflexivity. Qed.

Lemma dropRune_Some (runes : list gostring) (s rest : gostring) :
  Strings.dropRune runes s = Some rest ->
  exists r, In r runes /\ s = r ++ rest.
Proof.
  induction runes as [|r runes IH]; simpl; [discriminate|].
  destruct (Strings.dropPrefix r s) as [rest'|] eqn:E.
  - intros [= ->]. exists r. split; [now left | now apply dropPrefix_Some].
  - intros H. destruct (IH H) as (r' & Hin & Hs). exists r'; split; [now right | exact Hs].
Qed.

Lemma dropRune_None (runes : list gostring) (s : gostring) :
  Strings.dropRune runes s = None <->
  forall r rest, In r runes -> s <> r ++ rest.
Proof.
  induction runes as [|r runes IH]; simpl.
  - split; [intros _ r rest [] | reflexivity].
  - destruct (Strings.dropPrefix r s) as [rest'|] eqn:E.
    + split; [discriminate|]. intros H. exfalso.
      apply (H r rest'); [now left | now apply dropPrefix_Some].
    + rewrite IH. split.
      * intros H r' rest [<-|Hin]; [|now apply H].
        intros Hs. apply dropPrefix_Some in Hs. congruence.
      * intros H r' rest Hin. apply H. now right.
Qed.

Lemma trimRunes_fixed (runes : list gostring) (fuel : nat) (s : gostring) :
  Strings.dropRune runes s = None -> Strings.trimRunes runes fuel s = s.
Proof. destruct fuel; simpl; [reflexivity|]. intros ->. reflexivity. Qed.

Lemma trimRunes_tail (runes : list gostring) (fuel : nat) (s : gostring) :
  exists pre, s = pre ++ Strings.trimRunes runes fuel s.
Proof.
  revert s; induction fuel as [|fuel IH]; intros s; simpl.
  - exists []; reflexivity.
  - destruct (Strings.dropRune runes s) as [rest|] eqn:E.
    + destruct (dropRune_Some _ _ _ E) as (r & _ & ->).
      destruct (IH rest) as [pre Hpre]. exists (r ++ pre).
      rewrite <- app_assoc. now rewrite <- Hpre.
    + exists []; reflexivity.
Qed.

Lemma trimRunes_done (runes : list gostring) (fuel : nat) (s : gostring) :
  Forall (fun r => r <> []) runes ->
  length s <= fuel ->
  Strings.dropRune runes (Strings.trimRunes runes fuel s) = None.
Proof.
  intros Hne. revert s; induction fuel as [|fuel IH]; intros s Hlen; simpl.
  - destruct s; [|simpl in Hlen; lia].
    apply dropRune_None. intros r rest Hin Hs.
    symmetry in Hs. apply app_eq_nil in Hs. destruct Hs as [-> _].
    rewrite Forall_forall in Hne. now apply (Hne [] Hin).
  - destruct (Strings.dropRune runes s) as [rest|] eqn:E; [|exact E].
    apply IH. destruct (dropRune_Some _ _ _ E) as (r & Hin & ->).
    rewrite Forall_forall in Hne. specialize (Hne r Hin).
    rewrite length_app in Hlen. destruct r; [congruence|]. simpl in Hlen. lia.
Qed.

Lemma spaceRunes_nonempty : Forall (fun r : gostring => r <> []) Strings.spaceRunes.
Proof. unfold Strings.spaceRunes. repeat constructor; discriminate. Qed.

Lemma revRunes_nonempty : Forall (fun r : gostring => r <> []) revRunes.
Proof. unfold revRunes, Strings.spaceRunes. repeat constructor; discriminate. Qed.

Lemma TrimSpace_Trimmed (s : gostring) : Trimmed (Strings.TrimSpace s).
Proof.
  unfold Strings.TrimSpace, Strings.TrimRightSpace, Strings.TrimLeftSpace.
  set (t := Strings.trimRunes Strings.spaceRunes (length s) s).
  assert (Ht : Strings.dropRune Strings.spaceRunes t = None)
    by (apply trimRunes_done; [apply spaceRunes_nonempty | lia]).
  fold revRunes. split.
  - destruct (trimRunes_tail revRunes (length t) (rev t)) as [pre Hpre].
    set (u := Strings.trimRunes revRunes (length t) (rev t)) in *.
    apply dropRune_None. intros r rest Hin Hu.
    rewrite dropRune_None in Ht. apply (Ht r (rest ++ rev pre) Hin).
    rewrite <- (rev_involutive t), Hpre, rev_app_distr, Hu.
    now rewrite app_assoc.
  - rewrite rev_involutive. apply trimRunes_done; [apply revRunes_nonempty|].
    rewrite length_rev. lia.
Qed.

Lemma Trimmed_TrimSpace (s : gostring) : Trimmed s -> Strings.TrimSpace s = s.
Proof.
  intros [Hl Hr].
  unfold Strings.TrimSpace, Strings.TrimRightSpace, Strings.TrimLeftSpace.
  rewrite (trimRunes_fixed _ _ _ Hl). fold revRunes.
  rewrite (trimRunes_fixed _ _ _ Hr). apply rev_involutive.
Qed.

(** ** Escape repair *)

Lemma fixJSONLoop_cons (i e : bool) (ch : ascii) (s : gostring) :
  fixJSONLoop i e (ch :: s) =
  fixChunk i e ch ++ fixJSONLoop (fst (fixFlags i e ch)) (snd (fixFlags i e ch)) s.
Proof.
  unfold fixChunk, fixFlags; simpl.
  destruct e; [reflexivity|].
  destruct (Ascii.eqb ch BSLASH); [reflexivity|].
  destruct (Ascii.eqb ch QUOTE); [reflexivity|].
  destruct (i && Ascii.eqb ch NL); [reflexivity|].
  destruct (i && Ascii.eqb ch TAB); reflexivity.
Qed.

Lemma fixJSONLoop_app (i e : bool) (s1 s2 : gostring) :
  fixJSONLoop i e (s1 ++ s2) =
  fixJSONLoop i e s1
  ++ fixJSONLoop (fst (fixFlagsAfter i e s1)) (snd (fixFlagsAfter i e s1)) s2.
Proof.
  revert i e; induction s1 as [|ch s1 IH]; intros i e; [reflexivity|].
  rewrite <- app_comm_cons, !fixJSONLoop_cons, IH, <- app_assoc.
  simpl fixFlagsAfter. destruct (fixFlags i e ch) as [i' e']. reflexivity.
Qed.

Lemma fixChunk_cases (i e : bool) (ch : ascii) :
  fixChunk i e ch = [ch] \/
  fixChunk i e ch = [BSLASH; LETTER_n] \/
  fixChunk i e ch = [BSLASH; LETTER_t].
Proof.
  unfold fixChunk.
  destruct e; [now left|].
  destruct (Ascii.eqb ch BSLASH); [now left|].
  destruct (Ascii.eqb ch QUOTE); [now left|].
  destruct (i && Ascii.eqb ch NL); [now right; left|].
  destruct (i && Ascii.eqb ch TAB); [now right; right| now left].
Qed.

Lemma fixJSONLoop_idem (i e : bool) (s : gostring) :
  fixJSONLoop i e (fixJSONLoop i e s) = fixJSONLoop i e s.
Proof.
  revert i e; induction s as [|ch s IH]; intros i e; [reflexivity|].
  cbn [fixJSONLoop].
  destruct e.
  { cbn [fixJSONLoop]. now rewrite IH. }
  destruct (Ascii.eqb ch BSLASH) eqn:Eb.
  { cbn [fixJSONLoop]. rewrite Eb. now rewrite IH. }
  destruct (Ascii.eqb ch QUOTE) eqn:Eq.
  { cbn [fixJSONLoop]. rewrite Eb, Eq. now rewrite IH. }
  destruct (i && Ascii.eqb ch NL) eqn:En.
  { cbn [fixJSONLoop]. change (Ascii.eqb BSLASH BSLASH) with true. cbv iota.
    now rewrite IH. }
  destruct (i && Ascii.eqb ch TAB) eqn:Et.
  { cbn [fixJSONLoop]. change (Ascii.eqb BSLASH BSLASH) with true. cbv iota.
    now rewrite IH. }
  cbn [fixJSONLoop]. rewrite Eb, Eq, En, Et. now rewrite IH.
Qed.

Lemma fixJSONStringEscaping_idem (s : gostring) :
  fixJSONStringEscaping (fixJSONStringEscaping s) = fixJSONStringEscaping s.
Proof. apply fixJSONLoop_idem. Qed.

Lemma fixJSONLoop_clean (i e : bool) (s : gostring) :
  ~ In NL s -> ~ In TAB s -> fixJSONLoop i e s = s.
Proof.
  revert i e; induction s as [|ch s IH]; intros i e Hn Ht; [reflexivity|].
  assert (Hn' : ~ In NL s) by (intros H; apply Hn; now right).
  assert (Ht' : ~ In TAB s) by (intros H; apply Ht; now right).
  assert (En : Ascii.eqb ch NL = false)
    by (apply Ascii.eqb_neq; intros ->; apply Hn; now left).
  assert (Et : Ascii.eqb ch TAB = false)
    by (apply Ascii.eqb_neq; intros ->; apply Ht; now left).
  cbn [fixJSONLoop]. rewrite En, Et, !andb_false_r.
  destruct e; [now rewrite IH|].
  destruct (Ascii.eqb ch BSLASH); [now rewrite IH|].
  destruct (Ascii.eqb ch QUOTE); now rewrite IH.
Qed.

(** C9: the escape-repair pass returns unchanged every string that
    holds no newline byte (0x0A) and no tab byte (0x09), whatever its
    quotes and backslashes and whether or not it is valid JSON. *)
Theorem fixJSONStringEscaping_identity_on_clean (s : gostring) :
  ~ In NL s -> ~ In TAB s -> fixJSONStringEscaping s = s.
Proof. apply fixJSONLoop_clean. Qed.

Lemma fixJSONStringEscaping_identity_on_clean_witness :
  let s := QUOTE :: lit "a\b c" ++ [QUOTE; BSLASH] in
  fixJSONStringEscaping s = s.
Proof.
  apply fixJSONStringEscaping_identity_on_clean;
    vm_compute; intuition discriminate.
Defined.

Lemma spaceRunes_shape : forallb runeShape Strings.spaceRunes = true.
Proof. vm_compute. reflexivity. Qed.

Lemma isHigh_not_special (c : ascii) :
  isHigh c = true -> forall i e, fixChunk i e c = [c].
Proof.
  intros Hc i e. unfold fixChunk.
  destruct e; [reflexivity|].
  destruct (Ascii.eqb_spec c BSLASH) as [->|_]; [reflexivity|].
  destruct (Ascii.eqb_spec c QUOTE) as [->|_]; [reflexivity|].
  destruct (Ascii.eqb_spec c NL) as [->|_]; [discriminate Hc|].
  destruct (Ascii.eqb_spec c TAB) as [->|_]; [discriminate Hc|].
  now rewrite !andb_false_r.
Qed.

Lemma isHigh_chunk_head (h c : ascii) (i e : bool) (x y : gostring) :
  isHigh h = true -> fixChunk i e c ++ x = h :: y ->
  c = h /\ x = y.
Proof.
  intros Hh Heq.
  destruct (fixChunk_cases i e c) as [E|[E|E]]; rewrite E in Heq; simpl in Heq;
    injection Heq as Hc Hx; subst.
  - split; reflexivity.
  - discriminate Hh.
  - discriminate Hh.
Qed.

Lemma high_prefix_reflected (r : gostring) :
  forallb isHigh r = true ->
  forall i e s rest, fixJSONLoop i e s = r ++ rest -> exists rest', s = r ++ rest'.
Proof.
  induction r as [|h r IH]; intros Hr i e s rest Heq.
  - exists s; reflexivity.
  - simpl in Hr. apply andb_true_iff in Hr as [Hh Hr].
    destruct s as [|c s]; [discriminate Heq|].
    rewrite fixJSONLoop_cons in Heq. simpl in Heq.
    destruct (isHigh_chunk_head _ _ _ _ _ _ Hh Heq) as [-> Heq'].
    destruct (IH Hr _ _ _ _ Heq') as [rest' ->]. exists rest'; reflexivity.
Qed.

Lemma rune_prefix_reflected (r : gostring) :
  runeShape r = true ->
  forall s rest, fixJSONStringEscaping s = r ++ rest -> exists rest', s = r ++ rest'.
Proof.
  unfold runeShape. intros Hr s rest Heq.
  apply andb_true_iff in Hr as [Hr _].
  destruct r as [|w r]; [discriminate Hr|].
  apply andb_true_iff in Hr as [Hw Hr].
  destruct s as [|c s]; [discriminate Heq|].
  unfold fixJSONStringEscaping in Heq. rewrite fixJSONLoop_cons in Heq.
  assert (Hc : fixChunk false false c = [c] /\ c = w).
  { destruct (fixChunk_cases false false c) as [E|[E|E]]; rewrite E in Heq;
      simpl in Heq; injection Heq as Hc _; subst.
    - split; [exact E | reflexivity].
    - rewrite Ascii.eqb_refl in Hw. discriminate Hw.
    - rewrite Ascii.eqb_refl in Hw. discriminate Hw. }
  destruct Hc as [E ->]. rewrite E in Heq. simpl in Heq. injection Heq as Heq.
  destruct (high_prefix_reflected r Hr _ _ _ _ Heq) as [rest' ->].
  exists rest'; reflexivity.
Qed.

Lemma snoc_cases (s : gostring) : s = [] \/ exists s' c, s = s' ++ [c].
Proof.
  destruct (rev s) as [|c t] eqn:E.
  - left. now rewrite <- (rev_involutive s), E.
  - right. exists (rev t), c. now rewrite <- (rev_involutive s), E.
Qed.

Lemma fixJSONLoop_snoc (i e : bool) (s : gostring) (c : ascii) :
  exists i' e', fixJSONLoop i e (s ++ [c]) = fixJSONLoop i e s ++ fixChunk i' e' c.
Proof.
  exists (fst (fixFlagsAfter i e s)), (snd (fixFlagsAfter i e s)).
  rewrite fixJSONLoop_app, fixJSONLoop_cons. simpl. now rewrite app_nil_r.
Qed.

Lemma high_suffix_reflected (r : gostring) :
  forallb isHigh r = true ->
  forall i e s pre, fixJSONLoop i e s = pre ++ rev r -> exists pre', s = pre' ++ rev r.
Proof.
  induction r as [|h r IH]; intros Hr i e s pre Heq.
  - exists s. simpl. now rewrite app_nil_r.
  - simpl in Hr. apply andb_true_iff in Hr as [Hh Hr]. simpl in Heq |- *.
    destruct (snoc_cases s) as [->|(s' & c & ->)].
    { simpl in Heq. symmetry in Heq. apply app_eq_nil in Heq as [_ Heq].
      apply app_eq_nil in Heq as [_ Heq]. discriminate Heq. }
    destruct (fixJSONLoop_snoc i e s' c) as (i' & e' & Hs). rewrite Hs in Heq.
    rewrite app_assoc in Heq.
    destruct (fixChunk_cases i' e' c) as [E|[E|E]]; rewrite E in Heq.
    + apply app_inj_tail in Heq as [Heq ->].
      destruct (IH Hr _ _ _ _ Heq) as [pre' ->]. exists pre'. now rewrite app_assoc.
    + change [BSLASH; LETTER_n] with ([BSLASH] ++ [LETTER_n]) in Heq.
      rewrite app_assoc in Heq. apply app_inj_tail in Heq as [_ <-]. discriminate Hh.
    + change [BSLASH; LETTER_t] with ([BSLASH] ++ [LETTER_t]) in Heq.
      rewrite app_assoc in Heq. apply app_inj_tail in Heq as [_ <-]. discriminate Hh.
Qed.

Lemma rune_suffix_reflected (r : gostring) :
  runeShape r = true ->
  forall s pre, fixJSONStringEscaping s = pre ++ r -> exists pre', s = pre' ++ r.
Proof.
  unfold runeShape. intros Hr s pre Heq.
  apply andb_true_iff in Hr as [_ Hr].
  rewrite <- (rev_involutive r) in Heq |- *.
  destruct (rev r) as [|w q]; [discriminate Hr|].
  apply andb_true_iff in Hr as [Hw Hq]. apply andb_true_iff in Hw as [Hn Ht].
  simpl in Heq |- *.
  destruct (snoc_cases s) as [->|(s' & c & ->)].
  { simpl in Heq. symmetry in Heq. apply app_eq_nil in Heq as [_ Heq].
    apply app_eq_nil in Heq as [_ Heq]. discriminate Heq. }
  unfold fixJSONStringEscaping in Heq.
  destruct (fixJSONLoop_snoc false false s' c) as (i' & e' & Hs). rewrite Hs in Heq.
  rewrite app_assoc in Heq.
  destruct (fixChunk_cases i' e' c) as [E|[E|E]]; rewrite E in Heq.
  - apply app_inj_tail in Heq as [Heq ->].
    destruct (high_suffix_reflected q Hq _ _ _ _ Heq) as [pre' ->].
    exists pre'. now rewrite app_assoc.
  - change [BSLASH; LETTER_n] with ([BSLASH] ++ [LETTER_n]) in Heq.
    rewrite app_assoc in Heq. apply app_inj_tail in Heq as [_ <-].
    rewrite Ascii.eqb_refl in Hn. discriminate Hn.
  - change [BSLASH; LETTER_t] with ([BSLASH] ++ [LETTER_t]) in Heq.
    rewrite app_assoc in Heq. apply app_inj_tail in Heq as [_ <-].
    rewrite Ascii.eqb_refl in Ht. discriminate Ht.
Qed.

Lemma fixJSONStringEscaping_Trimmed (s : gostring) :
  Trimmed s -> Trimmed (fixJSONStringEscaping s).
Proof.
  intros [Hl Hr]. pose proof spaceRunes_shape as Hshape.
  rewrite forallb_forall in Hshape. split.
  - apply dropRune_None. intros r rest Hin Heq.
    destruct (rune_prefix_reflected r (Hshape r Hin) s rest Heq) as [rest' Hs].
    rewrite dropRune_None in Hl. exact (Hl r rest' Hin Hs).
  - apply dropRune_None. intros r' rest Hin Heq.
    unfold revRunes in Hin. apply in_map_iff in Hin as (r & <- & Hin).
    assert (Heq' : fixJSONStringEscaping s = rev rest ++ r).
    { rewrite <- (rev_involutive (fixJSONStringEscaping s)), Heq, rev_app_distr.
      now rewrite rev_involutive. }
    destruct (rune_suffix_reflected r (Hshape r Hin) s _ Heq') as [pre' Hs].
    rewrite dropRune_None in Hr. apply (Hr (rev r) (rev pre')).
    + unfold revRunes. now apply in_map.
    + now rewrite Hs, rev_app_distr.
Qed.

Lemma stripMarkdownCodeFences_Trimmed (s : gostring) :
  Trimmed (stripMarkdownCodeFences s).
Proof. unfold stripMarkdownCodeFences. apply TrimSpace_Trimmed. Qed.

Lemma stripMarkdownCodeFences_no_fence (s : gostring) :
  Trimmed s ->
  Strings.HasPrefix s fence = false ->
  Strings.HasSuffix s fence = false ->
  stripMarkdownCodeFences s = s.
Proof.
  intros Ht Hp Hs. unfold stripMarkdownCodeFences.
  rewrite (Trimmed_TrimSpace s Ht).
  assert (Hj : Strings.HasPrefix s fenceJSON = false).
  { unfold Strings.HasPrefix in *.
    destruct (Strings.dropPrefix fenceJSON s) as [r|] eqn:E; [|reflexivity].
    apply dropPrefix_Some in E. subst s.
    change fenceJSON with (fence ++ lit "json") in Hp.
    rewrite <- app_assoc, dropPrefix_app in Hp. discriminate Hp. }
  rewrite Hj, Hp.
  unfold Strings.TrimSuffix. unfold Strings.HasSuffix, Strings.HasPrefix in Hs.
  destruct (Strings.dropPrefix (rev fence) (rev s)); [discriminate Hs|].
  now apply Trimmed_TrimSpace.
Qed.

(** ** Response normaliser *)

Lemma normalizeResponse_Trimmed (s : gostring) : Trimmed (normalizeResponse s).
Proof.
  unfold normalizeResponse.
  apply fixJSONStringEscaping_Trimmed, stripMarkdownCodeFences_Trimmed.
Qed.

(** C5, as stated, fails: a response fenced twice loses one fence per
    pass, so the second pass still changes the text. *)
Lemma normalizeResponse_not_idempotent :
  let s := lit "``` ```json {} ``` ```" in
  normalizeResponse s = lit "```json {} ```" /\
  normalizeResponse (normalizeResponse s) = lit "{}" /\
  normalizeResponse (normalizeResponse s) <> normalizeResponse s.
Proof. vm_compute. repeat split. discriminate. Qed.

(** C5, amended: fence-stripping followed by escape-repair is
    idempotent on every input whose normalised form no longer starts
    or ends with a fence marker; on such inputs a second pass returns
    the result of the first. *)
Theorem normalizeResponse_idempotent_unfenced (s : gostring) :
  Strings.HasPrefix (normalizeResponse s) fence = false ->
  Strings.HasSuffix (normalizeResponse s) fence = false ->
  normalizeResponse (normalizeResponse s) = normalizeResponse s.
Proof.
  intros Hp Hs.
  unfold normalizeResponse at 1.
  rewrite (stripMarkdownCodeFences_no_fence _ (normalizeResponse_Trimmed s) Hp Hs).
  unfold normalizeResponse. apply fixJSONStringEscaping_idem.
Qed.

Lemma normalizeResponse_idempotent_unfenced_witness :
  let s := lit "  ```json" ++ [NL; QUOTE; NL; TAB; QUOTE; NL] ++ lit "```  " in
  Strings.HasPrefix (normalizeResponse s) fence = false /\
  Strings.HasSuffix (normalizeResponse s) fence = false /\
  normalizeResponse (normalizeResponse s) = normalizeResponse s.
Proof.
  intros s.
  assert (Hp : Strings.HasPrefix (normalizeResponse s) fence = false)
    by (vm_compute; reflexivity).
  assert (Hs : Strings.HasSuffix (normalizeResponse s) fence = false)
    by (vm_compute; reflexivity).
  split; [exact Hp | split; [exact Hs |]].
  exact (normalizeResponse_idempotent_unfenced s Hp Hs).
Defined.

(** ** Line clamping and extraction *)

Lemma len_nonneg {A} (l : list A) : (0 <= len l)%Z.
Proof. unfold len. lia. Qed.

Lemma clampLines_bounds (lineStart lineEnd n : Z) :
  (1 <= n)%Z ->
  let '(s, e) := clampLines lineStart lineEnd n in
  (1 <= s /\ s <= e /\ e <= n)%Z.
Proof.
  intros Hn. unfold clampLines.
  repeat match goal with
         | |- context [(?a <? ?b)%Z] => destruct (Z.ltb_spec a b)
         end; lia.
Qed.

Lemma Split_nonempty (s : gostring) (sep : ascii) : Strings.Split s sep <> [].
Proof.
  induction s as [|c s IH]; simpl; [discriminate|].
  destruct (Ascii.eqb c sep); [discriminate|].
  destruct (Strings.Split s sep); [contradiction | discriminate].
Qed.

Lemma len_Split_pos (s : gostring) (sep : ascii) : (1 <= len (Strings.Split s sep))%Z.
Proof.
  pose proof (Split_nonempty s sep). unfold len.
  destruct (Strings.Split s sep); [contradiction | simpl; lia].
Qed.

Lemma slice_Some {A} (l : list A) (lo hi : Z) :
  (0 <= lo <= hi)%Z -> (hi <= len l)%Z ->
  slice l lo hi = Some (firstn (Z.to_nat hi - Z.to_nat lo) (skipn (Z.to_nat lo) l)).
Proof.
  intros [H1 H2] H3. unfold slice.
  destruct (Z.leb_spec 0 lo); [|lia].
  destruct (Z.leb_spec lo hi); [|lia].
  destruct (Z.leb_spec hi (len l)); [|lia]. reflexivity.
Qed.

Lemma sliceTo_Some {A} (l : list A) (hi : Z) :
  (0 <= hi <= len l)%Z -> sliceTo l hi = Some (firstn (Z.to_nat hi) l).
Proof.
  intros H. unfold sliceTo. rewrite slice_Some by lia.
  simpl. now rewrite Nat.sub_0_r.
Qed.

Lemma sliceFrom_Some {A} (l : list A) (lo : Z) :
  (0 <= lo <= len l)%Z -> sliceFrom l lo = Some (skipn (Z.to_nat lo) l).
Proof.
  intros H. unfold sliceFrom. rewrite slice_Some by lia.
  f_equal. apply firstn_all2. rewrite length_skipn. unfold len. lia.
Qed.

Lemma index_Some {A} (l : list A) (i : Z) :
  (0 <= i < len l)%Z -> exists x, index l i = Some x.
Proof.
  intros H. unfold index.
  destruct (Z.leb_spec 0 i); [|lia]. destruct (Z.ltb_spec i (len l)); [|lia]. simpl.
  destruct (nth_error l (Z.to_nat i)) eqn:E; [eauto|].
  apply nth_error_None in E. unfold len in H. lia.
Qed.

(** C10: [extractLines] returns for every list of lines and every pair
    of line numbers without an out-of-range slice access: the empty
    string when [lineStart] is below 1 or beyond the last line, and
    otherwise the join of lines [lineStart .. e] of the list, where
    [e] is [lineEnd] when it lies in [lineStart .. length] and the
    last line otherwise. *)
Theorem extractLines_total (lines : list gostring) (lineStart lineEnd : Z) :
  extractLines lines lineStart lineEnd <> Panic /\
  ((lineStart < 1 \/ len lines < lineStart)%Z ->
   extractLines lines lineStart lineEnd = Ok []) /\
  ((1 <= lineStart <= len lines)%Z ->
   exists e, (lineStart <= e <= len lines)%Z /\
     (e = lineEnd \/ (e = len lines /\ (lineEnd < lineStart \/ len lines < lineEnd)))%Z /\
     extractLines lines lineStart lineEnd =
       Ok (Strings.Join
             (firstn (Z.to_nat e - Z.to_nat (lineStart - 1))
                     (skipn (Z.to_nat (lineStart - 1)) lines)) [NL])).
Proof.
  unfold extractLines.
  destruct (Z.ltb_spec lineStart 1) as [H1|H1]; simpl.
  { repeat split; [discriminate | lia]. }
  destruct (Z.ltb_spec (len lines) lineStart) as [H2|H2]; simpl.
  { repeat split; [discriminate | lia]. }
  destruct (Z.ltb_spec lineEnd lineStart) as [H3|H3]; simpl.
  { rewrite slice_Some by lia. simpl. split; [discriminate|]. split; [lia|].
    intros _. exists (len lines). repeat split; try lia. }
  destruct (Z.ltb_spec (len lines) lineEnd) as [H4|H4]; simpl.
  { rewrite slice_Some by lia. simpl. split; [discriminate|]. split; [lia|].
    intros _. exists (len lines). repeat split; try lia. }
  rewrite slice_Some by lia. simpl. split; [discriminate|]. split; [lia|].
  intros _. exists lineEnd. repeat split; try lia.
Qed.

Lemma extractLines_total_witness :
  extractLines [lit "a"; lit "b"; lit "c"] 0 5 = Ok []
  /\ extractLines [lit "a"; lit "b"; lit "c"] 2 99 <> Panic.
Proof.
  split.
  - exact (proj1 (proj2 (extractLines_total [lit "a"; lit "b"; lit "c"] 0 5))
             (or_introl eq_refl)).
  - exact (proj1 (extractLines_total [lit "a"; lit "b"; lit "c"] 2 99)).
Defined.

Lemma spliceFix_Ok (lines : list gostring) (issue : SecurityIssue) :
  (1 <= len lines)%Z ->
  let '(s, e) := clampLines (LineStart issue) (LineEnd issue) (len lines) in
  exists line,
    index lines (s - 1) = Some line /\
    spliceFix lines issue =
    Ok (firstn (Z.to_nat (s - 1)) lines
        ++ map (reindentLine (leadingIndent line)
                  (minFixIndentOf
                     (Strings.Split (Strings.TrimSuffix (SuggestedFix issue) [NL]) NL)))
               (Strings.Split (Strings.TrimSuffix (SuggestedFix issue) [NL]) NL)
        ++ skipn (Z.to_nat e) lines).
Proof.
  intros Hn. unfold spliceFix.
  pose proof (clampLines_bounds (LineStart issue) (LineEnd issue) _ Hn) as Hb.
  destruct (clampLines (LineStart issue) (LineEnd issue) (len lines)) as [s e].
  destruct Hb as (Hs & Hse & He).
  destruct (Z.ltb_spec (s - 1) (len lines)) as [_|]; [|lia].
  destruct (index_Some lines (s - 1)) as [line Hline]; [lia|].
  rewrite Hline. cbn [orPanic bind].
  rewrite sliceTo_Some by lia. cbn [orPanic bind].
  exists line. split; [reflexivity|].
  replace (if (0 <? len line)%Z then leadingIndent line else [])
    with (leadingIndent line) by (destruct line; reflexivity).
  destruct (Z.ltb_spec e (len lines)) as [Hlt|Hge].
  - rewrite sliceFrom_Some by lia. cbn [orPanic bind]. reflexivity.
  - cbn [bind]. replace (skipn (Z.to_nat e) lines) with (@nil gostring); [reflexivity|].
    symmetry. apply skipn_all2. unfold len in *. lia.
Qed.

(** C4: for a file of at least one line and arbitrary reported line
    numbers (negative, zero or past the end of the file), the clamping
    step of the fix applicator yields
    [1 <= lineStart <= lineEnd <= lineCount]; the splice then stays
    within the slice bounds, and [applyFix] on a readable, writable
    file with a fix at hand returns no error whatever the numbers. *)
Theorem applyFix_clamps_line_numbers (lines : list gostring) (issue : SecurityIssue) :
  (1 <= len lines)%Z ->
  (1 <= fst (clampLines (LineStart issue) (LineEnd issue) (len lines))
   /\ fst (clampLines (LineStart issue) (LineEnd issue) (len lines))
      <= snd (clampLines (LineStart issue) (LineEnd issue) (len lines))
   /\ snd (clampLines (LineStart issue) (LineEnd issue) (len lines)) <= len lines)%Z
  /\ (exists newLines, spliceFix lines issue = Ok newLines)
  /\ (forall fs content,
        fsFile fs = Some content -> Strings.Split content NL = lines ->
        fsWritable fs = true ->
        FixAvailable issue = true -> SuggestedFix issue <> [] ->
        exists fs', applyFix fs issue = Ok fs').
Proof.
  intros Hn.
  pose proof (clampLines_bounds (LineStart issue) (LineEnd issue) _ Hn) as Hb.
  pose proof (spliceFix_Ok lines issue Hn) as Hs.
  destruct (clampLines (LineStart issue) (LineEnd issue) (len lines)) as [s e].
  destruct Hs as (line & _ & Hs). split; [exact Hb|]. split; [eauto|].
  intros fs content Hf Hl Hw Ha Hfix. unfold applyFix.
  rewrite Ha. cbn [negb orb].
  destruct (bytes_eqb (SuggestedFix issue) []) eqn:E.
  { apply bytes_eqb_eq in E. contradiction. }
  rewrite Hf. cbn [orErr bind]. rewrite Hl, Hs. cbn [bind].
  unfold writeFile. rewrite Hw. eauto.
Qed.

Lemma applyFix_clamps_line_numbers_witness :
  clampLines (-7) 900 3 = (1, 3)%Z /\
  exists fs',
    applyFix {| fsFile := Some (lit "a" ++ [NL] ++ lit "b" ++ [NL] ++ lit "c");
                fsBackup := None; fsWritable := true |}
             (sampleIssue (-7) 900 (lit "z")) = Ok fs'.
Proof.
  split; [reflexivity|].
  refine (proj2 (proj2 (applyFix_clamps_line_numbers
            [lit "a"; lit "b"; lit "c"] (sampleIssue (-7) 900 (lit "z")) _)) _ _ _ _ _ _ _);
    try reflexivity; try discriminate.
Defined.

(** ** Review order *)

Lemma insertFinding_perm (x : SecurityIssue) (l : list SecurityIssue) :
  Permutation (x :: l) (insertFinding x l).
Proof.
  induction l as [|y l IH]; simpl; [reflexivity|].
  destruct (lessFinding y x); [|reflexivity].
  rewrite perm_swap. now apply perm_skip.
Qed.

Lemma sortFindings_perm (l : list SecurityIssue) : Permutation l (sortFindings l).
Proof.
  induction l as [|x l IH]; simpl; [constructor|].
  rewrite <- insertFinding_perm. now apply perm_skip.
Qed.








(** ** Scan orchestrator *)

Section ScannerProperties.
Variable W : World.
Variable P : Prompts.
Variable J : JSONCodec.
Variable unicodeUpper unicodeLower : gostring -> gostring.
Variable scanType : gostring.

Local Abbreviation scanFile := (scanFileWithProgress W P J scanType).
Local Abbreviation round := (triadRound W P J).
Local Abbreviation loop := (triadLoop W P J).

Lemma triadLoop_fuel (ctx : gostring) (fuel1 : nat) :
  forall fuel2 r st,
    Z.to_nat (4 - r) <= fuel1 -> Z.to_nat (4 - r) <= fuel2 ->
    loop ctx fuel1 r st = loop ctx fuel2 r st.
Proof.
  induction fuel1 as [|fuel1 IH]; intros [|fuel2] r st H1 H2; simpl;
    try reflexivity.
  - destruct (Z.leb_spec r 3); [lia | reflexivity].
  - destruct (Z.leb_spec r 3); [lia | reflexivity].
  - destruct (Z.leb_spec r 3); [|reflexivity].
    destruct (round ctx st r) as [st'| |]; simpl; try reflexivity.
    destruct (confidenceIsHigh (lastReport st')); [reflexivity|].
    rewrite (IH fuel2) by lia. reflexivity.
Qed.

Lemma scanFile_skips (file content : gostring) (job : nat) :
  readFile W file = Some content ->
  (len content = 0 \/ 100000 < len content)%Z ->
  scanFile job file = Ok (emptyResult file).
Proof.
  intros Hr Hc. unfold scanFileWithProgress. rewrite Hr. cbn [orErr bind].
  destruct (Z.eqb_spec (len content) 0); [reflexivity|].
  destruct (Z.ltb_spec 100000 (len content)); [reflexivity | lia].
Qed.

Lemma scanFile_hasIssues (file : gostring) (job : nat) (r : ScanResult) :
  scanFile job file = Ok r ->
  (isSecurity scanType = true -> (HasIssues r = true <-> Issues r <> []))
  /\ (isSecurity scanType = false ->
      Issues r = [] /\
      (HasIssues r = true <-> Strings.TrimSpace (RawFindings r) <> [])).
Proof.
  assert (Hempty : forall f,
    (HasIssues (emptyResult f) = true <-> Issues (emptyResult f) <> [])
    /\ Issues (emptyResult f) = []
    /\ (HasIssues (emptyResult f) = true <->
        Strings.TrimSpace (RawFindings (emptyResult f)) <> [])).
  { intros f. simpl. repeat split; try discriminate; intros H; now contradiction H. }
  unfold scanFileWithProgress.
  destruct (readFile W file) as [content|]; cbn [orErr bind]; [|discriminate].
  destruct (len content =? 0)%Z.
  { intros [= <-]. destruct (Hempty file) as (? & ? & ?). auto. }
  destruct (100000 <? len content)%Z.
  { intros [= <-]. destruct (Hempty file) as (? & ? & ?). auto. }
  destruct (isSecurity scanType).
  - destruct (Generate W (CallContext job) _); cbn [orErr bind]; [|discriminate].
    destruct (Generate W (CallScan job) _); cbn [orErr bind]; [|discriminate].
    destruct (decodeFindings J _) as [fs|]; [|discriminate].
    intros [= <-]. simpl. split; [intros _|discriminate].
    destruct fs; simpl; split; try discriminate; try reflexivity.
    intros H; now contradiction H.
  - destruct (Generate W (CallCustom job) _) as [response|]; cbn [orErr bind];
      [|discriminate].
    intros [= <-]. simpl. split; [discriminate|intros _].
    split; [reflexivity|].
    destruct (bytes_eqb (Strings.TrimSpace response) []) eqn:E; simpl.
    + apply bytes_eqb_eq in E. split; [discriminate | intros H; contradiction].
    + split; [|reflexivity]. intros _ H. rewrite H in E. discriminate E.
Qed.

Lemma scanJobs_In (files : list gostring) :
  forall job r, In r (scanJobs W P J scanType job files) ->
  exists job' file, In file files /\ scanFile job' file = Ok r.
Proof.
  induction files as [|file files IH]; intros job r Hin; simpl in Hin; [contradiction|].
  destruct (scanFile job file) as [r0| |] eqn:E.
  - destruct Hin as [<-|Hin].
    + exists job, file. split; [now left | exact E].
    + destruct (IH _ _ Hin) as (j & f & Hf & Hj). exists j, f. split; [now right | exact Hj].
  - destruct (IH _ _ Hin) as (j & f & Hf & Hj). exists j, f. split; [now right | exact Hj].
  - destruct (IH _ _ Hin) as (j & f & Hf & Hj). exists j, f. split; [now right | exact Hj].
Qed.

Lemma scanJobs_contains (files : list gostring) (file : gostring) (r : ScanResult) :
  (forall job, scanFile job file = Ok r) ->
  In file files ->
  forall job, In r (scanJobs W P J scanType job files).
Proof.
  intros Hr. induction files as [|f files IH]; intros Hin job; [contradiction|].
  simpl. destruct Hin as [->|Hin].
  - rewrite Hr. now left.
  - destruct (scanFile job f); [right|idtac|idtac]; now apply IH.
Qed.



Lemma len_zero_iff {A} (l : list A) : (len l =? 0)%Z = true <-> l = [].
Proof.
  unfold len. destruct l; simpl; split; try reflexivity; try discriminate.
Qed.



(** C1, amended: for every result [ScanFiles] returns, in security
    mode [HasIssues] holds exactly when the issue list is not empty;
    in triad mode exactly when the vulnerabilities of the final
    decoded report are not empty; in custom mode the issue list is
    always empty and [HasIssues] holds exactly when the model's
    answer, kept in [RawFindings], is not blank. *)
Theorem hasIssues_by_mode (files : list gostring) (ret : outcome (list ScanResult)) :
  ScanFilesReturns W P J unicodeUpper unicodeLower scanType files ret ->
  forall results r, ret = Ok results -> In r results ->
  (isTriad scanType = true ->
     exists rounds report,
       scanTriadFilesTrace W P J unicodeUpper unicodeLower files = Ok (r, rounds, report)
       /\ (HasIssues r = true <-> Vulnerabilities report <> []))
  /\ (isTriad scanType = false -> isSecurity scanType = true ->
        (HasIssues r = true <-> Issues r <> []))
  /\ (isTriad scanType = false -> isSecurity scanType = false ->
        Issues r = [] /\
        (HasIssues r = true <-> Strings.TrimSpace (RawFindings r) <> [])).
Proof.
  intros Hret results r Hok Hin. destruct Hret as [Ht | results' Ht Hperm].
  - rewrite Ht. split; [intros _| split; discriminate].
    unfold scanTriadFiles in Hok.
    destruct (scanTriadFilesTrace W P J unicodeUpper unicodeLower files)
      as [[[res rounds] report]| |] eqn:E; cbn [bind fst] in Hok; try discriminate.
    injection Hok as <-. destruct Hin as [<-|[]].
    exists rounds, report. split; [reflexivity|].
    unfold scanTriadFilesTrace in E.
    assert (Hz : (HasIssues (emptyResult triadMulti) = true <->
                  Vulnerabilities zeroReport <> []))
      by (simpl; split; [discriminate | intros H; now contradiction H]).
    destruct (len files =? 0)%Z; [injection E as <- _ <-; exact Hz|].
    destruct (readTriadFiles W files []) as [code| |]; cbn [bind] in E; try discriminate.
    destruct (len code =? 0)%Z; [injection E as <- _ <-; exact Hz|].
    destruct (loop _ 3 1%Z _) as [[st rs]| |]; cbn [bind fst snd] in E; try discriminate.
    injection E as <- _ <-. simpl.
    destruct (Vulnerabilities (lastReport st)); simpl; split;
      try discriminate; try reflexivity. intros H; now contradiction H.
  - injection Hok as <-. rewrite Ht. split; [discriminate|].
    apply (Permutation_in _ (Permutation_sym Hperm)) in Hin.
    destruct (scanJobs_In _ _ _ Hin) as (job & file & _ & Hscan).
    destruct (scanFile_hasIssues file job r Hscan) as [Hsec Hcus].
    split; intros _; assumption.
Qed.

(** C2, amended: in security and custom modes a file whose content
    is empty or longer than 100,000 bytes is not analysed, but it is
    still represented: every list [ScanFiles] returns holds the
    empty result for that file (its path, no issues, [HasIssues]
    false, no raw findings). *)
Theorem skipped_file_has_empty_result (files : list gostring) (file content : gostring)
        (ret : outcome (list ScanResult)) :
  isTriad scanType = false ->
  In file files ->
  readFile W file = Some content ->
  (len content = 0 \/ 100000 < len content)%Z ->
  ScanFilesReturns W P J unicodeUpper unicodeLower scanType files ret ->
  exists results, ret = Ok results /\ In (emptyResult file) results.
Proof.
  intros Ht Hin Hr Hc Hret. destruct Hret as [Ht' | results _ Hperm]; [congruence|].
  exists results. split; [reflexivity|].
  apply (Permutation_in _ Hperm).
  apply (scanJobs_contains files file); [|exact Hin].
  intros job. now apply (scanFile_skips file content).
Qed.
End ScannerProperties.

(** ** Concrete runs of the orchestrator *)


Lemma demo_custom_returns :
  ScanFilesReturns demoWorld demoPrompts demoCodec noTable noTable (lit "custom")
    [lit "main.go"] (Ok [customAnswer]).
Proof. apply ReturnsPool; [reflexivity | apply Permutation_refl]. Qed.

(** C1, as stated, fails in custom mode: the answer to a custom prompt
    sets [HasIssues] although the result carries no issue. *)
Lemma custom_result_hasIssues_without_issues :
  ~ (forall ret results r,
       ScanFilesReturns demoWorld demoPrompts demoCodec noTable noTable (lit "custom")
         [lit "main.go"] ret ->
       ret = Ok results -> In r results ->
       (HasIssues r = true <-> Issues r <> [])).
Proof.
  intros H.
  destruct (H _ [customAnswer] customAnswer demo_custom_returns eq_refl (or_introl eq_refl))
    as [Himp _].
  now apply (Himp eq_refl).
Qed.

Lemma hasIssues_by_mode_witness :
  Issues customAnswer = [] /\
  (HasIssues customAnswer = true <-> Strings.TrimSpace (RawFindings customAnswer) <> []).
Proof.
  exact (proj2 (proj2 (hasIssues_by_mode demoWorld demoPrompts demoCodec noTable noTable
           (lit "custom") [lit "main.go"] (Ok [customAnswer]) demo_custom_returns
           [customAnswer] customAnswer eq_refl (or_introl eq_refl))) eq_refl eq_refl).
Defined.

Lemma demo_security_returns :
  ScanFilesReturns demoWorld demoPrompts demoCodec noTable noTable (lit "security")
    [lit "empty.go"; lit "main.go"]
    (Ok [emptyResult (lit "empty.go");
         {| FilePath := lit "main.go"; RawFindings := lit "report";
            HasIssues := false; Issues := [] |}]).
Proof. apply ReturnsPool; [reflexivity | apply Permutation_refl]. Qed.

(** C2, as stated, fails: an empty file scanned in security mode is
    present in the returned list, as an empty result. *)
Lemma empty_file_still_listed :
  ~ (forall ret results r,
       ScanFilesReturns demoWorld demoPrompts demoCodec noTable noTable (lit "security")
         [lit "empty.go"; lit "main.go"] ret ->
       ret = Ok results -> In r results ->
       FilePath r <> lit "empty.go").
Proof.
  intros H.
  apply (H _ _ (emptyResult (lit "empty.go")) demo_security_returns eq_refl
           (or_introl eq_refl)).
  reflexivity.
Qed.

Lemma skipped_file_has_empty_result_witness :
  exists results,
    Ok [emptyResult (lit "empty.go");
        {| FilePath := lit "main.go"; RawFindings := lit "report";
           HasIssues := false; Issues := [] |}] = Ok results
    /\ In (emptyResult (lit "empty.go")) results.
Proof.
  exact (skipped_file_has_empty_result demoWorld demoPrompts demoCodec noTable noTable
           (lit "security") [lit "empty.go"; lit "main.go"] (lit "empty.go") [] _
           eq_refl (or_introl eq_refl) eq_refl (or_introl eq_refl) demo_security_returns).
Defined.

(** ** Splitting and joining lines *)

Lemma Split_no_sep_id (s : gostring) (sep : ascii) :
  ~ In sep s -> Strings.Split s sep = [s].
Proof.
  induction s as [|c s IH]; intros Hn; simpl; [reflexivity|].
  destruct (Ascii.eqb_spec c sep) as [->|_]; [exfalso; apply Hn; now left|].
  rewrite IH; [reflexivity|]. intros H; apply Hn; now right.
Qed.

Lemma Split_app_sep (p rest : gostring) (sep : ascii) :
  ~ In sep p -> Strings.Split (p ++ sep :: rest) sep = p :: Strings.Split rest sep.
Proof.
  induction p as [|c p IH]; intros Hn; simpl.
  - now rewrite Ascii.eqb_refl.
  - destruct (Ascii.eqb_spec c sep) as [->|_]; [exfalso; apply Hn; now left|].
    rewrite IH; [reflexivity|]. intros H; apply Hn; now right.
Qed.

Lemma Split_fields_no_sep (s : gostring) (sep : ascii) :
  Forall (fun field => ~ In sep field) (Strings.Split s sep).
Proof.
  induction s as [|c s IH]; simpl; [repeat constructor; intros []|].
  destruct (Ascii.eqb_spec c sep) as [->|Hne].
  - constructor; [intros []| exact IH].
  - destruct (Strings.Split s sep) as [|f fs]; [repeat constructor; intros [H|[]]; congruence|].
    apply Forall_cons_iff in IH as [Hf Hfs].
    constructor; [|exact Hfs]. intros [H|H]; [congruence | contradiction].
Qed.

Lemma Split_Join (parts : list gostring) (sep : ascii) :
  parts <> [] ->
  Forall (fun field => ~ In sep field) parts ->
  Strings.Split (Strings.Join parts [sep]) sep = parts.
Proof.
  induction parts as [|p parts IH]; intros Hne Hall; [contradiction|].
  apply Forall_cons_iff in Hall as [Hp Hall].
  destruct parts as [|q parts].
  - simpl. now apply Split_no_sep_id.
  - change (Strings.Join (p :: q :: parts) [sep])
      with (p ++ sep :: Strings.Join (q :: parts) [sep]).
    rewrite Split_app_sep by exact Hp.
    rewrite IH; [reflexivity | discriminate | exact Hall].
Qed.

Lemma TrimSpace_infix (s : gostring) :
  exists pre post, s = pre ++ Strings.TrimSpace s ++ post.
Proof.
  unfold Strings.TrimSpace, Strings.TrimRightSpace, Strings.TrimLeftSpace.
  destruct (trimRunes_tail Strings.spaceRunes (length s) s) as [pre Hpre].
  set (t := Strings.trimRunes Strings.spaceRunes (length s) s) in *.
  destruct (trimRunes_tail (map (@rev ascii) Strings.spaceRunes) (length t) (rev t))
    as [post Hpost].
  set (u := Strings.trimRunes _ (length t) (rev t)) in *.
  exists pre, (rev post).
  rewrite <- rev_app_distr, <- Hpost, rev_involutive. exact Hpre.
Qed.

Lemma TrimSpace_keeps_out (s : gostring) (c : ascii) :
  ~ In c s -> ~ In c (Strings.TrimSpace s).
Proof.
  intros Hn Hin. destruct (TrimSpace_infix s) as (pre & post & Hs).
  apply Hn. rewrite Hs. apply in_or_app. right. apply in_or_app. now left.
Qed.

Lemma Trimmed_no_trailing_newline (s : gostring) :
  Trimmed s -> Strings.TrimSuffix s [NL] = s.
Proof.
  intros [_ Hr]. unfold Strings.TrimSuffix.
  destruct (Strings.dropPrefix (rev [NL]) (rev s)) as [r|] eqn:E; [|reflexivity].
  apply dropPrefix_Some in E. rewrite dropRune_None in Hr.
  exfalso. apply (Hr (rev [NL]) r); [|exact E].
  unfold revRunes, Strings.spaceRunes. simpl. auto.
Qed.

Lemma extractCodeFromResponse_Trimmed (response : gostring) :
  Trimmed (extractCodeFromResponse response).
Proof.
  unfold extractCodeFromResponse.
  destruct (len _ =? 0)%Z; apply TrimSpace_Trimmed.
Qed.

Lemma leadingIndent_no_newline (line : gostring) : ~ In NL (leadingIndent line).
Proof.
  induction line as [|c line IH]; simpl; [intros []|].
  destruct (Ascii.eqb_spec c SPACE) as [->|_]; simpl.
  { intros [H|H]; [discriminate H | contradiction]. }
  destruct (Ascii.eqb_spec c TAB) as [->|_]; simpl; [|intros []].
  intros [H|H]; [discriminate H | contradiction].
Qed.

Lemma Repeat_no_newline (c : ascii) (n : nat) :
  c <> NL -> ~ In NL (Strings.Repeat [c] n).
Proof.
  intros Hc. induction n as [|n IH]; simpl; [intros []|].
  intros [H|H]; [congruence | contradiction].
Qed.

Lemma reindentLine_no_newline (originalIndent : gostring) (m : Z) (fixLine : gostring) :
  ~ In NL originalIndent -> ~ In NL fixLine ->
  ~ In NL (reindentLine originalIndent m fixLine).
Proof.
  intros Hi Hf. unfold reindentLine.
  destruct (bytes_eqb (Strings.TrimSpace fixLine) []); [intros []|].
  pose proof (TrimSpace_keeps_out fixLine NL Hf) as Ht.
  assert (Hs : ~ In NL (Strings.Repeat [SPACE] (Z.to_nat (indentWidth fixLine - m))))
    by (apply Repeat_no_newline; discriminate).
  destruct (Strings.Contains originalIndent [TAB]); rewrite ?in_app_iff.
  - pose proof (Repeat_no_newline TAB
                  (Z.to_nat (Z.quot (indentWidth fixLine - m) 4))) as H1.
    pose proof (Repeat_no_newline SPACE
                  (Z.to_nat (Z.rem (indentWidth fixLine - m) 4))) as H2.
    intros [[H|[H|H]]|H]; try contradiction.
    + apply H1; [discriminate | exact H].
    + apply H2; [discriminate | exact H].
  - intros [[H|H]|H]; contradiction.
Qed.

(** ** Applying a fix from the reviewer *)

(** C3, as stated, fails: the reviewer widens the range to lines
    10-12 before splicing, so the three fix lines replace three
    original lines; the file keeps 20 lines and the original lines 11
    and 12 are gone. *)
Lemma apply_three_line_fix_overwrites :
  exists fs' newContent,
    ReviewFindings [sampleIssue 10 10 threeLineFix] [KeyApply] twentyLineStore
      = Return None fs'
    /\ fsFile fs' = Some newContent
    /\ len (Strings.Split newContent NL) = 20%Z
    /\ len (Strings.Split newContent NL) <> 22%Z
    /\ firstn 3 (skipn 9 (Strings.Split newContent NL)) = [lit "F1"; lit "F2"; lit "F3"]
    /\ nth_error (Strings.Split newContent NL) 12 = Some (lit "L13")
    /\ nth_error (Strings.Split newContent NL) 12 <> Some (lit "L11")
    /\ ~ In (lit "L11") (Strings.Split newContent NL).
Proof.
  eexists. eexists. split; [vm_compute; reflexivity|].
  split; [reflexivity|].
  vm_compute. repeat split; try discriminate.
  intuition discriminate.
Qed.

Lemma applyFix_Ok (fs : FileStore) (issue : SecurityIssue) (content : gostring)
      (newLines : list gostring) :
  fsFile fs = Some content ->
  fsWritable fs = true ->
  FixAvailable issue = true ->
  SuggestedFix issue <> [] ->
  spliceFix (Strings.Split content NL) issue = Ok newLines ->
  applyFix fs issue =
  Ok {| fsFile := Some (Strings.Join newLines [NL]); fsBackup := fsBackup fs;
        fsWritable := true |}.
Proof.
  intros Hf Hw Ha Hfix Hs. unfold applyFix. rewrite Ha. cbn [negb orb].
  destruct (bytes_eqb (SuggestedFix issue) []) eqn:E.
  { apply bytes_eqb_eq in E. contradiction. }
  rewrite Hf. cbn [orErr bind]. rewrite Hs. cbn [bind].
  unfold writeFile. now rewrite Hw.
Qed.

Lemma resultStore_applyChoice (st : reviewState) (fs fs1 fs2 : FileStore)
      (issue : SecurityIssue) (content : gostring) :
  FixAvailable issue = true ->
  isApplied st (currentIdx st) = false ->
  (if backupCreated st then Ok fs else writeBackup fs (rvContent st)) = Ok fs1 ->
  applyFix fs1 (prepareIssue issue (rvLines st)) = Ok fs2 ->
  fsFile fs2 = Some content ->
  resultStore (applyChoice st fs issue) = Some fs2.
Proof.
  intros Ha Hna Hb Hfix Hc. unfold applyChoice.
  rewrite Ha, Hna. cbn [negb]. rewrite Hb, Hfix, Hc.
  match goal with |- context [if ?c then _ else _] => destruct c end; reflexivity.
Qed.

(** C3, amended: applying through the reviewer a suggested fix of 3
    lines to a finding with [lineStart = lineEnd = 10] in a 20-line
    file yields a 20-line file: the range is widened to lines 10-12,
    the 3 re-indented fix lines take positions 10-12, lines 1-9 and
    13-20 stay where they were, and the original lines 11 and 12 are
    replaced. *)
Theorem reviewer_apply_three_line_fix (st : reviewState) (fs : FileStore)
        (issue : SecurityIssue) (content : gostring) :
  fsFile fs = Some content ->
  fsWritable fs = true ->
  rvContent st = content ->
  rvLines st = Strings.Split content NL ->
  isApplied st (currentIdx st) = false ->
  FixAvailable issue = true ->
  LineStart issue = 10%Z ->
  LineEnd issue = 10%Z ->
  len (Strings.Split content NL) = 20%Z ->
  len (Strings.Split
         (Strings.TrimSpace (extractCodeFromResponse (SuggestedFix issue))) NL) = 3%Z ->
  let lines := Strings.Split content NL in
  let fixLines := Strings.Split (extractCodeFromResponse (SuggestedFix issue)) NL in
  exists fs' newContent line10,
    resultStore (applyChoice st fs issue) = Some fs'
    /\ fsFile fs' = Some newContent
    /\ nth_error lines 9 = Some line10
    /\ Strings.Split newContent NL =
       firstn 9 lines
       ++ map (reindentLine (leadingIndent line10) (minFixIndentOf fixLines)) fixLines
       ++ skipn 12 lines
    /\ length fixLines = 3
    /\ len (Strings.Split newContent NL) = 20%Z
    /\ (forall k, k < 9 \/ 12 <= k ->
          nth_error (Strings.Split newContent NL) k = nth_error lines k).
Proof.
  intros Hf Hw Hcontent Hlines Hna Ha Hstart Hend Hlen Hfixlen lines fixLines.
  set (fixText := extractCodeFromResponse (SuggestedFix issue)) in *.
  pose proof (extractCodeFromResponse_Trimmed (SuggestedFix issue)) as Ht.
  fold fixText in Ht.
  rewrite (Trimmed_TrimSpace _ Ht) in Hfixlen.
  assert (Hne : fixText <> []).
  { intros E. rewrite E in Hfixlen. discriminate Hfixlen. }
  set (issue' := prepareIssue issue (rvLines st)).
  assert (Hi' : FixAvailable issue' = true /\ SuggestedFix issue' = fixText
                /\ LineStart issue' = 10%Z /\ LineEnd issue' = 12%Z).
  { unfold issue', prepareIssue. cbn [FixAvailable SuggestedFix LineStart LineEnd].
    fold fixText. rewrite (Trimmed_TrimSpace _ Ht), Hfixlen, Hstart, Hend, Hlines, Hlen.
    repeat split; try assumption; reflexivity. }
  destruct Hi' as (Ha' & Hfix' & Hs' & He').
  assert (Hn : (1 <= len lines)%Z) by (unfold lines; lia).
  pose proof (spliceFix_Ok lines issue' Hn) as Hsplice.
  rewrite Hs', He' in Hsplice. unfold lines in Hsplice at 1. rewrite Hlen in Hsplice.
  change (clampLines 10 12 20) with (10%Z, 12%Z) in Hsplice.
  destruct Hsplice as (line10 & Hidx & Hsplice).
  rewrite Hfix', (Trimmed_no_trailing_newline _ Ht) in Hsplice.
  fold fixLines in Hsplice.
  change (Z.to_nat (10 - 1)) with 9 in Hsplice.
  change (Z.to_nat 12) with 12 in Hsplice.
  set (newLines := firstn 9 lines
         ++ map (reindentLine (leadingIndent line10) (minFixIndentOf fixLines)) fixLines
         ++ skipn 12 lines) in *.
  assert (Hnth : nth_error lines 9 = Some line10).
  { unfold index in Hidx. fold lines in Hlen. rewrite Hlen in Hidx. exact Hidx. }
  assert (Hflen : length fixLines = 3).
  { unfold len in Hfixlen. fold fixLines in Hfixlen. lia. }
  assert (Hllen : length lines = 20) by (unfold len, lines in *; lia).
  assert (Hnewlen : length newLines = 20).
  { unfold newLines. rewrite !length_app, length_map, length_firstn, length_skipn. lia. }
  assert (Hsep : Forall (fun field => ~ In NL field) newLines).
  { pose proof (Split_fields_no_sep content NL) as Hl. fold lines in Hl.
    pose proof (Split_fields_no_sep fixText NL) as Hx. fold fixLines in Hx.
    pose proof Hl as Hl9. rewrite <- (firstn_skipn 9 lines) in Hl9.
    apply Forall_app in Hl9 as [Hl9 _].
    pose proof Hl as Hl12. rewrite <- (firstn_skipn 12 lines) in Hl12.
    apply Forall_app in Hl12 as [_ Hl12].
    unfold newLines. rewrite !Forall_app. split; [exact Hl9|split; [|exact Hl12]].
    rewrite Forall_map. eapply Forall_impl; [|exact Hx]. simpl. intros x Hx'.
    apply reindentLine_no_newline; [apply leadingIndent_no_newline | exact Hx']. }
  assert (Hsplit : Strings.Split (Strings.Join newLines [NL]) NL = newLines).
  { apply Split_Join; [|exact Hsep]. intros E. rewrite E in Hnewlen. discriminate. }
  assert (Hbackup : exists fs1,
            (if backupCreated st then Ok fs else writeBackup fs (rvContent st)) = Ok fs1
            /\ fsFile fs1 = Some content /\ fsWritable fs1 = true).
  { destruct (backupCreated st); [exists fs; auto|].
    unfold writeBackup. rewrite Hw. eexists. split; [reflexivity|]. simpl. auto. }
  destruct Hbackup as (fs1 & Hb & Hf1 & Hw1).
  assert (Hfix'' : SuggestedFix issue' <> []) by (rewrite Hfix'; exact Hne).
  fold lines in Hsplice.
  pose proof (applyFix_Ok fs1 issue' content newLines Hf1 Hw1 Ha' Hfix'' Hsplice) as Happly.
  eexists. exists (Strings.Join newLines [NL]), line10.
  split.
  { eapply resultStore_applyChoice; eauto. reflexivity. }
  split; [reflexivity|]. split; [exact Hnth|]. split; [exact Hsplit|].
  split; [exact Hflen|]. rewrite Hsplit.
  split; [unfold len; lia|].
  intros k Hk. unfold newLines.
  assert (Hfirst : length (firstn 9 lines) = 9) by (rewrite length_firstn; lia).
  destruct Hk as [Hk|Hk].
  - rewrite nth_error_app1 by lia. rewrite nth_error_firstn.
    destruct (Nat.ltb_spec k 9); [reflexivity | lia].
  - rewrite nth_error_app2 by lia. rewrite nth_error_app2 by (rewrite length_map; lia).
    rewrite length_map, Hfirst, Hflen, nth_error_skipn. f_equal. lia.
Qed.

Lemma reviewer_apply_three_line_fix_witness :
  exists fs' newContent,
    resultStore (applyChoice reviewStart twentyLineStore (sampleIssue 10 10 threeLineFix))
      = Some fs'
    /\ fsFile fs' = Some newContent
    /\ len (Strings.Split newContent NL) = 20%Z
    /\ nth_error (Strings.Split newContent NL) 12 = Some (lit "L13").
Proof.
  destruct (reviewer_apply_three_line_fix reviewStart twentyLineStore
              (sampleIssue 10 10 threeLineFix) twentyLines
              eq_refl eq_refl eq_refl eq_refl eq_refl eq_refl eq_refl eq_refl
              ltac:(vm_compute; reflexivity) ltac:(vm_compute; reflexivity))
    as (fs' & newContent & line10 & Hstore & Hfile & _ & _ & _ & Hlen & Hsame).
  exists fs', newContent. split; [exact Hstore|]. split; [exact Hfile|].
  split; [exact Hlen|]. rewrite (Hsame 12 (or_intror (le_n 12))). reflexivity.
Defined.

(** ** Static pre-scanner *)

Section StaticProperties.
Variable unicodeUpper unicodeLower : gostring -> gostring.

Local Abbreviation findingsOf := (lineFindings unicodeUpper unicodeLower).

Lemma lineFindings_execLine (path : gostring) (n : Z) :
  findingsOf path n execLine = [mkFinding path n "exec.Command" "High"].
Proof. vm_compute. reflexivity. Qed.

(** C8: the static pre-scanner run over a single file of 10 lines
    whose line 5 is the shell invocation
    exec.Command(sh, -c, userInput) with quoted arguments, and whose
    other lines match none of the five patterns, yields exactly one
    finding: line 5, pattern exec.Command, severity High. *)
Theorem static_prescan_single_exec (path content : gostring) :
  length (Strings.Split content NL) = 10 ->
  nth_error (Strings.Split content NL) 4 = Some execLine ->
  (forall i line n, i <> 4 -> nth_error (Strings.Split content NL) i = Some line ->
     findingsOf path n line = []) ->
  runTriadStaticAnalysis unicodeUpper unicodeLower [(path, content)] =
    [{| sfFile := path; sfLine := 5; sfPattern := lit "exec.Command";
        sfSeverity := lit "High" |}].
Proof.
  intros Hlen H5 Hother. unfold runTriadStaticAnalysis. cbn [flat_map].
  destruct (Strings.Split content NL) as [|l1 [|l2 [|l3 [|l4 [|l5 [|l6 [|l7 [|l8 [|l9
    [|l10 [|l11 rest]]]]]]]]]]]; try discriminate Hlen.
  injection H5 as ->.
  cbn [scanLines].
  rewrite (Hother 0 l1), (Hother 1 l2), (Hother 2 l3), (Hother 3 l4),
    (Hother 5 l6), (Hother 6 l7), (Hother 7 l8), (Hother 8 l9), (Hother 9 l10)
    by (try discriminate; reflexivity).
  rewrite lineFindings_execLine. reflexivity.
Qed.
End StaticProperties.

Lemma static_prescan_single_exec_witness :
  runTriadStaticAnalysis noTable noTable [(lit "main.go", tenLineFile)] =
    [{| sfFile := lit "main.go"; sfLine := 5; sfPattern := lit "exec.Command";
        sfSeverity := lit "High" |}].
Proof.
  apply static_prescan_single_exec; [reflexivity | reflexivity |].
  intros i line n Hi Hline.
  do 10 (destruct i as [|i];
         [try contradiction; injection Hline as <-; vm_compute; reflexivity|]).
  destruct i; discriminate Hline.
Defined.

(** ** Re-indentation never asks for a negative repeat count *)

Lemma indentWidth_nonneg (fixLine : gostring) : (0 <= indentWidth fixLine)%Z.
Proof.
  induction fixLine as [|c l IH]; cbn [indentWidth]; [lia|].
  destruct (Ascii.eqb c SPACE); [lia|]. destruct (Ascii.eqb c TAB); lia.
Qed.

Lemma minIndent_fold (fixLines : list gostring) :
  forall acc,
    (acc = -1 \/ 0 <= acc)%Z ->
    let m := fold_left minIndentStep fixLines acc in
    (m = -1 \/ 0 <= m)%Z
    /\ (acc <> -1 -> m <> -1 /\ m <= acc)%Z
    /\ (forall l, In l fixLines -> isBlank l = false ->
          m <> -1 /\ m <= indentWidth l)%Z.
Proof.
  induction fixLines as [|x ls IH]; intros acc Hacc; cbn [fold_left]; cbv zeta.
  - split; [exact Hacc|]. split; [intros; lia|]. intros ? [].
  - pose proof (indentWidth_nonneg x) as Hx.
    assert (Hstep : (minIndentStep acc x = -1 \/ 0 <= minIndentStep acc x)%Z
                    /\ (acc <> -1 -> minIndentStep acc x <> -1
                                     /\ minIndentStep acc x <= acc)%Z
                    /\ (isBlank x = false ->
                        minIndentStep acc x <> -1
                        /\ minIndentStep acc x <= indentWidth x)%Z).
    { unfold minIndentStep. destruct (isBlank x).
      - repeat split; try lia; discriminate.
      - destruct (Z.eqb_spec acc (-1)); simpl.
        + repeat split; lia.
        + destruct (Z.ltb_spec (indentWidth x) acc); repeat split; lia. }
    destruct Hstep as (H1 & H2 & H3).
    destruct (IH _ H1) as (I1 & I2 & I3).
    split; [exact I1|]. split.
    + intros Hne. destruct (H2 Hne) as [Ha Hb]. destruct (I2 Ha). lia.
    + intros l [<-|Hin] Hb.
      * destruct (H3 Hb) as [Ha Hc]. destruct (I2 Ha). lia.
      * now apply I3.
Qed.

Lemma relativeIndent_nonneg (fixLines : list gostring) (fixLine : gostring) :
  In fixLine fixLines -> isBlank fixLine = false ->
  (0 <= indentWidth fixLine - minFixIndentOf fixLines)%Z.
Proof.
  intros Hin Hb. unfold minFixIndentOf.
  destruct (minIndent_fold fixLines (-1)%Z (or_introl eq_refl)) as (_ & _ & H).
  destruct (H fixLine Hin Hb) as [Hne Hle].
  destruct (Z.eqb_spec (fold_left minIndentStep fixLines (-1)%Z) (-1)); lia.
Qed.

(** * Further properties of the scanner *)

(** ** Escape repair and fence stripping *)

(** X1: the escape-repair pass is idempotent on every input. *)
Theorem escape_repair_idempotent (s : gostring) :
  fixJSONStringEscaping (fixJSONStringEscaping s) = fixJSONStringEscaping s.
Proof. apply fixJSONLoop_idem. Qed.

Lemma fixJSONLoop_outside_strings (e : bool) (s : gostring) :
  ~ In QUOTE s -> fixJSONLoop false e s = s.
Proof.
  revert e; induction s as [|ch s IH]; intros e Hq; [reflexivity|].
  assert (Hq' : ~ In QUOTE s) by (intros H; apply Hq; now right).
  assert (Eq : Ascii.eqb ch QUOTE = false)
    by (apply Ascii.eqb_neq; intros ->; apply Hq; now left).
  cbn [fixJSONLoop andb]. rewrite Eq.
  destruct e; [now rewrite IH|].
  destruct (Ascii.eqb ch BSLASH); now rewrite IH.
Qed.

(** X2: nothing outside string literals is rewritten: a text without
    a double quote comes back unchanged, whatever newlines and tabs
    it holds. *)
Theorem escape_repair_needs_a_quote (s : gostring) :
  ~ In QUOTE s -> fixJSONStringEscaping s = s.
Proof. apply fixJSONLoop_outside_strings. Qed.

Lemma escape_repair_needs_a_quote_witness :
  let s := lit "{" ++ [NL; TAB] ++ lit "a: 1" ++ [NL] ++ lit "}" in
  fixJSONStringEscaping s = s.
Proof.
  apply escape_repair_needs_a_quote. vm_compute. intuition discriminate.
Defined.

Lemma rawControl_fixJSONLoop (i e : bool) (s : gostring) :
  rawControlInString i e (fixJSONLoop i e s) = false.
Proof.
  revert i e; induction s as [|ch s IH]; intros i e; [reflexivity|].
  cbn [fixJSONLoop]. destruct e; [cbn [rawControlInString]; apply IH|].
  destruct (Ascii.eqb ch BSLASH) eqn:Eb.
  { cbn [rawControlInString]. rewrite Eb. apply IH. }
  destruct (Ascii.eqb ch QUOTE) eqn:Eq.
  { cbn [rawControlInString]. rewrite Eb, Eq. apply IH. }
  destruct (i && Ascii.eqb ch NL) eqn:En.
  { cbn [rawControlInString]. change (Ascii.eqb BSLASH BSLASH) with true. cbv iota.
    apply IH. }
  destruct (i && Ascii.eqb ch TAB) eqn:Et.
  { cbn [rawControlInString]. change (Ascii.eqb BSLASH BSLASH) with true. cbv iota.
    apply IH. }
  cbn [rawControlInString]. rewrite Eb, Eq.
  replace (i && (Ascii.eqb ch NL || Ascii.eqb ch TAB)) with false; [apply IH|].
  destruct i; simpl in *; [rewrite En, Et|]; reflexivity.
Qed.

(** X3: after the escape repair no string literal holds a raw newline
    or tab: read with the same quote and backslash rules, the output
    has such a byte only outside strings or right behind a backslash. *)
Theorem escape_repair_leaves_no_raw_control (s : gostring) :
  rawControlInString false false (fixJSONStringEscaping s) = false.
Proof. apply rawControl_fixJSONLoop. Qed.

Ltac ascii_space_cases c tac :=
  unfold isAsciiSpace; cbn [existsb map];
  destruct (Ascii.eqb_spec c (byte_of 9)) as [->|_]; [intros _; tac|];
  destruct (Ascii.eqb_spec c (byte_of 10)) as [->|_]; [intros _; tac|];
  destruct (Ascii.eqb_spec c (byte_of 11)) as [->|_]; [intros _; tac|];
  destruct (Ascii.eqb_spec c (byte_of 12)) as [->|_]; [intros _; tac|];
  destruct (Ascii.eqb_spec c (byte_of 13)) as [->|_]; [intros _; tac|];
  destruct (Ascii.eqb_spec c (byte_of 32)) as [->|_]; [intros _; tac|];
  cbn; discriminate.

Lemma dropRune_ascii_space (c : ascii) (s : gostring) :
  isAsciiSpace c = true ->
  Strings.dropRune Strings.spaceRunes (c :: s) = Some s
  /\ Strings.dropRune revRunes (c :: s) = Some s.
Proof.
  ascii_space_cases c ltac:(split; reflexivity).
Qed.

Lemma trimRunes_ascii_prefix (runes : list gostring) (ws s : gostring) :
  (forall c rest, isAsciiSpace c = true -> Strings.dropRune runes (c :: rest) = Some rest) ->
  Forall (fun c => isAsciiSpace c = true) ws ->
  Strings.dropRune runes s = None ->
  forall fuel, length ws <= fuel -> Strings.trimRunes runes fuel (ws ++ s) = s.
Proof.
  intros Hdrop Hws Hs. induction Hws as [|c ws Hc _ IH]; intros fuel Hfuel.
  - now apply trimRunes_fixed.
  - destruct fuel as [|fuel]; [simpl in Hfuel; lia|].
    cbn [Strings.trimRunes app]. rewrite (Hdrop c _ Hc). apply IH. simpl in Hfuel. lia.
Qed.

Lemma isAsciiSpace_not_high (c : ascii) : isAsciiSpace c = true -> isHigh c = false.
Proof.
  ascii_space_cases c ltac:(reflexivity).
Qed.

Lemma dropRune_app_ascii (runes : list gostring) (s ws : gostring) :
  forallb tailHigh runes = true ->
  Strings.dropRune runes s = None ->
  s <> [] ->
  Forall (fun c => isAsciiSpace c = true) ws ->
  Strings.dropRune runes (s ++ ws) = None.
Proof.
  intros Hshape Hs Hne Hws. rewrite forallb_forall in Hshape.
  apply dropRune_None. intros r rest Hin Heq. rewrite dropRune_None in Hs.
  specialize (Hshape r Hin). destruct r as [|w r]; [discriminate Hshape|].
  destruct s as [|c s]; [contradiction|].
  simpl in Heq. injection Heq as <- Heq. simpl in Hshape.
  (* the rest of the rune is high, so it cannot reach into [ws] *)
  assert (Hpre : forall (r s : gostring) rest,
             forallb isHigh r = true -> s ++ ws = r ++ rest ->
             exists rest', s = r ++ rest').
  { clear - Hws. induction r as [|h r IH]; intros s rest Hr Heq.
    - exists s; reflexivity.
    - simpl in Hr. apply andb_true_iff in Hr as [Hh Hr].
      destruct s as [|c s].
      + simpl in Heq. destruct ws as [|x ws]; [discriminate Heq|].
        injection Heq as -> _. apply Forall_inv in Hws.
        apply isAsciiSpace_not_high in Hws. congruence.
      + simpl in Heq. injection Heq as -> Heq.
        destruct (IH _ _ Hr Heq) as [rest' ->]. exists rest'; reflexivity. }
  destruct (Hpre r s rest Hshape Heq) as [rest' ->].
  apply (Hs (c :: r) rest' Hin). reflexivity.
Qed.

Lemma spaceRunes_tailHigh :
  forallb tailHigh Strings.spaceRunes = true /\ forallb tailHigh revRunes = true.
Proof. split; vm_compute; reflexivity. Qed.

Lemma TrimSpace_padded (ws1 ws2 body : gostring) :
  Forall (fun c => isAsciiSpace c = true) ws1 ->
  Forall (fun c => isAsciiSpace c = true) ws2 ->
  Trimmed body ->
  Strings.TrimSpace (ws1 ++ body ++ ws2) = body.
Proof.
  intros H1 H2 [Hl Hr].
  destruct spaceRunes_tailHigh as [Sl Sr].
  unfold Strings.TrimSpace, Strings.TrimRightSpace, Strings.TrimLeftSpace.
  fold revRunes.
  destruct body as [|b body].
  - simpl app.
    assert (Hleft : Strings.trimRunes Strings.spaceRunes (length (ws1 ++ ws2)) (ws1 ++ ws2)
                    = []).
    { pose proof (trimRunes_ascii_prefix Strings.spaceRunes (ws1 ++ ws2) []) as H.
      rewrite app_nil_r in H. apply H.
      - intros c rest Hc. exact (proj1 (dropRune_ascii_space c rest Hc)).
      - apply Forall_app. now split.
      - reflexivity.
      - lia. }
    rewrite Hleft. reflexivity.
  - assert (Hleft : Strings.trimRunes Strings.spaceRunes
                      (length (ws1 ++ (b :: body) ++ ws2)) (ws1 ++ (b :: body) ++ ws2)
                    = (b :: body) ++ ws2).
    { apply trimRunes_ascii_prefix.
      - intros c rest Hc. exact (proj1 (dropRune_ascii_space c rest Hc)).
      - exact H1.
      - apply dropRune_app_ascii; [exact Sl | exact Hl | discriminate | exact H2].
      - rewrite length_app. lia. }
    rewrite Hleft, rev_app_distr.
    assert (Hright : Strings.trimRunes revRunes (length ((b :: body) ++ ws2))
                       (rev ws2 ++ rev (b :: body)) = rev (b :: body)).
    { apply trimRunes_ascii_prefix.
      - intros c rest Hc. exact (proj2 (dropRune_ascii_space c rest Hc)).
      - now apply Forall_rev.
      - exact Hr.
      - rewrite length_app, length_rev. lia. }
    rewrite Hright. apply rev_involutive.
Qed.

Lemma Trimmed_between_fences (mark mid : gostring) :
  Strings.HasPrefix mark fence = true ->
  Trimmed (mark ++ mid ++ fence).
Proof.
  unfold Strings.HasPrefix. intros Hm.
  destruct (Strings.dropPrefix fence mark) as [r|] eqn:E; [|discriminate Hm].
  apply dropPrefix_Some in E. subst mark. split.
  - reflexivity.
  - rewrite !rev_app_distr. reflexivity.
Qed.

(** X4: a payload wrapped in a json fence or in a plain fence, with
    ASCII white space around the fences and around the payload, is
    unwrapped to the payload itself (any text without white space at
    its ends; for the plain fence, one that does not continue the
    opening marker with the letters json). *)
Theorem strip_unwraps_fenced_payload (ws0 ws1 ws2 ws3 body : gostring) :
  Forall (fun c => isAsciiSpace c = true) ws0 ->
  Forall (fun c => isAsciiSpace c = true) ws1 ->
  Forall (fun c => isAsciiSpace c = true) ws2 ->
  Forall (fun c => isAsciiSpace c = true) ws3 ->
  Trimmed body ->
  stripMarkdownCodeFences (ws0 ++ (fenceJSON ++ (ws1 ++ body ++ ws2) ++ fence) ++ ws3) = body
  /\ (Strings.HasPrefix (ws1 ++ body ++ ws2) (lit "json") = false ->
      stripMarkdownCodeFences (ws0 ++ (fence ++ (ws1 ++ body ++ ws2) ++ fence) ++ ws3) = body).
Proof.
  intros H0 H1 H2 H3 Hb.
  set (mid := ws1 ++ body ++ ws2).
  assert (Hsuffix : Strings.TrimSuffix (mid ++ fence) fence = mid).
  { unfold Strings.TrimSuffix. rewrite rev_app_distr, dropPrefix_app. apply rev_involutive. }
  split.
  - unfold stripMarkdownCodeFences.
    rewrite (TrimSpace_padded ws0 ws3 _ H0 H3 (Trimmed_between_fences fenceJSON mid eq_refl)).
    assert (Hp : Strings.dropPrefix fenceJSON (fenceJSON ++ mid ++ fence) = Some (mid ++ fence))
      by apply dropPrefix_app.
    unfold Strings.HasPrefix, Strings.TrimPrefix. rewrite Hp, Hsuffix.
    now apply TrimSpace_padded.
  - intros Hj. unfold stripMarkdownCodeFences.
    rewrite (TrimSpace_padded ws0 ws3 _ H0 H3 (Trimmed_between_fences fence mid eq_refl)).
    assert (Hnj : Strings.HasPrefix (fence ++ mid ++ fence) fenceJSON = false).
    { unfold Strings.HasPrefix in *.
      destruct (Strings.dropPrefix fenceJSON (fence ++ mid ++ fence)) as [r|] eqn:E;
        [|reflexivity].
      apply dropPrefix_Some in E. change fenceJSON with (fence ++ lit "json") in E.
      rewrite <- app_assoc in E. apply app_inv_head in E.
      destruct (Strings.dropPrefix (lit "json") mid) as [r'|] eqn:E'; [discriminate Hj|].
      clear Hj. exfalso.
      (* [json] is a prefix of [mid ++ fence] but the fence starts with a backtick *)
      destruct mid as [|m0 [|m1 [|m2 [|m3 mid']]]]; simpl in E; try discriminate E.
      injection E as -> -> -> -> _. simpl in E'. discriminate E'. }
    assert (Hp : Strings.dropPrefix fence (fence ++ mid ++ fence) = Some (mid ++ fence))
      by apply dropPrefix_app.
    rewrite Hnj. unfold Strings.HasPrefix, Strings.TrimPrefix. rewrite Hp, Hsuffix.
    now apply TrimSpace_padded.
Qed.

Lemma strip_unwraps_fenced_payload_witness :
  stripMarkdownCodeFences
    ([SPACE] ++ (fenceJSON ++ ([NL] ++ lit "{}" ++ [NL]) ++ fence) ++ [NL]) = lit "{}".
Proof.
  refine (proj1 (strip_unwraps_fenced_payload [SPACE] [NL] [NL] [NL] (lit "{}") _ _ _ _ _));
    try (repeat constructor); reflexivity.
Defined.

(** X5: a text with no white space at its ends and no fence marker at
    its start or end passes through fence stripping unchanged. *)
Theorem strip_keeps_unfenced_text (s : gostring) :
  Trimmed s ->
  Strings.HasPrefix s fence = false ->
  Strings.HasSuffix s fence = false ->
  stripMarkdownCodeFences s = s.
Proof. apply stripMarkdownCodeFences_no_fence. Qed.

Lemma strip_keeps_unfenced_text_witness :
  stripMarkdownCodeFences (lit "{ } `x`") = lit "{ } `x`".
Proof.
  apply strip_keeps_unfenced_text; [split|idtac|idtac]; reflexivity.
Defined.

(** ** Small helpers *)


Lemma Count_nonneg (s : gostring) (sep : ascii) : (0 <= Count s sep)%Z.
Proof. unfold Count. apply len_nonneg. Qed.

Lemma len_Split_Count (s : gostring) (sep : ascii) :
  len (Strings.Split s sep) = (Count s sep + 1)%Z.
Proof.
  unfold Count, len. induction s as [|c s IH]; [reflexivity|].
  cbn [Strings.Split filter]. rewrite (Ascii.eqb_sym sep c).
  destruct (Ascii.eqb c sep).
  - cbn [length]. lia.
  - destruct (Strings.Split s sep) as [|f fs] eqn:E;
      [exfalso; now apply (Split_nonempty s sep)|].
    cbn [length] in *. lia.
Qed.

Lemma Count_firstn (s : gostring) (sep : ascii) (k : nat) :
  (Count (firstn k s) sep <= Count s sep)%Z.
Proof.
  unfold Count, len. revert k; induction s as [|c s IH]; intros [|k];
    cbn [firstn filter length]; try lia.
  specialize (IH k). destruct (Ascii.eqb sep c); cbn [length]; lia.
Qed.

(** X7: [countLines] panics on empty content and on a negative
    position; on any other input it returns one more than the number
    of newlines before the position (a position at or past the end
    counts as the last byte), a value between 1 and the number of
    lines. *)
Theorem countLines_edges (content : gostring) (pos : Z) :
  (content = [] \/ pos < 0 -> countLines content pos = Panic)%Z
  /\ (content <> [] -> 0 <= pos ->
      exists n,
        countLines content pos = Ok n
        /\ n = Count (firstn (Z.to_nat (Z.min pos (len content - 1))) content) NL + 1
        /\ 1 <= n <= len (Strings.Split content NL))%Z.
Proof.
  unfold countLines. split.
  - intros [-> | Hneg].
    + change (len (@nil ascii)) with 0%Z.
      destruct (Z.leb_spec 0 pos); unfold sliceTo, slice; simpl.
      * reflexivity.
      * destruct (Z.leb_spec 0 pos); [lia | reflexivity].
    + pose proof (len_nonneg content).
      destruct (Z.leb_spec (len content) pos); [lia|].
      unfold sliceTo, slice. destruct (Z.leb_spec 0 pos); [lia | reflexivity].
  - intros Hne Hpos.
    assert (Hlen : (1 <= len content)%Z).
    { unfold len. destruct content; [contradiction | simpl; lia]. }
    set (p := if (len content <=? pos)%Z then (len content - 1)%Z else pos).
    assert (Hp : (p = Z.min pos (len content - 1) /\ 0 <= p <= len content)%Z).
    { unfold p. destruct (Z.leb_spec (len content) pos); lia. }
    destruct Hp as [Hp Hrange]. rewrite sliceTo_Some by lia. cbn [orPanic bind].
    eexists. split; [reflexivity|]. rewrite Hp. split; [reflexivity|].
    pose proof (Count_nonneg (firstn (Z.to_nat (Z.min pos (len content - 1))) content) NL).
    pose proof (Count_firstn content NL (Z.to_nat (Z.min pos (len content - 1)))).
    rewrite len_Split_Count. lia.
Qed.

Lemma countLines_edges_witness :
  exists n, countLines (lit "a" ++ [NL] ++ lit "b" ++ [NL] ++ lit "c") 3 = Ok n
            /\ (1 <= n <= 3)%Z.
Proof.
  destruct (proj2 (countLines_edges (lit "a" ++ [NL] ++ lit "b" ++ [NL] ++ lit "c") 3)
              ltac:(discriminate) ltac:(lia)) as (n & Hn & _ & Hr).
  exists n. split; [exact Hn | exact Hr].
Defined.

Lemma wrap64_range (z : Z) : (- 2 ^ 63 <= wrap64 z < 2 ^ 63)%Z.
Proof.
  unfold wrap64. pose proof (Z.mod_pos_bound (z + 2 ^ 63) (2 ^ 64) ltac:(lia)). lia.
Qed.

Lemma wrap64_small (z : Z) : (- 2 ^ 63 <= z < 2 ^ 63)%Z -> wrap64 z = z.
Proof.
  intros H. unfold wrap64. rewrite Z.mod_small by lia. lia.
Qed.

Lemma contextRows_Ok (lines : list gostring) (lineStart lineEnd : Z) (count : nat) :
  forall i,
    (0 <= i)%Z -> count = 0 \/ (i + Z.of_nat count <= len lines)%Z ->
    exists rows,
      contextRows lines lineStart lineEnd count i = Ok rows
      /\ map rowNumber rows = map (fun k => (i + 1 + Z.of_nat k)%Z) (seq 0 count)
      /\ Forall (fun r =>
                   nth_error lines (Z.to_nat (rowNumber r - 1)) = Some (rowText r)
                   /\ rowHighlighted r =
                      (lineStart <=? rowNumber r)%Z && (rowNumber r <=? lineEnd)%Z) rows.
Proof.
  induction count as [|count IH]; intros i Hi Hc.
  - exists []. repeat split; constructor.
  - cbn [contextRows].
    destruct Hc as [Hc|Hc]; [discriminate Hc|].
    destruct (index_Some lines i) as [line Hline]; [lia|].
    rewrite Hline. cbn [orPanic bind].
    destruct (IH (i + 1)%Z) as (rows & Hrows & Hnum & Hall); [lia | right; lia |].
    rewrite Hrows. cbn [bind]. eexists. split; [reflexivity|]. split.
    + cbn [map seq rowNumber]. f_equal; [lia|].
      rewrite Hnum, <- seq_shift, map_map. apply map_ext. intros k. lia.
    + constructor; [|exact Hall]. cbn [rowNumber rowText rowHighlighted].
      split; [|reflexivity].
      unfold index in Hline.
      destruct (Z.leb_spec 0 i); [|lia]. destruct (Z.ltb_spec i (len lines)); [|lia].
      simpl in Hline. replace (i + 1 - 1)%Z with i by lia. exact Hline.
Qed.

(** X8: [showCodeContext] never indexes outside the file, whatever
    line numbers the model reported (also at the limits of [int]):
    it shows consecutive lines of the file, each under its 1-based
    number, highlighted exactly when the number lies in the reported
    range; for a range inside the file these are the lines from two
    before the range to two after it, as far as the file goes. *)
Theorem showCodeContext_stays_in_file (lines : list gostring) (lineStart lineEnd : Z) :
  exists rows,
    showCodeContext lines lineStart lineEnd = Ok rows
    /\ Forall (fun r =>
                 nth_error lines (Z.to_nat (rowNumber r - 1)) = Some (rowText r)
                 /\ (1 <= rowNumber r <= len lines)%Z
                 /\ rowHighlighted r =
                    (lineStart <=? rowNumber r)%Z && (rowNumber r <=? lineEnd)%Z) rows
    /\ ((len lines < 2 ^ 62)%Z ->
        (1 <= lineStart <= lineEnd)%Z -> (lineEnd <= len lines)%Z ->
        let first := Z.max 1 (lineStart - 2) in
        let last := Z.min (len lines) (lineEnd + 2) in
        map rowNumber rows =
          map (fun k => (first + Z.of_nat k)%Z) (seq 0 (Z.to_nat (last - first + 1)))).
Proof.
  unfold showCodeContext.
  set (start := maxInt 0 (wrap64 (wrap64 (lineStart - 1) - 2))).
  set (stop := minInt (len lines) (wrap64 (lineEnd + 2))).
  pose proof (len_nonneg lines) as Hlen.
  assert (Hstart : (0 <= start)%Z).
  { unfold start, maxInt. destruct (Z.ltb_spec (wrap64 (wrap64 (lineStart - 1) - 2)) 0); lia. }
  assert (Hstop : (stop <= len lines)%Z).
  { unfold stop, minInt. destruct (Z.ltb_spec (len lines) (wrap64 (lineEnd + 2))); lia. }
  assert (Hfit : Z.to_nat (stop - start) = 0
                 \/ (start + Z.of_nat (Z.to_nat (stop - start)) <= len lines)%Z)
    by (clear - Hstart Hstop Hlen; clearbody start stop; lia).
  destruct (contextRows_Ok lines lineStart lineEnd (Z.to_nat (stop - start)) start
              Hstart Hfit) as (rows & Hrows & Hnum & Hall).
  exists rows. split; [exact Hrows|]. split.
  - assert (Hnums : Forall (fun n => (1 <= n <= len lines)%Z) (map rowNumber rows)).
    { rewrite Hnum. apply Forall_forall. intros n Hn.
      apply in_map_iff in Hn as (k & <- & Hk). apply in_seq in Hk. lia. }
    rewrite Forall_map in Hnums.
    rewrite Forall_forall in *. intros r Hr.
    destruct (Hall r Hr) as [H1 H2]. specialize (Hnums r Hr). auto.
  - intros Hbig Hrange Hend. cbv zeta.
    set (first := Z.max 1 (lineStart - 2)). set (last := Z.min (len lines) (lineEnd + 2)).
    rewrite Hnum.
    assert (Es : start = (first - 1)%Z).
    { unfold start, first, maxInt.
      rewrite (wrap64_small (lineStart - 1)) by lia.
      rewrite wrap64_small by lia.
      destruct (Z.ltb_spec (lineStart - 1 - 2) 0); lia. }
    assert (Ee : stop = last).
    { unfold stop, last, minInt. rewrite wrap64_small by lia.
      destruct (Z.ltb_spec (len lines) (lineEnd + 2)); lia. }
    rewrite Es, Ee. replace (last - (first - 1))%Z with (last - first + 1)%Z by lia.
    apply map_ext. intros k. lia.
Qed.

Lemma showCodeContext_stays_in_file_witness :
  exists rows,
    showCodeContext numberedLines 10 10 = Ok rows
    /\ map rowNumber rows = [8; 9; 10; 11; 12]%Z.
Proof.
  destruct (showCodeContext_stays_in_file numberedLines 10 10)
    as (rows & Hrows & _ & Hwin).
  exists rows. split; [exact Hrows|].
  exact (Hwin eq_refl ltac:(lia) ltac:(vm_compute; discriminate)).
Defined.

(** ** Static pre-scanner *)

Lemma Contains_infix (s sub : gostring) :
  Strings.Contains s sub = true <-> exists pre post, s = pre ++ sub ++ post.
Proof.
  split.
  - induction s as [|c s IH]; cbn [Strings.Contains]; intros H;
      apply orb_true_iff in H as [H|H].
    + unfold Strings.HasPrefix in H.
      destruct (Strings.dropPrefix sub []) as [r|] eqn:E; [|discriminate H].
      apply dropPrefix_Some in E. exists [], r. exact E.
    + discriminate H.
    + unfold Strings.HasPrefix in H.
      destruct (Strings.dropPrefix sub (c :: s)) as [r|] eqn:E; [|discriminate H].
      apply dropPrefix_Some in E. exists [], r. exact E.
    + destruct (IH H) as (pre & post & ->). exists (c :: pre), post. reflexivity.
  - intros (pre & post & ->). induction pre as [|c pre IH].
    + simpl app. destruct (sub ++ post) eqn:E; cbn [Strings.Contains];
        apply orb_true_iff; left; unfold Strings.HasPrefix; rewrite <- E;
        now rewrite dropPrefix_app.
    + cbn [app Strings.Contains]. apply orb_true_iff. right. exact IH.
Qed.

Lemma Contains_TrimSpace (line sub : gostring) :
  Strings.Contains line sub = false ->
  Strings.Contains (Strings.TrimSpace line) sub = false.
Proof.
  intros Hn. destruct (Strings.Contains (Strings.TrimSpace line) sub) eqn:E; [|reflexivity].
  apply Contains_infix in E as (pre & post & E).
  destruct (TrimSpace_infix line) as (a & b & Hl).
  assert (Hc : Strings.Contains line sub = true).
  { apply Contains_infix. exists (a ++ pre), (post ++ b).
    rewrite Hl, E. now rewrite <- !app_assoc. }
  congruence.
Qed.

Section StaticScannerFacts.
Variable unicodeUpper unicodeLower : gostring -> gostring.

Lemma lineFindings_shape (path : gostring) (n : Z) (line : gostring) (f : triadStaticFinding) :
  In f (lineFindings unicodeUpper unicodeLower path n line) ->
  sfFile f = path /\ sfLine f = n
  /\ (sfSeverity f = lit "High" \/ sfSeverity f = lit "Medium")
  /\ In (sfPattern f) staticPatterns.
Proof.
  unfold lineFindings. rewrite !in_app_iff.
  intros [H|[H|[H|[H|H]]]];
    match type of H with
    | In _ (if ?c then _ else _) => destruct c; [destruct H as [<-|[]]|destruct H]
    end; cbn; auto 10.
Qed.

Lemma scanLines_In (path : gostring) (lines : list gostring) (f : triadStaticFinding) :
  forall i,
    In f (scanLines unicodeUpper unicodeLower path i lines) ->
    exists k line,
      nth_error lines k = Some line
      /\ In f (lineFindings unicodeUpper unicodeLower path (i + 1 + Z.of_nat k) line).
Proof.
  induction lines as [|l lines IH]; intros i Hin; [contradiction|].
  cbn [scanLines] in Hin. apply in_app_iff in Hin as [Hin|Hin].
  - exists 0, l. split; [reflexivity|]. now replace (i + 1 + Z.of_nat 0)%Z with (i + 1)%Z by lia.
  - destruct (IH _ Hin) as (k & line & Hk & Hf). exists (S k), line.
    split; [exact Hk|].
    now replace (i + 1 + Z.of_nat (S k))%Z with (i + 1 + 1 + Z.of_nat k)%Z by lia.
Qed.

(** X9: every finding of the static pre-scanner points at a real line
    of one of the scanned files: its file is an entry of the map, its
    line number lies between 1 and the number of lines of that file,
    the tests fire on that very line, its severity is High or Medium
    and its pattern is one of the five names. *)
Theorem static_findings_point_into_files (codeByFile : list (gostring * gostring))
        (f : triadStaticFinding) :
  In f (runTriadStaticAnalysis unicodeUpper unicodeLower codeByFile) ->
  exists content line,
    In (sfFile f, content) codeByFile
    /\ (1 <= sfLine f <= len (Strings.Split content NL))%Z
    /\ nth_error (Strings.Split content NL) (Z.to_nat (sfLine f - 1)) = Some line
    /\ In f (lineFindings unicodeUpper unicodeLower (sfFile f) (sfLine f) line)
    /\ (sfSeverity f = lit "High" \/ sfSeverity f = lit "Medium")
    /\ In (sfPattern f) staticPatterns.
Proof.
  unfold runTriadStaticAnalysis. intros Hin.
  apply in_flat_map in Hin as ([path content] & Hentry & Hin).
  destruct (scanLines_In _ _ _ _ Hin) as (k & line & Hk & Hf).
  destruct (lineFindings_shape _ _ _ _ Hf) as (Hp & Hn & Hsev & Hpat).
  exists content, line. rewrite Hp, Hn.
  assert (Hlt : k < length (Strings.Split content NL))
    by (apply nth_error_Some; congruence).
  split; [exact Hentry|]. split; [unfold len; lia|].
  split; [replace (Z.to_nat (0 + 1 + Z.of_nat k - 1)) with k by lia; exact Hk|].
  split; [exact Hf|]. split; assumption.
Qed.

Lemma lineFindings_without_markers (path : gostring) (n : Z) (line : gostring) :
  (forall m, In m staticMarkers -> Strings.Contains line m = false) ->
  lineFindings unicodeUpper unicodeLower path n line = [].
Proof.
  intros Hm.
  assert (Ht : forall m, In m staticMarkers ->
                 Strings.Contains (Strings.TrimSpace line) m = false)
    by (intros m Hin; apply Contains_TrimSpace, Hm, Hin).
  unfold lineFindings, looksLikeSQLConcat, looksLikeFmtSprintfUserInput.
  rewrite (Ht (lit "exec.Command")) by (cbn; auto 10).
  rewrite (Ht (lit "tls.Config")) by (cbn; auto 10).
  rewrite (Ht (lit "+")) by (cbn; auto 10).
  rewrite (Ht (lit "fmt.Sprintf")) by (cbn; auto 10).
  rewrite (Ht (lit "http.ListenAndServe")) by (cbn; auto 10).
  cbn [andb orb negb app].
  match goal with |- context [if negb ?c then _ else _] => destruct c end; reflexivity.
Qed.

(** X10: code without any of the substrings exec.Command, tls.Config,
    +, fmt.Sprintf and http.ListenAndServe is never flagged: if no
    line of any scanned file contains one of them, the pre-scanner
    returns no finding. *)
Theorem static_scan_needs_a_marker (codeByFile : list (gostring * gostring)) :
  (forall path content line m,
      In (path, content) codeByFile -> In line (Strings.Split content NL) ->
      In m staticMarkers -> Strings.Contains line m = false) ->
  runTriadStaticAnalysis unicodeUpper unicodeLower codeByFile = [].
Proof.
  intros Hm. unfold runTriadStaticAnalysis.
  induction codeByFile as [|[path content] rest IH]; [reflexivity|].
  cbn [flat_map].
  rewrite IH by (intros p c line m Hin Hl Hk; apply (Hm p c line m); [now right | exact Hl | exact Hk]).
  rewrite app_nil_r.
  assert (Hlines : forall line, In line (Strings.Split content NL) ->
                     forall m, In m staticMarkers -> Strings.Contains line m = false)
    by (intros line Hl m Hmk; apply (Hm path content line m); [now left | exact Hl | exact Hmk]).
  clear IH Hm. generalize 0%Z as i.
  induction (Strings.Split content NL) as [|l ls IHl]; intros i; [reflexivity|].
  cbn [scanLines]. rewrite lineFindings_without_markers by (apply Hlines; now left).
  apply IHl. intros line Hl. apply Hlines. now right.
Qed.
End StaticScannerFacts.

Lemma static_findings_point_into_files_witness :
  exists content,
    In (lit "main.go", content) [(lit "main.go", tenLineFile)]
    /\ (1 <= 5 <= len (Strings.Split content NL))%Z.
Proof.
  destruct (static_findings_point_into_files noTable noTable [(lit "main.go", tenLineFile)]
              (mkFinding (lit "main.go") 5 "exec.Command" "High")
              ltac:(vm_compute; left; reflexivity))
    as (content & line & Hin & Hrange & _).
  exists content. split; [exact Hin | exact Hrange].
Defined.

Lemma static_scan_needs_a_marker_witness :
  runTriadStaticAnalysis noTable noTable
    [(lit "a.go", lit "package a" ++ [NL] ++ lit "func f() {}")] = [].
Proof.
  apply static_scan_needs_a_marker.
  intros path content line m [[= <- <-]|[]] Hline Hm.
  vm_compute in Hline.
  destruct Hline as [<-|[<-|[]]];
    vm_compute in Hm; repeat (destruct Hm as [<-|Hm]; [reflexivity|]); destruct Hm.
Defined.

(** ** Reading files and collecting results *)

Lemma mapStore_spec (m : list (gostring * gostring)) (k v : gostring) :
  NoDup (map fst m) ->
  NoDup (map fst (mapStore m k v))
  /\ (forall p c, In (p, c) (mapStore m k v) <->
                  (p = k /\ c = v) \/ (p <> k /\ In (p, c) m)).
Proof.
  induction m as [|[k' v'] m IH]; intros Hnd; cbn [mapStore].
  - split; [repeat constructor; intros []|].
    intros p c. split.
    + intros [[= <- <-]|[]]. now left.
    + intros [[-> ->]|[_ []]]. now left.
  - cbn [map fst] in Hnd. apply NoDup_cons_iff in Hnd as [Hk' Hnd].
    destruct (IH Hnd) as [IH1 IH2].
    destruct (bytes_eqb k' k) eqn:E.
    + apply bytes_eqb_eq in E. subst k'. split.
      * cbn [map fst]. now constructor.
      * intros p c. split.
        -- intros [[= <- <-]|Hin]; [now left|]. right. split; [|now right].
           intros ->. apply Hk'. apply (in_map fst) in Hin. exact Hin.
        -- intros [[-> ->]|[Hne [[= <- _]|Hin]]]; [now left | contradiction | now right].
    + assert (Hne : k' <> k) by (intros ->; rewrite (proj2 (bytes_eqb_eq k k)) in E; congruence).
      split.
      * cbn [map fst]. constructor; [|exact IH1].
        intros Hin. apply in_map_iff in Hin as ([p c] & Hp & Hin). cbn in Hp. subst p.
        apply IH2 in Hin as [[-> _]|[_ Hin]]; [contradiction|].
        apply Hk'. apply (in_map fst) in Hin. exact Hin.
      * intros p c. split.
        -- intros [[= <- <-]|Hin]; [right; split; [exact Hne | now left]|].
           apply IH2 in Hin as [H|[H1 H2]]; [now left | right; split; [exact H1 | now right]].
        -- intros [[-> ->]|[Hpk [[= <- <-]|Hin]]].
           ++ right. apply IH2. now left.
           ++ now left.
           ++ right. apply IH2. right. now split.
Qed.

Section CollectingProperties.
Variable W : World.
Variable P : Prompts.
Variable J : JSONCodec.
Variable unicodeUpper unicodeLower : gostring -> gostring.
Variable scanType : gostring.

Lemma readTriadFiles_entries (files : list gostring) :
  forall acc codeByFile,
    readTriadFiles W files acc = Ok codeByFile ->
    NoDup (map fst acc) ->
    (forall p c, In (p, c) acc -> readFile W p = Some c) ->
    NoDup (map fst codeByFile)
    /\ (forall p c, In (p, c) codeByFile <->
          In (p, c) acc
          \/ (In p files /\ readFile W p = Some c /\ (1 <= len c <= 100000)%Z)).
Proof.
  induction files as [|file files IH]; intros acc codeByFile Hread Hnd Hacc.
  - injection Hread as <-. split; [exact Hnd|]. intros p c. split; [now left|].
    intros [H|[[] _]]. exact H.
  - cbn [readTriadFiles] in Hread.
    destruct (readFile W file) as [content|] eqn:Hf; cbn [orErr bind] in Hread;
      [|discriminate].
    pose proof (len_nonneg content) as Hlen.
    destruct ((len content =? 0)%Z || (100000 <? len content)%Z) eqn:Hskip.
    + destruct (IH _ _ Hread Hnd Hacc) as [I1 I2]. split; [exact I1|].
      assert (Hbad : ~ (1 <= len content <= 100000)%Z).
      { apply orb_true_iff in Hskip as [H|H]; [apply Z.eqb_eq in H | apply Z.ltb_lt in H]; lia. }
      intros p c. rewrite I2. split.
      * intros [H|(H1 & H2 & H3)]; [now left | right; split; [now right | now split]].
      * intros [H|([<-|H1] & H2 & H3)]; [now left | | right; now split].
        rewrite Hf in H2. injection H2 as <-. contradiction.
    + apply orb_false_iff in Hskip as [H0 H1].
      apply Z.eqb_neq in H0. apply Z.ltb_ge in H1.
      destruct (mapStore_spec acc file content Hnd) as [S1 S2].
      assert (Hacc' : forall p c, In (p, c) (mapStore acc file content) ->
                        readFile W p = Some c).
      { intros p c Hin. apply S2 in Hin as [[-> ->]|[_ Hin]]; [exact Hf | now apply Hacc]. }
      destruct (IH _ _ Hread S1 Hacc') as [I1 I2]. split; [exact I1|].
      intros p c. rewrite I2, S2. split.
      * intros [[[-> ->]|[_ Hin]]|(Ha & Hb & Hc)].
        -- right. split; [now left|]. split; [exact Hf | lia].
        -- now left.
        -- right. split; [now right | now split].
      * intros [Hin|([<-|Ha] & Hb & Hc)].
        -- destruct (list_eq_dec ascii_dec p file) as [->|Hne].
           ++ left. left. split; [reflexivity|].
              apply Hacc in Hin. rewrite Hf in Hin. now injection Hin.
           ++ left. right. now split.
        -- left. left. split; [reflexivity|]. rewrite Hf in Hb. now injection Hb.
        -- right. now split.
Qed.

(** X11: the joint context of a triad scan holds exactly the input
    files that are neither empty nor longer than 100,000 bytes, each
    once and with its content, however often a path is listed. *)
Theorem triad_context_entries (files : list gostring)
        (codeByFile : list (gostring * gostring)) :
  readTriadFiles W files [] = Ok codeByFile ->
  NoDup (map fst codeByFile)
  /\ (forall p c, In (p, c) codeByFile <->
        In p files /\ readFile W p = Some c /\ (1 <= len c <= 100000)%Z).
Proof.
  intros Hread.
  destruct (readTriadFiles_entries files [] codeByFile Hread) as [H1 H2];
    [constructor | intros p c [] |].
  split; [exact H1|]. intros p c. rewrite H2. split; [intros [[]|H]; exact H | now right].
Qed.

Lemma readTriadFiles_all_skipped (files : list gostring) :
  Forall (fun file => exists content,
            readFile W file = Some content
            /\ (len content = 0 \/ 100000 < len content)%Z) files ->
  readTriadFiles W files [] = Ok [].
Proof.
  induction 1 as [|file files (content & Hf & Hc) _ IH]; [reflexivity|].
  cbn [readTriadFiles]. rewrite Hf. cbn [orErr bind].
  replace ((len content =? 0)%Z || (100000 <? len content)%Z) with true; [exact IH|].
  symmetry. apply orb_true_iff.
  destruct Hc as [Hc|Hc]; [left; now apply Z.eqb_eq | right; now apply Z.ltb_lt].
Qed.

(** X12: a triad scan with nothing to analyse (no file, or only empty
    and oversized ones) succeeds with the empty triad result, without
    asking the model: the result is the same whatever the model
    would answer. *)
Theorem triad_nothing_to_scan (files : list gostring) :
  Forall (fun file => exists content,
            readFile W file = Some content
            /\ (len content = 0 \/ 100000 < len content)%Z) files ->
  scanTriadFiles W P J unicodeUpper unicodeLower files = Ok (emptyResult triadMulti).
Proof.
  intros Hall. unfold scanTriadFiles, scanTriadFilesTrace.
  destruct (len files =? 0)%Z; [reflexivity|].
  rewrite (readTriadFiles_all_skipped files Hall). reflexivity.
Qed.

Lemma readTriadFiles_unreadable (files : list gostring) (file : gostring) :
  In file files -> readFile W file = None ->
  forall acc, readTriadFiles W files acc = Err ErrReadFile.
Proof.
  intros Hin Hf. induction files as [|f files IH]; intros acc; [contradiction|].
  cbn [readTriadFiles].
  destruct (readFile W f) as [content|] eqn:E; cbn [orErr bind]; [|reflexivity].
  destruct Hin as [->|Hin]; [congruence|].
  destruct ((len content =? 0)%Z || (100000 <? len content)%Z); now apply IH.
Qed.

(** X13: one unreadable file fails a whole triad scan with the read
    error, wherever the file stands in the list. *)
Theorem triad_unreadable_file_aborts (files : list gostring) (file : gostring) :
  In file files -> readFile W file = None ->
  scanTriadFiles W P J unicodeUpper unicodeLower files = Err ErrReadFile.
Proof.
  intros Hin Hf. unfold scanTriadFiles, scanTriadFilesTrace.
  destruct (len files =? 0)%Z eqn:E.
  { apply len_zero_iff in E. subst files. contradiction. }
  rewrite (readTriadFiles_unreadable files file Hin Hf). reflexivity.
Qed.

Lemma scanFile_FilePath (job : nat) (file : gostring) (r : ScanResult) :
  scanFileWithProgress W P J scanType job file = Ok r ->
  FilePath r = file /\ readFile W file <> None.
Proof.
  unfold scanFileWithProgress.
  destruct (readFile W file) as [content|]; cbn [orErr bind]; [|discriminate].
  intros H. split; [|discriminate].
  destruct (len content =? 0)%Z; [now injection H as <-|].
  destruct (100000 <? len content)%Z; [now injection H as <-|].
  destruct (isSecurity scanType).
  - destruct (Generate W (CallContext job) _); cbn [orErr bind] in H; [|discriminate].
    destruct (Generate W (CallScan job) _); cbn [orErr bind] in H; [|discriminate].
    destruct (decodeFindings J _); [|discriminate]. now injection H as <-.
  - destruct (Generate W (CallCustom job) _); cbn [orErr bind] in H; [|discriminate].
    now injection H as <-.
Qed.

Lemma scanJobs_length (files : list gostring) :
  forall job, length (scanJobs W P J scanType job files) <= length files.
Proof.
  induction files as [|file files IH]; intros job; [reflexivity|].
  cbn [scanJobs length]. specialize (IH (S job)).
  destruct (scanFileWithProgress W P J scanType job file); cbn [length]; lia.
Qed.

(** X14: in security and custom modes [ScanFiles] never returns an
    error; it returns at most one result per input file, every result
    belongs to an input file that could be read, and so an unreadable
    file has no result. *)
Theorem pooled_scan_results (files : list gostring) (ret : outcome (list ScanResult)) :
  isTriad scanType = false ->
  ScanFilesReturns W P J unicodeUpper unicodeLower scanType files ret ->
  exists results,
    ret = Ok results
    /\ length results <= length files
    /\ (forall r, In r results ->
          In (FilePath r) files /\ readFile W (FilePath r) <> None).
Proof.
  intros Ht Hret. destruct Hret as [Ht'|results _ Hperm]; [congruence|].
  exists results. split; [reflexivity|]. split.
  - rewrite <- (Permutation_length Hperm). apply scanJobs_length.
  - intros r Hin. apply (Permutation_in _ (Permutation_sym Hperm)) in Hin.
    destruct (scanJobs_In W P J scanType files 0 r Hin) as (job & file & Hfile & Hscan).
    destruct (scanFile_FilePath job file r Hscan) as [-> Hr]. now split.
Qed.

(** X15: in triad mode [ScanFiles] returns either the error of the
    triad scan or exactly one result, named triad:multi and without
    structured issues. *)
Theorem triad_scan_single_result (files : list gostring) (ret : outcome (list ScanResult)) :
  isTriad scanType = true ->
  ScanFilesReturns W P J unicodeUpper unicodeLower scanType files ret ->
  (exists e, ret = Err e)
  \/ (exists r, ret = Ok [r] /\ FilePath r = triadMulti /\ Issues r = []).
Proof.
  intros Ht Hret. destruct Hret as [_|results Ht' _]; [|congruence].
  unfold scanTriadFiles, scanTriadFilesTrace.
  destruct (len files =? 0)%Z; [right; eexists; cbn; auto|].
  destruct (readTriadFiles W files []) as [code|e|] eqn:Hread; cbn [bind].
  - destruct (len code =? 0)%Z; [right; eexists; cbn; auto|].
    destruct (triadLoop W P J _ 3 1%Z _) as [[st rs]|e|] eqn:Hloop; cbn [bind].
    + right. eexists. cbn. auto.
    + left. eauto.
    + exfalso. revert Hloop.
      cbn [triadLoop Z.leb Z.compare Pos.compare Pos.compare_cont Z.add Pos.add Pos.succ].
      unfold triadRound.
      repeat match goal with
             | |- context [orErr ?o ?e] => destruct o; cbn [orErr bind]
             | |- context [match decodeReport ?a ?b ?c with _ => _ end] =>
                 destruct (decodeReport a b c); cbn [bind]
             | |- context [if confidenceIsHigh ?r then _ else _] =>
                 destruct (confidenceIsHigh r); cbn [bind]
             end; discriminate.
  - left. eauto.
  - exfalso. revert Hread. generalize (@nil (gostring * gostring)).
    induction files as [|f fs IH]; intros acc; cbn [readTriadFiles]; [discriminate|].
    destruct (readFile W f); cbn [orErr bind]; [|discriminate].
    destruct (_ || _); apply IH.
Qed.
End CollectingProperties.

Lemma triad_context_entries_witness :
  NoDup (map fst [(lit "main.go", lit "package main")]).
Proof.
  exact (proj1 (triad_context_entries demoWorld
                  [lit "main.go"; lit "empty.go"; lit "main.go"]
                  [(lit "main.go", lit "package main")] eq_refl)).
Defined.

Lemma triad_nothing_to_scan_witness :
  scanTriadFiles demoWorld demoPrompts demoCodec noTable noTable [lit "empty.go"]
    = Ok (emptyResult triadMulti).
Proof.
  apply triad_nothing_to_scan. constructor; [|constructor].
  exists []. split; [reflexivity | left; reflexivity].
Defined.

Lemma triad_unreadable_file_aborts_witness :
  scanTriadFiles demoWorld demoPrompts demoCodec noTable noTable
    [lit "main.go"; lit "missing.go"] = Err ErrReadFile.
Proof.
  apply (triad_unreadable_file_aborts demoWorld demoPrompts demoCodec noTable noTable
           [lit "main.go"; lit "missing.go"] (lit "missing.go"));
    [right; left; reflexivity | reflexivity].
Defined.

Lemma demo_security_missing_returns :
  ScanFilesReturns demoWorld demoPrompts demoCodec noTable noTable (lit "security")
    [lit "missing.go"; lit "main.go"]
    (Ok [{| FilePath := lit "main.go"; RawFindings := lit "report";
            HasIssues := false; Issues := [] |}]).
Proof. apply ReturnsPool; [reflexivity | apply Permutation_refl]. Qed.

Lemma pooled_scan_results_witness :
  exists results,
    Ok [{| FilePath := lit "main.go"; RawFindings := lit "report";
           HasIssues := false; Issues := [] |}] = Ok results
    /\ length results <= 2.
Proof.
  destruct (pooled_scan_results demoWorld demoPrompts demoCodec noTable noTable
              (lit "security") [lit "missing.go"; lit "main.go"] _ eq_refl
              demo_security_missing_returns) as (results & Hret & Hlen & _).
  exists results. split; [exact Hret | exact Hlen].
Defined.

Lemma demo_triad_returns :
  ScanFilesReturns demoWorld demoPrompts demoCodec noTable noTable (lit "triad")
    [lit "empty.go"] (Ok [emptyResult triadMulti]).
Proof.
  exact (ReturnsTriad demoWorld demoPrompts demoCodec noTable noTable (lit "triad")
           [lit "empty.go"] eq_refl).
Qed.

Lemma triad_scan_single_result_witness :
  (exists e, Ok [emptyResult triadMulti] = @Err (list ScanResult) e)
  \/ (exists r, Ok [emptyResult triadMulti] = Ok [r]
                /\ FilePath r = triadMulti /\ Issues r = []).
Proof.
  exact (triad_scan_single_result demoWorld demoPrompts demoCodec noTable noTable
           (lit "triad") [lit "empty.go"] _ eq_refl demo_triad_returns).
Defined.

(** ** Fix applicator *)



Lemma minIndent_fold_attained (fixLines : list gostring) :
  forall acc,
    let m := fold_left minIndentStep fixLines acc in
    m = acc \/ exists l, In l fixLines /\ isBlank l = false /\ indentWidth l = m.
Proof.
  induction fixLines as [|x ls IH]; intros acc; cbn [fold_left]; cbv zeta; [now left|].
  destruct (IH (minIndentStep acc x)) as [H|(l & Hin & Hb & Hw)].
  - rewrite H. unfold minIndentStep. destruct (isBlank x) eqn:Eb; [now left|].
    destruct ((acc =? -1)%Z || (indentWidth x <? acc)%Z); [|now left].
    right. exists x. split; [now left | now split].
  - right. exists l. split; [now right | now split].
Qed.

(** X17: re-indentation of a fix: a blank fix line is written as an
    empty line; for every other fix line the indentation relative to
    the least indented line is non-negative (so no repeat count is
    negative); and when the fix has a non-blank line, a least
    indented one exists and is written as the original indentation
    followed by its trimmed text. *)
Theorem reindent_keeps_relative_indentation (originalIndent : gostring)
        (fixLines : list gostring) :
  (forall l, isBlank l = true ->
     reindentLine originalIndent (minFixIndentOf fixLines) l = [])
  /\ (forall l, In l fixLines -> isBlank l = false ->
        (0 <= indentWidth l - minFixIndentOf fixLines)%Z)
  /\ ((exists l, In l fixLines /\ isBlank l = false) ->
      exists l, In l fixLines /\ isBlank l = false
                /\ indentWidth l = minFixIndentOf fixLines
                /\ reindentLine originalIndent (minFixIndentOf fixLines) l
                   = originalIndent ++ Strings.TrimSpace l).
Proof.
  split; [|split].
  - intros l Hb. unfold reindentLine. unfold isBlank in Hb. now rewrite Hb.
  - apply relativeIndent_nonneg.
  - intros (l0 & Hin0 & Hb0).
    destruct (minIndent_fold fixLines (-1)%Z (or_introl eq_refl)) as (_ & _ & Hle).
    destruct (Hle l0 Hin0 Hb0) as [Hne _].
    destruct (minIndent_fold_attained fixLines (-1)%Z) as [H|(l & Hin & Hb & Hw)];
      [cbv zeta in H; congruence|].
    cbv zeta in Hw.
    assert (Hmin : minFixIndentOf fixLines = indentWidth l).
    { unfold minFixIndentOf. cbv zeta in Hne.
      destruct (Z.eqb_spec (fold_left minIndentStep fixLines (-1)%Z) (-1)) as [E|_];
        [contradiction | symmetry; exact Hw]. }
    exists l. split; [exact Hin|]. split; [exact Hb|]. split; [now rewrite Hmin|].
    unfold reindentLine. unfold isBlank in Hb. rewrite Hb, Hmin, Z.sub_diag.
    destruct (Strings.Contains originalIndent [TAB]); cbn [Z.quot Z.rem Z.to_nat Strings.Repeat app];
      now rewrite ?app_nil_r.
Qed.

Lemma reindent_keeps_relative_indentation_witness :
  exists l, In l [lit "    if x {"; lit "      y()"; lit "    }"]
            /\ reindentLine [TAB] (minFixIndentOf [lit "    if x {"; lit "      y()"; lit "    }"]) l
               = [TAB] ++ Strings.TrimSpace l.
Proof.
  destruct (proj2 (proj2 (reindent_keeps_relative_indentation [TAB]
              [lit "    if x {"; lit "      y()"; lit "    }"]))
              (ex_intro _ (lit "    if x {") (conj (or_introl eq_refl) eq_refl)))
    as (l & Hin & _ & _ & Hre).
  exists l. split; [exact Hin | exact Hre].
Defined.

(** X18: the reviewer and the applicator agree on the size of a fix:
    the code the reviewer extracts has no white space at its ends, so
    the lines the reviewer counts to widen the range are the lines
    [applyFix] splices in. *)
Theorem reviewer_counts_spliced_lines (issue : SecurityIssue) (lines : list gostring) :
  let fixText := SuggestedFix (prepareIssue issue lines) in
  Trimmed fixText
  /\ Strings.Split (Strings.TrimSuffix fixText [NL]) NL
     = Strings.Split (Strings.TrimSpace fixText) NL.
Proof.
  cbn [prepareIssue SuggestedFix].
  pose proof (extractCodeFromResponse_Trimmed (SuggestedFix issue)) as Ht.
  split; [exact Ht|].
  now rewrite (Trimmed_no_trailing_newline _ Ht), (Trimmed_TrimSpace _ Ht).
Qed.

Lemma clampLines_min_max (lineStart lineEnd n : Z) :
  clampLines lineStart lineEnd n =
  (Z.min n (Z.max 1 lineStart), Z.min n (Z.max (Z.min n (Z.max 1 lineStart)) lineEnd)).
Proof.
  unfold clampLines.
  destruct (Z.ltb_spec lineStart 1) as [H1|H1].
  - destruct (Z.ltb_spec n 1) as [H2|H2].
    + destruct (Z.ltb_spec lineEnd n) as [H3|H3];
        [destruct (Z.ltb_spec n n) | destruct (Z.ltb_spec n lineEnd)]; f_equal; lia.
    + destruct (Z.ltb_spec lineEnd 1) as [H3|H3];
        [destruct (Z.ltb_spec n 1) | destruct (Z.ltb_spec n lineEnd)]; f_equal; lia.
  - destruct (Z.ltb_spec n lineStart) as [H2|H2].
    + destruct (Z.ltb_spec lineEnd n) as [H3|H3];
        [destruct (Z.ltb_spec n n) | destruct (Z.ltb_spec n lineEnd)]; f_equal; lia.
    + destruct (Z.ltb_spec lineEnd lineStart) as [H3|H3];
        [destruct (Z.ltb_spec n lineStart) | destruct (Z.ltb_spec n lineEnd)]; f_equal; lia.
Qed.

Lemma prepareIssue_fix_lines (issue : SecurityIssue) (lines : list gostring) :
  Strings.Split (Strings.TrimSuffix (SuggestedFix (prepareIssue issue lines)) [NL]) NL
  = Strings.Split (Strings.TrimSpace (SuggestedFix (prepareIssue issue lines))) NL.
Proof.
  cbn [prepareIssue SuggestedFix].
  pose proof (extractCodeFromResponse_Trimmed (SuggestedFix issue)) as Ht.
  now rewrite (Trimmed_no_trailing_newline _ Ht), (Trimmed_TrimSpace _ Ht).
Qed.

Lemma spliceFix_length (lines : list gostring) (issue : SecurityIssue) :
  (1 <= len lines)%Z ->
  exists newLines,
    spliceFix lines issue = Ok newLines
    /\ len newLines
       = (fst (clampLines (LineStart issue) (LineEnd issue) (len lines)) - 1
          + len (Strings.Split (Strings.TrimSuffix (SuggestedFix issue) [NL]) NL)
          + (len lines - snd (clampLines (LineStart issue) (LineEnd issue) (len lines))))%Z.
Proof.
  intros Hn.
  pose proof (clampLines_bounds (LineStart issue) (LineEnd issue) _ Hn) as Hb.
  pose proof (spliceFix_Ok lines issue Hn) as Hs.
  destruct (clampLines (LineStart issue) (LineEnd issue) (len lines)) as [s e].
  cbn [fst snd]. destruct Hs as (line & _ & Hs).
  eexists. split; [exact Hs|].
  unfold len in *.
  rewrite !length_app, length_map, length_firstn, length_skipn. lia.
Qed.

(** X19: line count after an apply from the reviewer, for a reported
    range inside the file and a fix of [k] lines: a fix longer than
    the range that still fits below the start leaves the line count
    as it was (the range is widened to [k] lines); a fix longer than
    what is left of the file replaces everything from the start on;
    a fix no longer than the range shrinks the file by the
    difference. *)
Theorem reviewer_apply_line_count (lines : list gostring) (issue : SecurityIssue) :
  (len lines < 2 ^ 62)%Z ->
  (1 <= LineStart issue <= LineEnd issue)%Z ->
  (LineEnd issue <= len lines)%Z ->
  let k := len (Strings.Split
                  (Strings.TrimSpace (extractCodeFromResponse (SuggestedFix issue))) NL) in
  let range := (LineEnd issue - LineStart issue + 1)%Z in
  (k < 2 ^ 62)%Z ->
  exists newLines,
    spliceFix lines (prepareIssue issue lines) = Ok newLines
    /\ (range < k -> LineStart issue + k - 1 <= len lines -> len newLines = len lines)%Z
    /\ (range < k -> len lines < LineStart issue + k - 1 ->
        len newLines = LineStart issue - 1 + k)%Z
    /\ (k <= range -> len newLines = len lines - range + k)%Z.
Proof.
  intros Hbig Hrange Hend k range Hsmall.
  assert (Hn : (1 <= len lines)%Z) by lia.
  pose proof (prepareIssue_fix_lines issue lines) as Hsame.
  destruct (spliceFix_length lines (prepareIssue issue lines) Hn)
    as (newLines & Hs & Hlen).
  rewrite Hsame in Hlen. cbn [prepareIssue SuggestedFix LineStart LineEnd] in Hlen.
  fold k in Hlen.
  assert (Hk : (1 <= k)%Z) by apply len_Split_pos.
  exists newLines. split; [exact Hs|].
  rewrite (wrap64_small (LineEnd issue - LineStart issue)) in Hlen by lia.
  rewrite (wrap64_small (LineEnd issue - LineStart issue + 1)) in Hlen by lia.
  fold range in Hlen.
  destruct (Z.ltb_spec range k) as [Hlt|Hge].
  - (* the range is widened *)
    set (wide := wrap64 (wrap64 (LineStart issue + k) - 1)) in *.
    split; [|split]; [| |lia].
    + intros _ Hfit.
      assert (Ew : wide = (LineStart issue + k - 1)%Z).
      { unfold wide. rewrite (wrap64_small (LineStart issue + k)) by lia.
        rewrite wrap64_small by lia. reflexivity. }
      rewrite Ew in Hlen.
      destruct (Z.ltb_spec (len lines) (LineStart issue + k - 1)) as [|_]; [lia|].
      rewrite clampLines_min_max in Hlen. cbn [fst snd] in Hlen. lia.
    + intros _ Hover.
      assert (Ew : wide = (LineStart issue + k - 1)%Z).
      { unfold wide. rewrite (wrap64_small (LineStart issue + k)) by lia.
        rewrite wrap64_small by lia. reflexivity. }
      rewrite Ew in Hlen.
      destruct (Z.ltb_spec (len lines) (LineStart issue + k - 1)) as [_|]; [|lia].
      rewrite clampLines_min_max in Hlen. cbn [fst snd] in Hlen. lia.
  - split; [lia|]. split; [lia|]. intros _.
    rewrite clampLines_min_max in Hlen. cbn [fst snd] in Hlen. lia.
Qed.

Lemma reviewer_apply_line_count_witness :
  exists newLines,
    spliceFix numberedLines (prepareIssue (sampleIssue 10 10 threeLineFix) numberedLines)
      = Ok newLines
    /\ len newLines = len numberedLines.
Proof.
  destruct (reviewer_apply_line_count numberedLines (sampleIssue 10 10 threeLineFix)
              eq_refl ltac:(cbn; lia) ltac:(vm_compute; discriminate) eq_refl)
    as (newLines & Hs & Hsame & _).
  exists newLines. split; [exact Hs|].
  apply Hsame; vm_compute; [reflexivity | discriminate].
Defined.

(** ** Review session *)

Lemma applyFix_outcome (fs : FileStore) (issue : SecurityIssue) :
  (exists e, applyFix fs issue = Err e)
  \/ (exists data, applyFix fs issue =
        Ok {| fsFile := Some data; fsBackup := fsBackup fs; fsWritable := true |}).
Proof.
  unfold applyFix.
  destruct (negb (FixAvailable issue) || bytes_eqb (SuggestedFix issue) []); [left; eauto|].
  destruct (fsFile fs) as [content|]; cbn [orErr bind]; [|left; eauto].
  pose proof (spliceFix_Ok (Strings.Split content NL) issue (len_Split_pos content NL)) as Hs.
  destruct (clampLines _ _ _) as [s e]. destruct Hs as (line & _ & ->). cbn [bind].
  unfold writeFile. destruct (fsWritable fs); [right; eauto | left; eauto].
Qed.

Lemma isLast_false (st : reviewState) :
  isLast st = false -> S (currentIdx st) < length (rvFindings st).
Proof.
  unfold isLast, len. intros H. apply negb_false_iff in H. apply Z.ltb_lt in H. lia.
Qed.

Lemma applyChoice_fixStep (st : reviewState) (fs : FileStore) (issue : SecurityIssue) :
  applyChoice st fs issue =
  if negb (FixAvailable issue) then Continue st fs
  else if isApplied st (currentIdx st) then Continue st fs
  else match (if backupCreated st then Ok fs else writeBackup fs (rvContent st)) with
       | Err _ => Continue st fs
       | Panic => Crash
       | Ok fs1 => fixStep st issue fs1
       end.
Proof. reflexivity. Qed.

Lemma fixStep_cases (st : reviewState) (issue : SecurityIssue) (fs1 : FileStore) :
  (exists st1,
     fixStep st issue fs1 = Continue st1 fs1
     /\ rvFindings st1 = rvFindings st
     /\ currentIdx st1 = currentIdx st
     /\ backupCreated st1 = true)
  \/ (exists data,
        fixStep st issue fs1 =
          Return None {| fsFile := Some data; fsBackup := fsBackup fs1; fsWritable := true |}
        \/ exists st2,
             fixStep st issue fs1 =
               Continue st2 {| fsFile := Some data; fsBackup := fsBackup fs1;
                               fsWritable := true |}
             /\ rvFindings st2 = rvFindings st
             /\ currentIdx st2 = S (currentIdx st)
             /\ S (currentIdx st) < length (rvFindings st)
             /\ backupCreated st2 = true).
Proof.
  unfold fixStep.
  destruct (applyFix_outcome fs1 (prepareIssue issue (rvLines st))) as [[e ->]|[data ->]].
  - left. eexists. split; [reflexivity|]. cbn. auto.
  - right. exists data. cbn [fsFile]. cbv zeta.
    match goal with |- context [if isLast ?s then _ else _] =>
      destruct (isLast s) eqn:El; [now left|right] end.
    apply isLast_false in El. cbn in El.
    eexists. split; [reflexivity|]. cbn. auto.
Qed.

(** The three ways the apply key can end: nothing happens; the backup
    is in place but the fix fails; the fix is written. *)
Lemma applyChoice_cases (st : reviewState) (fs : FileStore) (issue : SecurityIssue) :
  applyChoice st fs issue = Continue st fs
  \/ exists fs1,
       ((backupCreated st = true /\ fs1 = fs)
        \/ (backupCreated st = false
            /\ fs1 = {| fsFile := fsFile fs; fsBackup := Some (rvContent st);
                        fsWritable := true |}))
       /\ ((exists st1,
              applyChoice st fs issue = Continue st1 fs1
              /\ rvFindings st1 = rvFindings st
              /\ currentIdx st1 = currentIdx st
              /\ backupCreated st1 = true)
           \/ (exists data,
                 applyChoice st fs issue =
                   Return None {| fsFile := Some data; fsBackup := fsBackup fs1;
                                  fsWritable := true |}
                 \/ exists st2,
                      applyChoice st fs issue =
                        Continue st2 {| fsFile := Some data; fsBackup := fsBackup fs1;
                                        fsWritable := true |}
                      /\ rvFindings st2 = rvFindings st
                      /\ currentIdx st2 = S (currentIdx st)
                      /\ S (currentIdx st) < length (rvFindings st)
                      /\ backupCreated st2 = true)).
Proof.
  rewrite applyChoice_fixStep.
  destruct (negb (FixAvailable issue)); [now left|].
  destruct (isApplied st (currentIdx st)); [now left|].
  destruct (backupCreated st) eqn:Eb.
  - right. exists fs. split; [now left | apply fixStep_cases].
  - unfold writeBackup. destruct (fsWritable fs) eqn:Ew; [|now left].
    right. eexists. split; [right; split; reflexivity | apply fixStep_cases].
Qed.

(** What one pass of the loop can do, for a cursor inside the list. *)
Lemma extractLines_Ok (lines : list gostring) (lineStart lineEnd : Z) :
  exists text, extractLines lines lineStart lineEnd = Ok text.
Proof.
  unfold extractLines.
  destruct (Z.ltb_spec lineStart 1) as [H1|H1]; simpl; [eauto|].
  destruct (Z.ltb_spec (len lines) lineStart) as [H2|H2]; simpl; [eauto|].
  destruct (Z.ltb_spec lineEnd lineStart) as [H3|H3]; simpl;
    [rewrite slice_Some by lia; simpl; eauto|].
  destruct (Z.ltb_spec (len lines) lineEnd) as [H4|H4]; simpl;
    rewrite slice_Some by lia; simpl; eauto.
Qed.

Lemma reviewLoopStep_cases (key : choice) (st : reviewState) (fs : FileStore) :
  currentIdx st < length (rvFindings st) ->
  (exists fs', reviewLoopStep key st fs = Return None fs' /\ (key = KeyApply \/ fs' = fs))
  \/ (exists st' fs',
        reviewLoopStep key st fs = Continue st' fs'
        /\ rvFindings st' = rvFindings st
        /\ currentIdx st' < length (rvFindings st')
        /\ (key = KeyApply \/ (fs' = fs /\ backupCreated st' = backupCreated st
                               /\ rvContent st' = rvContent st))).
Proof.
  intros Hidx. unfold reviewLoopStep.
  destruct (nth_error (rvFindings st) (currentIdx st)) as [issue|] eqn:E;
    [|apply nth_error_None in E; lia].
  assert (Hsame : exists st' fs', Continue st fs = Continue st' fs'
            /\ rvFindings st' = rvFindings st
            /\ currentIdx st' < length (rvFindings st')
            /\ (key = KeyApply \/ (fs' = fs /\ backupCreated st' = backupCreated st
                                   /\ rvContent st' = rvContent st)))
    by (exists st, fs; auto 10).
  destruct key.
  - destruct (applyChoice_cases st fs issue)
      as [->|(fs1 & _ & [(st1 & -> & H1 & H2 & _)
                        |(data & [->|(st2 & -> & H1 & H2 & H3 & _)])])].
    + right. exists st, fs. auto.
    + right. exists st1, fs1. rewrite H1, H2. auto.
    + left. eexists. split; [reflexivity | now left].
    + right. eexists. eexists. split; [reflexivity|]. rewrite H1, H2. auto.
  - destruct (negb (FixAvailable issue)); [right; exact Hsame|].
    destruct (extractLines_Ok (rvLines st) (LineStart issue) (LineEnd issue)) as [x Ex].
    rewrite Ex. right; exact Hsame.
  - destruct (isLast st) eqn:El; [left; exists fs; auto|].
    right. apply isLast_false in El. exists (withIdx st (S (currentIdx st))), fs. cbn. auto 10.
  - destruct (isLast st) eqn:El; [right; exact Hsame|].
    right. apply isLast_false in El. exists (withIdx st (S (currentIdx st))), fs. cbn. auto 10.
  - destruct (0 <? currentIdx st) eqn:Ep; [|right; exact Hsame].
    right. exists (withIdx st (currentIdx st - 1)), fs. cbn.
    split; [reflexivity|]. split; [reflexivity|]. split; [lia|]. auto.
  - left. exists fs. auto.
  - right. exact Hsame.
Qed.

Lemma reviewLoop_returns (keys : list choice) :
  forall st fs,
    currentIdx st < length (rvFindings st) ->
    exists e fs', reviewLoop keys st fs = Return e fs'
                  /\ (e = None \/ e = Some ErrReadInput).
Proof.
  induction keys as [|key keys IH]; intros st fs Hidx; cbn [reviewLoop].
  - eauto.
  - destruct (reviewLoopStep_cases key st fs Hidx)
      as [(fs' & -> & _)|(st' & fs' & -> & _ & Hidx' & _)]; [eauto|].
    now apply IH.
Qed.

Lemma sorted_cursor_in_range (findings : list SecurityIssue) :
  (len findings =? 0)%Z = false -> 0 < length (sortFindings findings).
Proof.
  intros E. rewrite <- (Permutation_length (sortFindings_perm findings)).
  destruct findings; [discriminate E | simpl; lia].
Qed.

(** X20: a review session always ends by returning, never by an index
    out of range, whatever findings, keys and file it is given; it
    returns without error, or with the read error of an unreadable
    file, or with the input error when the keys run out: a failed
    backup or a failed fix does not end it. *)
Theorem review_session_always_returns (findings : list SecurityIssue) (keys : list choice)
        (fs : FileStore) :
  exists e fs',
    ReviewFindings findings keys fs = Return e fs'
    /\ (e = None \/ e = Some ErrReadFile \/ e = Some ErrReadInput)
    /\ (e = Some ErrReadFile -> fsFile fs = None).
Proof.
  unfold ReviewFindings.
  destruct (len findings =? 0)%Z eqn:E.
  { exists None, fs. repeat split; auto. discriminate. }
  destruct (fsFile fs) as [content|] eqn:Hf.
  - match goal with |- context [reviewLoop keys ?s fs] =>
      destruct (reviewLoop_returns keys s fs) as (e & fs' & -> & He) end.
    + now apply sorted_cursor_in_range.
    + exists e, fs'. split; [reflexivity|]. split; [tauto|].
      intros ->. destruct He; discriminate.
  - exists (Some ErrReadFile), fs. auto.
Qed.

Lemma review_session_always_returns_witness :
  exists e fs',
    ReviewFindings [sampleIssue 10 10 threeLineFix] [KeyOther]
      {| fsFile := None; fsBackup := None; fsWritable := true |} = Return e fs'
    /\ e = Some ErrReadFile.
Proof.
  destruct (review_session_always_returns [sampleIssue 10 10 threeLineFix] [KeyOther]
              {| fsFile := None; fsBackup := None; fsWritable := true |})
    as (e & fs' & Hret & _ & _).
  exists e, fs'. split; [exact Hret|].
  cbn in Hret. now injection Hret as <- _.
Defined.

Lemma reviewLoop_without_apply (keys : list choice) :
  ~ In KeyApply keys ->
  forall st fs,
    currentIdx st < length (rvFindings st) ->
    exists e, reviewLoop keys st fs = Return e fs.
Proof.
  induction keys as [|key keys IH]; intros Hna st fs Hidx; cbn [reviewLoop]; [eauto|].
  assert (Hk : key <> KeyApply) by (intros ->; apply Hna; now left).
  assert (Hna' : ~ In KeyApply keys) by (intros H; apply Hna; now right).
  destruct (reviewLoopStep_cases key st fs Hidx)
    as [(fs' & -> & [Hk'| ->])|(st' & fs' & -> & _ & Hidx' & [Hk'|(-> & _)])];
    try contradiction; [eauto|].
  now apply IH.
Qed.

(** X21: only the apply key touches the disk: a session in which the
    apply key is never pressed returns the file store as it was
    given, file and backup untouched. *)
Theorem review_without_apply_changes_nothing (findings : list SecurityIssue)
        (keys : list choice) (fs : FileStore) :
  ~ In KeyApply keys ->
  exists e, ReviewFindings findings keys fs = Return e fs.
Proof.
  intros Hna. unfold ReviewFindings.
  destruct (len findings =? 0)%Z eqn:E; [eauto|].
  destruct (fsFile fs) as [content|]; [|eauto].
  apply reviewLoop_without_apply; [exact Hna|].
  now apply sorted_cursor_in_range.
Qed.

Lemma review_without_apply_changes_nothing_witness :
  exists e,
    ReviewFindings [sampleIssue 10 10 threeLineFix] [KeyNext; KeyShow; KeyPrevious; KeyIgnore]
      twentyLineStore = Return e twentyLineStore.
Proof.
  apply review_without_apply_changes_nothing.
  intros [H|[H|[H|[H|[]]]]]; discriminate H.
Defined.

Lemma reviewLoop_backup (content : gostring) (fs0 : FileStore) (keys : list choice) :
  forall st fs,
    currentIdx st < length (rvFindings st) ->
    (backupCreated st = false /\ fs = fs0 /\ rvContent st = content)
    \/ (backupCreated st = true /\ fsBackup fs = Some content) ->
    exists e fs', reviewLoop keys st fs = Return e fs'
                  /\ (fs' = fs0 \/ fsBackup fs' = Some content).
Proof.
  induction keys as [|key keys IH]; intros st fs Hidx Hinv; cbn [reviewLoop].
  { eexists. eexists. split; [reflexivity|]. destruct Hinv as [(_ & -> & _)|[_ H]]; auto. }
  assert (Hfinal : fs = fs0 \/ fsBackup fs = Some content)
    by (destruct Hinv as [(_ & -> & _)|[_ H]]; auto).
  destruct (reviewLoopStep_cases key st fs Hidx)
    as [(fs' & Hstep & Hk)|(st' & fs' & Hstep & _ & Hidx' & Hk)].
  - destruct Hk as [->| ->]; [|rewrite Hstep; eauto].
    (* apply on the last finding *)
    clear Hstep. unfold reviewLoopStep.
    destruct (nth_error (rvFindings st) (currentIdx st)) as [issue|] eqn:E;
      [|apply nth_error_None in E; lia].
    destruct (applyChoice_cases st fs issue)
      as [->|(fs1 & Hfs1 & [(st1 & -> & H1 & H2 & H3)
                           |(data & [->|(st2 & -> & H1 & H2 & H3 & H4)])])].
    + apply IH; assumption.
    + apply IH; [rewrite H1, H2; exact Hidx|]. right. split; [exact H3|].
      destruct Hfs1 as [[Hb ->]|[Hb ->]].
      * destruct Hinv as [(Hb' & _)|[_ H]]; [congruence | exact H].
      * destruct Hinv as [(_ & _ & Hc)|[Hb' _]]; [cbn; now rewrite Hc | congruence].
    + eexists. eexists. split; [reflexivity|]. right. cbn [fsBackup].
      destruct Hfs1 as [[Hb ->]|[Hb ->]].
      * destruct Hinv as [(Hb' & _)|[_ H]]; [congruence | exact H].
      * destruct Hinv as [(_ & _ & Hc)|[Hb' _]]; [cbn; now rewrite Hc | congruence].
    + apply IH; [rewrite H1, H2; exact H3|]. right. split; [exact H4|]. cbn [fsBackup].
      destruct Hfs1 as [[Hb ->]|[Hb ->]].
      * destruct Hinv as [(Hb' & _)|[_ H]]; [congruence | exact H].
      * destruct Hinv as [(_ & _ & Hc)|[Hb' _]]; [cbn; now rewrite Hc | congruence].
  - destruct Hk as [->|(-> & Hb & Hc)]; [|rewrite Hstep; apply IH;
                                           [exact Hidx' | rewrite Hb, Hc; exact Hinv]].
    clear Hstep Hidx' st' fs'. unfold reviewLoopStep.
    destruct (nth_error (rvFindings st) (currentIdx st)) as [issue|] eqn:E;
      [|apply nth_error_None in E; lia].
    destruct (applyChoice_cases st fs issue)
      as [->|(fs1 & Hfs1 & [(st1 & -> & H1 & H2 & H3)
                           |(data & [->|(st2 & -> & H1 & H2 & H3 & H4)])])].
    + apply IH; assumption.
    + apply IH; [rewrite H1, H2; exact Hidx|]. right. split; [exact H3|].
      destruct Hfs1 as [[Hb ->]|[Hb ->]].
      * destruct Hinv as [(Hb' & _)|[_ H]]; [congruence | exact H].
      * destruct Hinv as [(_ & _ & Hc)|[Hb' _]]; [cbn; now rewrite Hc | congruence].
    + eexists. eexists. split; [reflexivity|]. right. cbn [fsBackup].
      destruct Hfs1 as [[Hb ->]|[Hb ->]].
      * destruct Hinv as [(Hb' & _)|[_ H]]; [congruence | exact H].
      * destruct Hinv as [(_ & _ & Hc)|[Hb' _]]; [cbn; now rewrite Hc | congruence].
    + apply IH; [rewrite H1, H2; exact H3|]. right. split; [exact H4|]. cbn [fsBackup].
      destruct Hfs1 as [[Hb ->]|[Hb ->]].
      * destruct Hinv as [(Hb' & _)|[_ H]]; [congruence | exact H].
      * destruct Hinv as [(_ & _ & Hc)|[Hb' _]]; [cbn; now rewrite Hc | congruence].
Qed.

(** X22: the backup is taken once and from the original: however the
    session goes, it leaves the file store either untouched or with a
    backup that holds the content the file had when the review
    started, so the file is never changed without that backup. *)
Theorem review_backup_holds_original (findings : list SecurityIssue) (keys : list choice)
        (fs : FileStore) (content : gostring) :
  fsFile fs = Some content ->
  exists e fs',
    ReviewFindings findings keys fs = Return e fs'
    /\ (fs' = fs \/ fsBackup fs' = Some content).
Proof.
  intros Hf. unfold ReviewFindings.
  destruct (len findings =? 0)%Z eqn:E; [eauto|].
  rewrite Hf. apply reviewLoop_backup.
  - now apply sorted_cursor_in_range.
  - left. cbn. auto.
Qed.

Lemma review_backup_holds_original_witness :
  exists e fs',
    ReviewFindings [sampleIssue 10 10 threeLineFix] [KeyApply] twentyLineStore = Return e fs'
    /\ (fs' = twentyLineStore \/ fsBackup fs' = Some twentyLines).
Proof.
  exact (review_backup_holds_original [sampleIssue 10 10 threeLineFix] [KeyApply]
           twentyLineStore twentyLines eq_refl).
Defined.

(** ** Custom prompt header *)

Section CustomPromptFacts.
Variable unicodeUpper unicodeLower : gostring -> gostring.

(** Upper-casing maps no rune other than a letter of MODE to one, so
    a text whose upper-case form starts with the header has at least
    its five bytes. *)
Hypothesis upper_header_length :
  forall s, Strings.HasPrefix (unicodeUpper s) (lit "MODE:") = true -> (5 <= len s)%Z.

Lemma SplitN2_shape (s : gostring) (sep : ascii) :
  (exists a, SplitN2 s sep = [a]) \/ (exists a b, SplitN2 s sep = [a; b]).
Proof.
  induction s as [|c s IH]; cbn [SplitN2]; [left; eauto|].
  destruct (Ascii.eqb c sep); [right; eauto|].
  destruct IH as [[a ->]|(a & b & ->)]; [left | right]; eauto.
Qed.

Lemma ToUpper_header_length (s : gostring) :
  Strings.HasPrefix (ToUpper unicodeUpper s) (lit "MODE:") = true -> (5 <= len s)%Z.
Proof.
  unfold ToUpper. destruct (Strings.isASCII s); [|apply upper_header_length].
  unfold Strings.HasPrefix. intros H.
  destruct (Strings.dropPrefix (lit "MODE:") (map Strings.asciiUpper s)) as [r|] eqn:E;
    [|discriminate H].
  apply dropPrefix_Some in E. apply (f_equal (@length ascii)) in E.
  rewrite length_map, length_app in E. unfold len. cbn in E. lia.
Qed.

(** X23: [parseCustomPrompt] always returns one of the modes ask,
    edit and plan together with a body that has no white space at its
    ends; a blank prompt gives mode ask and an empty body, and a
    prompt whose first line is not a MODE: header is passed on whole,
    trimmed, in mode ask. *)
Theorem parseCustomPrompt_modes (raw : gostring) :
  exists mode body,
    parseCustomPrompt unicodeUpper unicodeLower raw = Ok (mode, body)
    /\ isKnownMode mode = true
    /\ Trimmed body
    /\ (Strings.TrimSpace raw = [] -> mode = lit "ask" /\ body = [])
    /\ (forall first rest,
          SplitN2 (Strings.TrimSpace raw) NL = first :: rest ->
          Strings.HasPrefix (ToUpper unicodeUpper (Strings.TrimSpace first)) (lit "MODE:")
            = false ->
          mode = lit "ask" /\ body = Strings.TrimSpace raw).
Proof.
  unfold parseCustomPrompt.
  destruct (bytes_eqb (Strings.TrimSpace raw) []) eqn:E.
  { apply bytes_eqb_eq in E. exists (lit "ask"), []. split; [reflexivity|].
    split; [reflexivity|]. split; [split; reflexivity|]. split; [auto|].
    intros first rest _ _. now rewrite E. }
  assert (Hne : Strings.TrimSpace raw <> []).
  { intros H. rewrite H in E. discriminate E. }
  set (trimmed := Strings.TrimSpace raw) in *.
  assert (Hfirst : exists first rest, SplitN2 trimmed NL = first :: rest
                     /\ (rest = [] \/ exists second, rest = [second])).
  { destruct (SplitN2_shape trimmed NL) as [[a ->]|(a & b & ->)]; eauto 6. }
  destruct Hfirst as (first & rest & Hsplit & Hrest). rewrite Hsplit.
  change (index (first :: rest) 0) with (Some first). cbn [orPanic bind].
  destruct (Strings.HasPrefix (ToUpper unicodeUpper (Strings.TrimSpace first)) (lit "MODE:"))
    eqn:Hhead.
  - pose proof (ToUpper_header_length _ Hhead) as Hlen.
    rewrite sliceFrom_Some by (change (len (lit "MODE:")) with 5%Z; lia).
    cbn [orPanic bind].
    assert (Hbody : exists body,
              (if (1 <? len (first :: rest))%Z
               then second <- orPanic (index (first :: rest) 1) ;;
                    Ok (Strings.TrimSpace second)
               else Ok []) = Ok body /\ Trimmed body).
    { destruct Hrest as [->|[second ->]].
      - exists []. split; [reflexivity | split; reflexivity].
      - exists (Strings.TrimSpace second). split; [reflexivity | apply TrimSpace_Trimmed]. }
    destruct Hbody as (body & -> & Hb). cbn [bind].
    match goal with |- context [if isKnownMode ?m then _ else _] =>
      destruct (isKnownMode m) eqn:Hm; [exists m, body | exists (lit "ask"), body] end;
      (split; [reflexivity|]; split; [assumption || reflexivity|]; split; [exact Hb|];
       split; [intros H; contradiction|];
       intros f r [= <- <-] Hf; congruence).
  - exists (lit "ask"), trimmed. split; [reflexivity|]. split; [reflexivity|].
    split; [apply TrimSpace_Trimmed|]. split; [intros H; contradiction|]. auto.
Qed.
End CustomPromptFacts.

Lemma noTable_header_length (s : gostring) :
  Strings.HasPrefix (noTable s) (lit "MODE:") = true -> (5 <= len s)%Z.
Proof.
  unfold noTable, Strings.HasPrefix. intros H.
  destruct (Strings.dropPrefix (lit "MODE:") s) as [r|] eqn:E; [|discriminate H].
  apply dropPrefix_Some in E. subst s. unfold len. rewrite length_app. cbn. lia.
Qed.

Lemma parseCustomPrompt_modes_witness :
  exists mode body,
    parseCustomPrompt noTable noTable (lit "mode: Edit" ++ [NL] ++ lit " rename x ")
      = Ok (mode, body)
    /\ isKnownMode mode = true.
Proof.
  destruct (parseCustomPrompt_modes noTable noTable noTable_header_length
              (lit "mode: Edit" ++ [NL] ++ lit " rename x "))
    as (mode & body & Hp & Hm & _).
  exists mode, body. split; [exact Hp | exact Hm].
Defined.

(** ** Numbered source and rendered findings *)

Lemma uint_no_newline (d : Decimal.uint) :
  ~ In NL (list_ascii_of_string (NilEmpty.string_of_uint d)).
Proof.
  induction d; cbn [NilEmpty.string_of_uint list_ascii_of_string]; intros Hin;
    [exact Hin | destruct Hin as [Hx|Hx]; [discriminate Hx | auto] ..].
Qed.

Lemma itoa_no_newline (n : Z) : ~ In NL (itoa n).
Proof.
  unfold itoa, lit.
  assert (Hu : forall d, ~ In NL (list_ascii_of_string (NilZero.string_of_uint d))).
  { intros d. unfold NilZero.string_of_uint.
    destruct d; try apply uint_no_newline.
    cbn. intros [H|[]]. discriminate H. }
  destruct (Z.to_int n) as [d|d]; cbn [NilZero.string_of_int list_ascii_of_string].
  - apply Hu.
  - intros [H|H]; [discriminate H | now apply (Hu d)].
Qed.

Lemma numberedLabel_no_newline (i : Z) (line : gostring) :
  ~ In NL line -> ~ In NL (padLeft 4 (itoa (i + 1)) ++ lit " | " ++ line).
Proof.
  intros Hl. unfold padLeft. rewrite !in_app_iff.
  intros [[H|H]|[H|H]].
  - revert H. apply Repeat_no_newline. discriminate.
  - now apply (itoa_no_newline (i + 1)).
  - cbn in H. intuition discriminate.
  - contradiction.
Qed.

Lemma Split_numberLinesFrom (lines : list gostring) :
  Forall (fun line => ~ In NL line) lines ->
  forall i,
    length (Strings.Split (numberLinesFrom i lines) NL) = S (length lines)
    /\ nth_error (Strings.Split (numberLinesFrom i lines) NL) (length lines) = Some []
    /\ forall k line,
         nth_error lines k = Some line ->
         nth_error (Strings.Split (numberLinesFrom i lines) NL) k
         = Some (padLeft 4 (itoa (i + Z.of_nat k + 1)) ++ lit " | " ++ line).
Proof.
  induction 1 as [|line lines Hl _ IH]; intros i.
  - repeat split. intros [|k] l H; discriminate H.
  - cbn [numberLinesFrom]. unfold numberedLine.
    replace ((padLeft 4 (itoa (i + 1)) ++ lit " | " ++ line ++ [NL])
             ++ numberLinesFrom (i + 1) lines)
      with ((padLeft 4 (itoa (i + 1)) ++ lit " | " ++ line)
            ++ NL :: numberLinesFrom (i + 1) lines)
      by (now rewrite <- !app_assoc).
    rewrite Split_app_sep by (now apply numberedLabel_no_newline).
    destruct (IH (i + 1)%Z) as (I1 & I2 & I3).
    split; [cbn [length]; now rewrite I1|]. split; [exact I2|].
    intros [|k] l Hk; cbn [nth_error] in *.
    + injection Hk as ->. now replace (i + Z.of_nat 0 + 1)%Z with (i + 1)%Z by lia.
    + rewrite (I3 k l Hk).
      now replace (i + 1 + Z.of_nat k + 1)%Z with (i + Z.of_nat (S k) + 1)%Z by lia.
Qed.

(** X24: the numbered source keeps every line under the number the
    fix applicator uses for it: splitting the output of
    [addLineNumbers] at newlines gives, for each line [k] (counted
    from 1) of the content, its number printed in a field of four,
    a bar and the unchanged text, followed by one empty field for the
    final newline. *)
Theorem addLineNumbers_labels_lines (content : gostring) :
  let lines := Strings.Split content NL in
  let numbered := Strings.Split (addLineNumbersText content) NL in
  len numbered = (len lines + 1)%Z
  /\ (forall k line,
        nth_error lines k = Some line ->
        index lines (Z.of_nat (S k) - 1) = Some line
        /\ nth_error numbered k
           = Some (padLeft 4 (itoa (Z.of_nat (S k))) ++ lit " | " ++ line))
  /\ nth_error numbered (length lines) = Some [].
Proof.
  intros lines numbered. subst numbered. unfold addLineNumbersText. fold lines.
  destruct (Split_numberLinesFrom lines (Split_fields_no_sep content NL) 0)
    as (H1 & H2 & H3).
  split; [unfold len; rewrite H1; lia|]. split; [|exact H2].
  intros k line Hk.
  assert (Hlt : k < length lines) by (apply nth_error_Some; congruence).
  split.
  - unfold index, len.
    destruct (Z.leb_spec 0 (Z.of_nat (S k) - 1)); [|lia].
    destruct (Z.ltb_spec (Z.of_nat (S k) - 1) (Z.of_nat (length lines))); [|lia].
    cbn [andb]. replace (Z.to_nat (Z.of_nat (S k) - 1)) with k by lia. exact Hk.
  - rewrite (H3 k line Hk). now replace (0 + Z.of_nat k + 1)%Z with (Z.of_nat (S k)) by lia.
Qed.

Lemma addLineNumbers_labels_lines_witness :
  nth_error (Strings.Split (addLineNumbersText (lit "a" ++ [NL] ++ lit "b")) NL) 1
  = Some (lit "   2 | b").
Proof.
  exact (proj2 (proj1 (proj2 (addLineNumbers_labels_lines (lit "a" ++ [NL] ++ lit "b")))
                  1 (lit "b") eq_refl)).
Defined.

Lemma bySeverity_known (issues : list SecurityIssue) (sev : gostring) :
  In sev severityOrder ->
  bySeverity (filter isKnownSeverity issues) sev = bySeverity issues sev.
Proof.
  intros Hsev. unfold bySeverity. induction issues as [|x l IH]; [reflexivity|].
  cbn [filter]. destruct (bytes_eqb (Severity x) sev) eqn:E.
  - assert (Hk : isKnownSeverity x = true).
    { unfold isKnownSeverity. apply existsb_exists. exists sev. now split. }
    rewrite Hk. cbn [filter]. now rewrite E, IH.
  - destruct (isKnownSeverity x); cbn [filter]; now rewrite ?E, IH.
Qed.

Lemma flat_map_ext_In {A B} (f g : A -> list B) (l : list A) :
  (forall a, In a l -> f a = g a) -> flat_map f l = flat_map g l.
Proof.
  induction l as [|a l IH]; intros H; [reflexivity|].
  cbn [flat_map]. rewrite (H a) by now left. rewrite IH; [reflexivity|].
  intros b Hb. apply H. now right.
Qed.

Lemma render_known_only (issues : list SecurityIssue) :
  flat_map (fun sev => flat_map (renderIssue sev)
                         (bySeverity (filter isKnownSeverity issues) sev)) severityOrder
  ++ lit "Summary:" ++ [NL]
  ++ flat_map (renderSummaryLine (filter isKnownSeverity issues)) severityOrder
  = flat_map (fun sev => flat_map (renderIssue sev) (bySeverity issues sev)) severityOrder
    ++ lit "Summary:" ++ [NL]
    ++ flat_map (renderSummaryLine issues) severityOrder.
Proof.
  f_equal; [|f_equal; f_equal]; apply flat_map_ext_In; intros sev Hsev.
  - now rewrite bySeverity_known.
  - unfold renderSummaryLine. now rewrite bySeverity_known.
Qed.

(** X25: [renderFindings] answers with the sentence that no issue was
    found exactly when the list is empty; any non-empty list gets the
    report header. *)
Theorem renderFindings_empty_iff (issues : list SecurityIssue) :
  (renderFindingsText issues = noIssuesText <-> issues = [])
  /\ (issues <> [] -> exists rest, renderFindingsText issues = renderHeader ++ rest).
Proof.
  unfold renderFindingsText. destruct issues as [|x l].
  - split; [split; reflexivity|]. intros H. now contradiction H.
  - change (len (x :: l) =? 0)%Z with false. cbv iota. split.
    + split; [|discriminate]. intros H. exfalso.
      apply (f_equal (@hd_error ascii)) in H. discriminate H.
    + intros _. eexists. reflexivity.
Qed.

Lemma renderFindings_empty_iff_witness :
  exists rest, renderFindingsText [sampleIssue 3 4 []] = renderHeader ++ rest.
Proof.
  exact (proj2 (renderFindings_empty_iff [sampleIssue 3 4 []]) ltac:(discriminate)).
Defined.

(** X26: findings whose severity is not exactly CRITICAL, HIGH,
    MEDIUM or LOW are left out of the rendered report and of its
    counts: a non-empty list renders like its findings of known
    severity, and when none has one the report is the header followed
    by an empty summary. *)
Theorem renderFindings_drops_unknown_severity (issues : list SecurityIssue) :
  issues <> [] ->
  (filter isKnownSeverity issues <> [] ->
   renderFindingsText issues = renderFindingsText (filter isKnownSeverity issues))
  /\ (filter isKnownSeverity issues = [] ->
      renderFindingsText issues = renderHeader ++ lit "Summary:" ++ [NL]).
Proof.
  intros Hne. unfold renderFindingsText at 1 3.
  destruct (len issues =? 0)%Z eqn:E; [apply len_zero_iff in E; contradiction|].
  rewrite <- render_known_only. split.
  - intros Hk. unfold renderFindingsText.
    destruct (len (filter isKnownSeverity issues) =? 0)%Z eqn:E';
      [apply len_zero_iff in E'; contradiction | reflexivity].
  - intros ->. reflexivity.
Qed.

Lemma renderFindings_drops_unknown_severity_witness :
  let odd :=
    {| Severity := lit "high"; Title := lit "t"; Description := lit "d";
       LineStart := 1; LineEnd := 1; Recommendation := lit "r";
       Confidence := []; IssueID := []; SuggestedFix := []; FixAvailable := false |} in
  renderFindingsText [odd] = renderHeader ++ lit "Summary:" ++ [NL].
Proof.
  intros odd.
  exact (proj2 (renderFindings_drops_unknown_severity [odd] ltac:(discriminate)) eq_refl).
Defined.

(** ** Extracting the code of a suggested fix *)

Lemma removeAllFuel_absent (c : ascii) (old' s : gostring) (fuel : nat) :
  ~ In c s -> Strings.removeAllFuel fuel s (c :: old') = s.
Proof.
  revert s; induction fuel as [|fuel IH]; intros s Hn; [reflexivity|].
  cbn [Strings.removeAllFuel].
  destruct (Strings.dropPrefix (c :: old') s) as [r|] eqn:E.
  - apply dropPrefix_Some in E. exfalso. apply Hn. rewrite E. now left.
  - destruct s as [|x s]; [reflexivity|]. rewrite IH; [reflexivity|].
    intros H. apply Hn. now right.
Qed.

Lemma collectCodeLines_no_marker (lines : list gostring) :
  Forall (fun line => Strings.HasPrefix (Strings.TrimSpace line) (lit "CODE:") = false) lines ->
  collectCodeLines false lines = [].
Proof.
  induction 1 as [|line lines Hl _ IH]; [reflexivity|].
  cbn [collectCodeLines]. now rewrite Hl.
Qed.

(** X27: ordinary code is left alone by the extractor: a suggested
    fix without a CODE: marker line and without a backtick comes back
    as it is, only trimmed of the white space at its ends. *)
Theorem extractCode_keeps_plain_code (response : gostring) :
  Forall (fun line => Strings.HasPrefix (Strings.TrimSpace line) (lit "CODE:") = false)
         (Strings.Split response NL) ->
  ~ In (byte_of 96) response ->
  extractCodeFromResponse response = Strings.TrimSpace response.
Proof.
  intros Hm Hb. unfold extractCodeFromResponse.
  rewrite (collectCodeLines_no_marker _ Hm). change (len (@nil gostring) =? 0)%Z with true.
  cbv iota.
  pose proof (TrimSpace_keeps_out response (byte_of 96) Hb) as Ht.
  unfold Strings.RemoveAll.
  change (lit "```go") with (byte_of 96 :: lit "``go").
  change (lit "```python") with (byte_of 96 :: lit "``python").
  change (lit "```java") with (byte_of 96 :: lit "``java").
  change (lit "```javascript") with (byte_of 96 :: lit "``javascript").
  change fence with (byte_of 96 :: lit "``").
  repeat rewrite (fun old' fuel =>
                    removeAllFuel_absent (byte_of 96) old' (Strings.TrimSpace response) fuel Ht).
  apply Trimmed_TrimSpace, TrimSpace_Trimmed.
Qed.

Lemma extractCode_keeps_plain_code_witness :
  extractCodeFromResponse (lit "  return nil" ++ [NL]) = lit "return nil".
Proof.
  rewrite extractCode_keeps_plain_code; [reflexivity | |].
  - repeat constructor.
  - vm_compute. intuition discriminate.
Defined.

(** ** Wrapping of descriptions *)

Lemma wordsWeight_app (a b : list gostring) :
  wordsWeight (a ++ b) = (wordsWeight a + wordsWeight b)%Z.
Proof.
  unfold wordsWeight. induction a as [|w a IH]; cbn [fold_right app]; [reflexivity|].
  rewrite IH. lia.
Qed.

Lemma wordsWeight_nonneg (a : list gostring) : (0 <= wordsWeight a)%Z.
Proof.
  unfold wordsWeight. induction a as [|w a IH]; cbn [fold_right]; [lia|].
  pose proof (len_nonneg w). lia.
Qed.

Lemma flushField_weight (cur : gostring) : (wordsWeight (flushField cur) <= len cur + 1)%Z.
Proof.
  unfold wordsWeight. destruct cur; cbn [flushField fold_right]; [|lia].
  unfold len; simpl; lia.
Qed.

Lemma spaceRune_shorter (s rest : gostring) :
  Strings.dropRune Strings.spaceRunes s = Some rest -> length rest < length s.
Proof.
  intros H. apply dropRune_Some in H as (r & Hin & ->).
  pose proof (proj1 spaceRunes_tailHigh) as Hshape. rewrite forallb_forall in Hshape.
  specialize (Hshape r Hin). destruct r; [discriminate|].
  rewrite length_app. simpl. lia.
Qed.

Lemma fieldsFrom_weight (fuel : nat) :
  forall cur s, (wordsWeight (fieldsFrom fuel cur s) <= len cur + len s + 1)%Z.
Proof.
  induction fuel as [|fuel IH]; intros cur s.
  - cbn [fieldsFrom]. pose proof (flushField_weight cur). pose proof (len_nonneg s). lia.
  - destruct s as [|c s'].
    + cbn [fieldsFrom]. pose proof (flushField_weight cur). unfold len; simpl. unfold len in *. lia.
    + cbn [fieldsFrom].
      destruct (Strings.dropRune Strings.spaceRunes (c :: s')) as [rest|] eqn:E.
      * rewrite wordsWeight_app. apply spaceRune_shorter in E.
        pose proof (flushField_weight cur). specialize (IH [] rest).
        unfold len in *. simpl in *. lia.
      * specialize (IH (cur ++ [c]) s'). unfold len in *.
        rewrite length_app in IH. simpl in *. lia.
Qed.

Lemma dropRune_prefix_None (runes : list gostring) (s ctx : gostring) :
  Strings.dropRune runes (s ++ ctx) = None -> Strings.dropRune runes s = None.
Proof.
  rewrite !dropRune_None. intros H r rest Hin ->.
  apply (H r (rest ++ ctx) Hin). now rewrite app_assoc.
Qed.

Lemma spaceFreeBefore_snoc (cur : gostring) (c : ascii) (s : gostring) :
  spaceFreeBefore cur (c :: s) ->
  Strings.dropRune Strings.spaceRunes (c :: s) = None ->
  spaceFreeBefore (cur ++ [c]) s.
Proof.
  intros Hcur Hc. induction cur as [|a cur IH].
  - cbn [app spaceFreeBefore]. split; [exact Hc | exact I].
  - cbn [spaceFreeBefore] in Hcur. destruct Hcur as [Ha Hcur].
    change ((a :: cur) ++ [c]) with (a :: (cur ++ [c])).
    cbn [spaceFreeBefore]. split; [|exact (IH Hcur)].
    change (a :: (cur ++ [c])) with ((a :: cur) ++ [c]).
    rewrite <- app_assoc. exact Ha.
Qed.

Lemma spaceFreeBefore_alone (w ctx : gostring) :
  spaceFreeBefore w ctx -> spaceFreeBefore w [].
Proof.
  induction w as [|a w IH]; cbn [spaceFreeBefore]; [trivial|].
  intros [Ha Hw]. split; [|exact (IH Hw)].
  rewrite app_nil_r. exact (dropRune_prefix_None _ _ _ Ha).
Qed.

Lemma flushField_words (cur ctx : gostring) :
  spaceFreeBefore cur ctx ->
  Forall (fun w => w <> [] /\ spaceFreeBefore w []) (flushField cur).
Proof.
  intros H. destruct cur as [|a cur]; cbn [flushField]; constructor; [|constructor].
  split; [discriminate | exact (spaceFreeBefore_alone _ _ H)].
Qed.

Lemma fieldsFrom_words (fuel : nat) :
  forall cur s,
    spaceFreeBefore cur s ->
    Forall (fun w => w <> [] /\ spaceFreeBefore w []) (fieldsFrom fuel cur s).
Proof.
  induction fuel as [|fuel IH]; intros cur s Hcur.
  - cbn [fieldsFrom]. exact (flushField_words _ _ Hcur).
  - destruct s as [|c s']; cbn [fieldsFrom]; [exact (flushField_words _ _ Hcur)|].
    destruct (Strings.dropRune Strings.spaceRunes (c :: s')) as [rest|] eqn:E.
    + apply Forall_app. split; [exact (flushField_words _ _ Hcur)|].
      apply IH. exact I.
    + apply IH. now apply spaceFreeBefore_snoc.
Qed.

Lemma Fields_words (text : gostring) :
  Forall (fun w => w <> [] /\ spaceFreeBefore w []) (Fields text).
Proof. apply fieldsFrom_words. exact I. Qed.

Lemma Fields_weight (text : gostring) : (wordsWeight (Fields text) <= len text + 1)%Z.
Proof.
  pose proof (fieldsFrom_weight (length text) [] text). unfold len in *. simpl in *.
  unfold Fields. lia.
Qed.

Lemma spaceFree_bytes (w : gostring) (c : ascii) :
  spaceFreeBefore w [] -> In c w -> isAsciiSpace c = false.
Proof.
  induction w as [|a w IH]; [intros _ []|].
  cbn [spaceFreeBefore]. intros [Ha Hw] [->|Hin]; [|exact (IH Hw Hin)].
  destruct (isAsciiSpace c) eqn:Ec; [|reflexivity].
  rewrite app_nil_r in Ha.
  pose proof (proj1 (dropRune_ascii_space c w Ec)) as Hd. congruence.
Qed.

Lemma wrapStep_cases (width : Z) (result : gostring) (n : Z) (w : gostring) :
  (0 <= n)%Z -> (n + len w + 1 < 2 ^ 63)%Z ->
  wrapStep width (result, n) w =
    if (width <? n + len w + 1)%Z && (0 <? n)%Z then (result ++ [NL] ++ w, len w)
    else if (0 <? n)%Z then (result ++ [SPACE] ++ w, (n + 1 + len w)%Z)
         else (result ++ w, len w).
Proof.
  intros Hn Hb. pose proof (len_nonneg w) as Hw.
  unfold wrapStep.
  rewrite (wrap64_small (n + len w)) by lia.
  rewrite (wrap64_small (n + len w + 1)) by lia.
  destruct (Z.ltb_spec width (n + len w + 1)) as [H1|H1];
    destruct (Z.ltb_spec 0 n) as [H2|H2]; cbn [andb]; cbv beta iota zeta.
  - change (0 <? 0)%Z with false. cbv beta iota zeta.
    rewrite wrap64_small by lia. now rewrite <- app_assoc.
  - destruct (Z.ltb_spec 0 n); [lia|]. cbv beta iota zeta.
    assert (n = 0%Z) as -> by lia. rewrite wrap64_small by lia. reflexivity.
  - destruct (Z.ltb_spec 0 n); [|lia]. cbv beta iota zeta.
    rewrite (wrap64_small (n + 1)) by lia. rewrite wrap64_small by lia.
    now rewrite <- app_assoc.
  - destruct (Z.ltb_spec 0 n); [lia|]. cbv beta iota zeta.
    assert (n = 0%Z) as -> by lia. rewrite wrap64_small by lia. reflexivity.
Qed.

Lemma Join_cons_continue (w : gostring) (ws : list gostring) (n : Z) :
  (0 < n)%Z -> Strings.Join (w :: ws) [SPACE] = w ++ continueLine n ws.
Proof.
  intros Hn. destruct ws as [|v ws]; cbn [Strings.Join continueLine]; [now rewrite app_nil_r|].
  destruct (Z.ltb_spec 0 n); [reflexivity | lia].
Qed.

Lemma len_app {A} (a b : list A) : len (a ++ b) = (len a + len b)%Z.
Proof. unfold len. rewrite length_app. lia. Qed.

Lemma len_pos {A} (a : list A) : a <> [] -> (0 < len a)%Z.
Proof. destruct a; [contradiction|]. intros _. unfold len. simpl. lia. Qed.

Lemma wrap_fold (width : Z) (ws : list gostring) :
  forall result n,
    (0 <= n)%Z -> (n + wordsWeight ws < 2 ^ 63)%Z ->
    Forall (fun w => w <> []) ws ->
    exists first rest,
      ws = first ++ concat rest
      /\ fst (fold_left (wrapStep width) ws (result, n))
         = result ++ continueLine n first
             ++ concat (map (fun g => NL :: Strings.Join g [SPACE]) rest)
      /\ (first = [] \/ (n + len (continueLine n first) <= width)%Z
          \/ (n = 0%Z /\ exists w, first = [w]))
      /\ (n = 0%Z -> ws <> [] -> first <> [])
      /\ Forall (fun g => g <> [] /\ ((len (Strings.Join g [SPACE]) <= width)%Z
                                      \/ exists w, g = [w])) rest
      /\ match rest with
         | (w :: _) :: _ => (width < n + len (continueLine n first) + len w + 1)%Z
         | _ => True
         end
      /\ Sorted (breakNeeded width) rest.
Proof.
  induction ws as [|w ws IH]; intros result n Hn Hb Hws.
  - exists [], []. cbn [app concat map fold_left fst continueLine]. rewrite app_nil_r.
    split; [reflexivity|]. split; [reflexivity|]. split; [now left|].
    split; [intros _ H; now elim H|]. split; [constructor|]. split; [exact I | constructor].
  - apply Forall_cons_iff in Hws as [Hw Hws].
    cbn [wordsWeight fold_right] in Hb. fold (wordsWeight ws) in Hb.
    pose proof (wordsWeight_nonneg ws) as Hpos.
    pose proof (len_pos w Hw) as Hlw.
    cbn [fold_left]. rewrite wrapStep_cases by lia.
    destruct (Z.ltb_spec width (n + len w + 1)) as [H1|H1];
      destruct (Z.ltb_spec 0 n) as [H2|H2]; cbn [andb].
    + (* the word opens a new line *)
      destruct (IH (result ++ [NL] ++ w) (len w) ltac:(lia) ltac:(lia) Hws)
        as (first & rest & Hsplit & Hout & Hfit & _ & Hrest & Hadj & Hsorted).
      exists [], ((w :: first) :: rest).
      pose proof (Join_cons_continue w first (len w) Hlw) as HJ.
      split; [cbn [app concat]; now rewrite Hsplit|].
      split; [refine (eq_trans Hout _); cbn [continueLine map concat app]; rewrite HJ;
              now rewrite <- !app_assoc|].
      split; [now left|]. split; [intros ->; lia|].
      split; [|split].
      * constructor; [|exact Hrest]. split; [discriminate|].
        destruct Hfit as [->|[Hfit|[Hz _]]]; [right; now exists w | left | lia].
        rewrite HJ, len_app. exact Hfit.
      * cbn [continueLine]. change (len (@nil ascii)) with 0%Z. lia.
      * constructor; [exact Hsorted|].
        destruct rest as [|g2 rest]; constructor.
        destruct g2 as [|w2 g2]; cbn [breakNeeded]; [exact I|].
        rewrite HJ, len_app. exact Hadj.
    + (* first word of the text *)
      assert (n = 0%Z) as -> by lia.
      destruct (IH (result ++ w) (len w) ltac:(lia) ltac:(lia) Hws)
        as (first & rest & Hsplit & Hout & Hfit & _ & Hrest & Hadj & Hsorted).
      exists (w :: first), rest.
      pose proof (Join_cons_continue w first (len w) Hlw) as HJ.
      assert (Hc : continueLine 0 (w :: first) = w ++ continueLine (len w) first)
        by (cbn [continueLine]; exact HJ).
      split; [cbn [app]; now rewrite Hsplit|].
      split; [refine (eq_trans Hout _); rewrite Hc; now rewrite <- !app_assoc|].
      split; [|split; [discriminate|]].
      * destruct Hfit as [->|[Hfit|[Hz _]]]; [right; right; split; [reflexivity | now exists w] | | lia].
        right; left. rewrite Hc, len_app. lia.
      * split; [exact Hrest|]. split; [|exact Hsorted].
        destruct rest as [|[|w2 g2] rest]; try exact I.
        rewrite Hc, len_app. lia.
    + (* the word continues the line *)
      destruct (IH (result ++ [SPACE] ++ w) (n + 1 + len w)%Z ltac:(lia) ltac:(lia) Hws)
        as (first & rest & Hsplit & Hout & Hfit & _ & Hrest & Hadj & Hsorted).
      exists (w :: first), rest.
      pose proof (Join_cons_continue w first (n + 1 + len w) ltac:(lia)) as HJ.
      assert (Hc : continueLine n (w :: first)
                   = SPACE :: w ++ continueLine (n + 1 + len w) first).
      { cbn [continueLine]. destruct (Z.ltb_spec 0 n); [|lia]. now rewrite HJ. }
      assert (Hl : (n + len (continueLine n (w :: first))
                    = n + 1 + len w + len (continueLine (n + 1 + len w) first))%Z).
      { rewrite Hc. change (SPACE :: w ++ continueLine (n + 1 + len w) first)
          with ([SPACE] ++ w ++ continueLine (n + 1 + len w) first).
        rewrite !len_app. change (len [SPACE]) with 1%Z. lia. }
      split; [cbn [app]; now rewrite Hsplit|].
      split; [refine (eq_trans Hout _); rewrite Hc; cbn [app]; now rewrite <- !app_assoc|].
      split; [|split; [intros ->; lia|]].
      * right; left. rewrite Hl.
        destruct Hfit as [->|[Hfit|[Hz _]]]; [|exact Hfit | lia].
        cbn [continueLine]. change (len (@nil ascii)) with 0%Z. lia.
      * split; [exact Hrest|]. split; [|exact Hsorted].
        destruct rest as [|[|w2 g2] rest]; try exact I.
        rewrite Hl. exact Hadj.
    + (* first word of the text, which fits *)
      assert (n = 0%Z) as -> by lia.
      destruct (IH (result ++ w) (len w) ltac:(lia) ltac:(lia) Hws)
        as (first & rest & Hsplit & Hout & Hfit & _ & Hrest & Hadj & Hsorted).
      exists (w :: first), rest.
      pose proof (Join_cons_continue w first (len w) Hlw) as HJ.
      assert (Hc : continueLine 0 (w :: first) = w ++ continueLine (len w) first)
        by (cbn [continueLine]; exact HJ).
      split; [cbn [app]; now rewrite Hsplit|].
      split; [refine (eq_trans Hout _); rewrite Hc; now rewrite <- !app_assoc|].
      split; [|split; [discriminate|]].
      * destruct Hfit as [->|[Hfit|[Hz _]]]; [right; right; split; [reflexivity | now exists w] | | lia].
        right; left. rewrite Hc, len_app. lia.
      * split; [exact Hrest|]. split; [|exact Hsorted].
        destruct rest as [|[|w2 g2] rest]; try exact I.
        rewrite Hc, len_app. lia.
Qed.

Lemma Join_concat_sep (a : gostring) (l : list gostring) (sep : ascii) :
  Strings.Join (a :: l) [sep] = a ++ concat (map (fun x => sep :: x) l).
Proof.
  revert a. induction l as [|b l IH]; intros a.
  - cbn. now rewrite app_nil_r.
  - change (Strings.Join (a :: b :: l) [sep]) with (a ++ [sep] ++ Strings.Join (b :: l) [sep]).
    rewrite IH. cbn [map concat app]. reflexivity.
Qed.

Lemma Join_avoids (g : list gostring) (sep c : ascii) :
  c <> sep -> Forall (fun w => ~ In c w) g -> ~ In c (Strings.Join g [sep]).
Proof.
  intros Hne. induction g as [|w g IH]; intros Hall; [intros []|].
  apply Forall_cons_iff in Hall as [Hw Hg].
  destruct g as [|v g]; [exact Hw|].
  change (Strings.Join (w :: v :: g) [sep]) with (w ++ sep :: Strings.Join (v :: g) [sep]).
  rewrite in_app_iff. intros [H|[H|H]]; [now apply Hw | now apply Hne | now apply IH].
Qed.

Lemma word_no_newline (w : gostring) : spaceFreeBefore w [] -> ~ In NL w.
Proof.
  intros Hw Hin. pose proof (spaceFree_bytes w NL Hw Hin) as H. discriminate H.
Qed.

Lemma Forall_concat_groups {A} (P : A -> Prop) (groups : list (list A)) :
  Forall P (concat groups) -> Forall (Forall P) groups.
Proof.
  induction groups as [|g groups IH]; cbn [concat]; intros H; constructor.
  - apply Forall_app in H. tauto.
  - apply IH. apply Forall_app in H. tauto.
Qed.

(** X28: the lines of a wrapped text.  For a text with at least one
    word, the lines of [wrapText text width] are the words of the text
    in their order, put in groups and joined by single spaces; no line
    is empty; every line fits in [width] bytes unless it consists of
    one word; and every line break was needed, the first word of the
    next line not fitting behind the line before it. *)
Theorem wrapText_lines (text : gostring) (width : Z) :
  (len text < 2 ^ 62)%Z ->
  Fields text <> [] ->
  exists groups,
    concat groups = Fields text
    /\ Strings.Split (wrapText text width) NL
       = map (fun g => Strings.Join g [SPACE]) groups
    /\ Forall (fun g => g <> []
                        /\ ((len (Strings.Join g [SPACE]) <= width)%Z
                            \/ exists w, g = [w])) groups
    /\ Sorted (breakNeeded width) groups.
Proof.
  intros Hbig Hne.
  pose proof (Fields_words text) as Hwords.
  pose proof (Fields_weight text) as Hweight.
  assert (Hnonempty : Forall (fun w : gostring => w <> []) (Fields text))
    by (eapply Forall_impl; [|exact Hwords]; cbv beta; tauto).
  destruct (wrap_fold width (Fields text) [] 0%Z ltac:(lia) ltac:(lia) Hnonempty)
    as (first & rest & Hsplit & Hout & Hfit & Hfirst & Hrest & Hadj & Hsorted).
  specialize (Hfirst eq_refl Hne).
  exists (first :: rest).
  assert (Hjoin : continueLine 0 first = Strings.Join first [SPACE])
    by (destruct first; [contradiction | reflexivity]).
  split; [cbn [concat]; now rewrite Hsplit|].
  split; [|split].
  - unfold wrapText. cbv zeta.
    destruct (len_zero_iff (Fields text)) as [Hz _].
    destruct (len (Fields text) =? 0)%Z; [now elim Hne; apply Hz|].
    assert (Hww : wrapWords (Fields text) width
                 = [] ++ continueLine 0 first
                     ++ concat (map (fun g => NL :: Strings.Join g [SPACE]) rest))
      by exact Hout.
    rewrite Hww, Hjoin. cbn [app].
    replace (Strings.Join first [SPACE]
               ++ concat (map (fun g => NL :: Strings.Join g [SPACE]) rest))
      with (Strings.Join (map (fun g => Strings.Join g [SPACE]) (first :: rest)) [NL])
      by (cbn [map]; rewrite Join_concat_sep, map_map; reflexivity).
    apply Split_Join; [discriminate|].
    apply Forall_map.
    assert (Hgroups : Forall (Forall (fun w : gostring => ~ In NL w)) (first :: rest)).
    { apply Forall_concat_groups. cbn [concat]. rewrite <- Hsplit.
      eapply Forall_impl; [|exact Hwords]. cbv beta.
      intros w [_ Hw]. now apply word_no_newline. }
    eapply Forall_impl; [|exact Hgroups]. cbv beta.
    intros g Hg. apply Join_avoids; [discriminate | exact Hg].
  - constructor; [|exact Hrest]. split; [exact Hfirst|].
    rewrite <- Hjoin.
    destruct Hfit as [Hfit|[Hfit|[_ Hfit]]]; [contradiction | left; lia | now right].
  - constructor; [exact Hsorted|].
    destruct rest as [|g2 rest]; constructor.
    destruct g2 as [|w2 g2]; cbn [breakNeeded]; [exact I|].
    rewrite <- Hjoin. lia.
Qed.

Lemma wrapText_lines_witness :
  exists groups,
    concat groups = Fields (lit "run  the command now")
    /\ Strings.Split (wrapText (lit "run  the command now") 8) NL
       = map (fun g => Strings.Join g [SPACE]) groups.
Proof.
  destruct (wrapText_lines (lit "run  the command now") 8
              ltac:(vm_compute; reflexivity) ltac:(vm_compute; discriminate))
    as (groups & Hwords & Hlines & _).
  exists groups. split; [exact Hwords | exact Hlines].
Defined.

Lemma fieldsFrom_nil (fuel : nat) (cur : gostring) : fieldsFrom fuel cur [] = flushField cur.
Proof. destruct fuel; reflexivity. Qed.

Lemma dropRune_before_low (runes : list gostring) (s ctx : gostring) :
  forallb tailHigh runes = true ->
  Strings.dropRune runes s = None ->
  s <> [] ->
  (ctx = [] \/ exists c ctx', ctx = c :: ctx' /\ isHigh c = false) ->
  Strings.dropRune runes (s ++ ctx) = None.
Proof.
  intros Hshape Hs Hne Hctx. rewrite forallb_forall in Hshape.
  apply dropRune_None. intros r rest Hin Heq. rewrite dropRune_None in Hs.
  specialize (Hshape r Hin). destruct r as [|w r]; [discriminate Hshape|].
  destruct s as [|a s]; [contradiction|].
  cbn [app] in Heq. injection Heq as <- Heq. cbn [tailHigh] in Hshape.
  assert (Hpre : exists rest', s = r ++ rest').
  { clear Hs Hne Hin. revert s Heq.
    induction r as [|h r IH]; intros s Heq; [now exists s|].
    cbn [forallb] in Hshape. apply andb_true_iff in Hshape as [Hh Hr].
    destruct s as [|b s].
    - exfalso. cbn [app] in Heq.
      destruct Hctx as [->|(c & ctx' & -> & Hc)]; [discriminate Heq|].
      injection Heq as -> _. congruence.
    - cbn [app] in Heq. injection Heq as -> Heq.
      destruct (IH Hr s Heq) as [rest' ->]. now exists rest'. }
  destruct Hpre as [rest' ->].
  apply (Hs (a :: r) rest' Hin). reflexivity.
Qed.

Lemma spaceFreeBefore_context (w ctx : gostring) :
  spaceFreeBefore w [] ->
  (ctx = [] \/ exists c ctx', ctx = c :: ctx' /\ isHigh c = false) ->
  spaceFreeBefore w ctx.
Proof.
  intros Hw Hctx. induction w as [|a w IH]; cbn [spaceFreeBefore] in *; [exact I|].
  destruct Hw as [Ha Hw]. split; [|exact (IH Hw)].
  rewrite app_nil_r in Ha.
  apply dropRune_before_low; [exact (proj1 spaceRunes_tailHigh) | exact Ha | discriminate | exact Hctx].
Qed.

Lemma fieldsFrom_separator (sep : gostring) :
  sep <> [] -> Forall (fun c => isAsciiSpace c = true) sep ->
  forall cur rest fuel,
    length (sep ++ rest) <= fuel ->
    fieldsFrom fuel cur (sep ++ rest)
    = flushField cur ++ fieldsFrom (fuel - length sep) [] rest.
Proof.
  induction sep as [|c sep IH]; intros Hne Hall cur rest fuel Hfuel; [contradiction|].
  apply Forall_cons_iff in Hall as [Hc Hall].
  destruct fuel as [|fuel]; [simpl in Hfuel; lia|].
  cbn [app fieldsFrom].
  rewrite (proj1 (dropRune_ascii_space c (sep ++ rest) Hc)).
  cbn [length Nat.sub].
  destruct sep as [|d sep].
  - cbn [app length]. now rewrite Nat.sub_0_r.
  - rewrite (IH ltac:(discriminate) Hall [] rest fuel) by (simpl in Hfuel |- *; lia).
    reflexivity.
Qed.

Lemma fieldsFrom_word (w : gostring) :
  forall cur ctx fuel,
    spaceFreeBefore w ctx ->
    length (w ++ ctx) <= fuel ->
    fieldsFrom fuel cur (w ++ ctx) = fieldsFrom (fuel - length w) (cur ++ w) ctx.
Proof.
  induction w as [|a w IH]; intros cur ctx fuel Hw Hfuel.
  - cbn [app length]. now rewrite Nat.sub_0_r, app_nil_r.
  - destruct fuel as [|fuel]; [simpl in Hfuel; lia|].
    cbn [spaceFreeBefore] in Hw. destruct Hw as [Ha Hw].
    change ((a :: w) ++ ctx) with (a :: (w ++ ctx)) in *.
    cbn [fieldsFrom]. rewrite Ha. cbn [length Nat.sub].
    rewrite (IH (cur ++ [a]) ctx fuel Hw) by (simpl in Hfuel; lia).
    now rewrite <- app_assoc.
Qed.

Lemma spaced_cons (sep w : gostring) (seps ws : list gostring) :
  spaced (sep :: seps) (w :: ws) = sep ++ w ++ spaced seps ws.
Proof. unfold spaced. cbn [combine map concat fst snd]. now rewrite <- app_assoc. Qed.

Lemma spaced_boundary (seps ws : list gostring) :
  Forall (fun sep => sep <> [] /\ Forall (fun c => isAsciiSpace c = true) sep) seps ->
  spaced seps ws = [] \/ exists c ctx', spaced seps ws = c :: ctx' /\ isHigh c = false.
Proof.
  intros Hseps. destruct seps as [|sep seps]; [now left|].
  destruct ws as [|w ws]; [now left|].
  apply Forall_cons_iff in Hseps as [[Hne Hsp] _].
  destruct sep as [|c sep]; [contradiction|].
  apply Forall_cons_iff in Hsp as [Hc _].
  right. exists c. eexists. rewrite spaced_cons. cbn [app].
  split; [reflexivity | now apply isAsciiSpace_not_high].
Qed.

Lemma fieldsFrom_spaced (ws : list gostring) :
  forall seps cur fuel,
    length seps = length ws ->
    Forall (fun sep => sep <> [] /\ Forall (fun c => isAsciiSpace c = true) sep) seps ->
    Forall (fun w => w <> [] /\ spaceFreeBefore w []) ws ->
    length (spaced seps ws) <= fuel ->
    fieldsFrom fuel cur (spaced seps ws) = flushField cur ++ ws.
Proof.
  induction ws as [|w ws IH]; intros seps cur fuel Hlen Hseps Hws Hfuel.
  - destruct seps; [|discriminate]. cbn. rewrite fieldsFrom_nil. now rewrite app_nil_r.
  - destruct seps as [|sep seps]; [discriminate|].
    injection Hlen as Hlen.
    apply Forall_cons_iff in Hseps as [[Hne Hsp] Hseps].
    apply Forall_cons_iff in Hws as [[Hwne Hw] Hws].
    rewrite spaced_cons in *.
    rewrite (fieldsFrom_separator sep Hne Hsp) by exact Hfuel.
    rewrite !length_app in Hfuel.
    rewrite (fieldsFrom_word w [] (spaced seps ws))
      by (first [apply spaceFreeBefore_context; [exact Hw | now apply spaced_boundary]
                | rewrite length_app; lia]).
    rewrite (IH seps ([] ++ w) _ Hlen Hseps Hws) by lia.
    cbn [app]. destruct w; [contradiction | reflexivity].
Qed.

Lemma wrap_fold_spaced (width : Z) (ws : list gostring) :
  forall result n,
    (0 <= n)%Z -> (n + wordsWeight ws < 2 ^ 63)%Z ->
    Forall (fun w => w <> []) ws ->
    exists seps,
      length seps = length ws
      /\ Forall (fun sep => Forall (fun c => isAsciiSpace c = true) sep) seps
      /\ Forall (fun sep : gostring => sep <> []) (tl seps)
      /\ ((0 < n)%Z -> Forall (fun sep : gostring => sep <> []) seps)
      /\ fst (fold_left (wrapStep width) ws (result, n)) = result ++ spaced seps ws.
Proof.
  induction ws as [|w ws IH]; intros result n Hn Hb Hws.
  - exists []. cbn. rewrite app_nil_r. repeat split; constructor.
  - apply Forall_cons_iff in Hws as [Hw Hws].
    cbn [wordsWeight fold_right] in Hb. fold (wordsWeight ws) in Hb.
    pose proof (wordsWeight_nonneg ws) as Hpos.
    pose proof (len_pos w Hw) as Hlw.
    cbn [fold_left]. rewrite wrapStep_cases by lia.
    assert (Hsp : forall c, isAsciiSpace c = true ->
                            Forall (fun c => isAsciiSpace c = true) [c])
      by (intros c Hc; now repeat constructor).
    destruct (Z.ltb_spec width (n + len w + 1)) as [H1|H1];
      destruct (Z.ltb_spec 0 n) as [H2|H2]; cbn [andb].
    + destruct (IH (result ++ [NL] ++ w) (len w) ltac:(lia) ltac:(lia) Hws)
        as (seps & Hlen & Hall & _ & Hpos' & Hout).
      exists ([NL] :: seps). rewrite spaced_cons.
      split; [cbn; now rewrite Hlen|].
      split; [constructor; [now apply Hsp | exact Hall]|].
      split; [exact (Hpos' Hlw)|].
      split; [intros _; constructor; [discriminate | exact (Hpos' Hlw)]|].
      refine (eq_trans Hout _). now rewrite <- !app_assoc.
    + destruct (IH (result ++ w) (len w) ltac:(lia) ltac:(lia) Hws)
        as (seps & Hlen & Hall & _ & Hpos' & Hout).
      exists ([] :: seps). rewrite spaced_cons.
      split; [cbn; now rewrite Hlen|].
      split; [constructor; [constructor | exact Hall]|].
      split; [exact (Hpos' Hlw)|].
      split; [intros; lia|].
      refine (eq_trans Hout _). cbn [app]. now rewrite <- !app_assoc.
    + destruct (IH (result ++ [SPACE] ++ w) (n + 1 + len w)%Z ltac:(lia) ltac:(lia) Hws)
        as (seps & Hlen & Hall & _ & Hpos' & Hout).
      exists ([SPACE] :: seps). rewrite spaced_cons.
      split; [cbn; now rewrite Hlen|].
      split; [constructor; [now apply Hsp | exact Hall]|].
      split; [exact (Hpos' ltac:(lia))|].
      split; [intros _; constructor; [discriminate | exact (Hpos' ltac:(lia))]|].
      refine (eq_trans Hout _). now rewrite <- !app_assoc.
    + destruct (IH (result ++ w) (len w) ltac:(lia) ltac:(lia) Hws)
        as (seps & Hlen & Hall & _ & Hpos' & Hout).
      exists ([] :: seps). rewrite spaced_cons.
      split; [cbn; now rewrite Hlen|].
      split; [constructor; [constructor | exact Hall]|].
      split; [exact (Hpos' Hlw)|].
      split; [intros; lia|].
      refine (eq_trans Hout _). cbn [app]. now rewrite <- !app_assoc.
Qed.

Lemma Fields_wrapWords (words : list gostring) (width : Z) :
  (wordsWeight words < 2 ^ 63)%Z ->
  Forall (fun w => w <> [] /\ spaceFreeBefore w []) words ->
  Fields (wrapWords words width) = words.
Proof.
  intros Hb Hwords.
  assert (Hnonempty : Forall (fun w : gostring => w <> []) words)
    by (eapply Forall_impl; [|exact Hwords]; cbv beta; tauto).
  destruct (wrap_fold_spaced width words [] 0%Z ltac:(lia) ltac:(lia) Hnonempty)
    as (seps & Hlen & Hall & Htl & _ & Hout).
  assert (Hww : wrapWords words width = spaced seps words) by exact Hout.
  rewrite Hww. unfold Fields.
  assert (Hok : forall l : list gostring,
             Forall (fun sep => Forall (fun c => isAsciiSpace c = true) sep) l ->
             Forall (fun sep : gostring => sep <> []) l ->
             Forall (fun sep => sep <> [] /\ Forall (fun c => isAsciiSpace c = true) sep) l).
  { intros l H1 H2. induction H1 as [|x l Hx _ IH]; constructor.
    - apply Forall_cons_iff in H2. tauto.
    - apply IH. apply Forall_cons_iff in H2. tauto. }
  destruct words as [|w words]; [destruct seps; [reflexivity | discriminate]|].
  destruct seps as [|sep seps]; [discriminate|].
  cbn [tl] in Htl. injection Hlen as Hlen.
  apply Forall_cons_iff in Hall as [Hsep Hall].
  apply Forall_cons_iff in Hwords as [[Hwne Hw] Hwords].
  destruct sep as [|c sep].
  - rewrite spaced_cons. cbn [app].
    rewrite (fieldsFrom_word w [] (spaced seps words))
      by (first [apply spaceFreeBefore_context; [exact Hw | apply spaced_boundary; now apply Hok]
                | lia]).
    rewrite (fieldsFrom_spaced words seps ([] ++ w) _ Hlen (Hok _ Hall Htl) Hwords)
      by (rewrite length_app; lia).
    cbn [app]. destruct w; [contradiction | reflexivity].
  - apply (fieldsFrom_spaced (w :: words) ((c :: sep) :: seps) []);
      [cbn; now rewrite Hlen | | | lia].
    + constructor; [split; [discriminate | exact Hsep] | exact (Hok _ Hall Htl)].
    + constructor; [split; [exact Hwne | exact Hw] | exact Hwords].
Qed.

(** X29: wrapping only changes white space.  The words of the wrapped
    text are the words of the text, in their order; hence wrapping a
    wrapped text again to the same width changes nothing. *)
Theorem wrapText_keeps_words (text : gostring) (width : Z) :
  (len text < 2 ^ 62)%Z ->
  Fields (wrapText text width) = Fields text
  /\ wrapText (wrapText text width) width = wrapText text width.
Proof.
  intros Hbig.
  assert (Hsame : Fields (wrapText text width) = Fields text).
  { unfold wrapText at 1. cbv zeta.
    destruct (len (Fields text) =? 0)%Z; [reflexivity|].
    apply Fields_wrapWords; [|apply Fields_words].
    pose proof (Fields_weight text). lia. }
  split; [exact Hsame|].
  unfold wrapText at 1. cbv zeta. rewrite Hsame.
  unfold wrapText. cbv zeta.
  destruct (len (Fields text) =? 0)%Z; reflexivity.
Qed.

Lemma wrapText_keeps_words_witness :
  Fields (wrapText (lit "run  the command now") 8) = Fields (lit "run  the command now").
Proof.
  exact (proj1 (wrapText_keeps_words (lit "run  the command now") 8
                  ltac:(vm_compute; reflexivity))).
Defined.
